(** * ESP32IMDB: a shallow embedding of the in-memory record store

    The development follows [src/ESP32IMDB.h] and [src/ESP32IMDB.cpp].
    Machine integers are integers of [Z] with their wrap-around written
    out, C strings are [string]s cut at the first NUL, the record array is
    a list, and the three collaborators the store calls (the heap, the
    millisecond clock and the SPIFFS file system) are explicit: the heap
    and the file system are state passed in and out, and the clock is the
    argument [now], the value [millis()] has during the call; [selectAll]
    and [top], which scan the records twice, take the readings of the clock
    one by one ([millis]).  One caller at a time is modelled, so the mutex
    does not appear. *)

From Stdlib Require Import ZArith Lia Bool List Ascii String SpecFloat.
From stdpp Require Import base list strings gmap.

Local Open Scope Z_scope.

(** ** Machine integers *)

Module Int.

Definition two32 : Z := 2 ^ 32.
Definition two31 : Z := 2 ^ 31.
Definition INT_MAX : Z := two31 - 1.

(** [(uint32_t) z]: the value modulo [2^32]. *)
Definition to_uint32 (z : Z) : Z := z mod two32.

(** [(int32_t) z]: the two's-complement reading of the low 32 bits. *)
Definition to_int32 (z : Z) : Z :=
  let u := z mod two32 in
  if u <? two31 then u else u - two32.

(** [(uint16_t) z] and [(uint8_t) z]. *)
Definition to_uint16 (z : Z) : Z := z mod 65536.
Definition to_uint8 (z : Z) : Z := z mod 256.

(** Signed division and remainder of C (truncation towards zero), on
    32-bit operands, the result wrapped as the hardware does for
    [INT_MIN / -1]. *)
Definition sdiv32 (a b : Z) : Z := to_int32 (Z.quot a b).
Definition srem32 (a b : Z) : Z := to_int32 (Z.rem a b).

End Int.

Import Int.

(** ** Single precision floats

    A [float] is kept as its 32 bits, so that storing, copying and
    persisting one never changes it; arithmetic and comparisons go through
    the IEEE-754 binary32 instance of [SpecFloat]. *)

Module Float32.

Definition prec : Z := 24.
Definition emax : Z := 128.

Definition of_bits (b : Z) : spec_float :=
  let s := Z.testbit b 31 in
  let e := Z.land (Z.shiftr b 23) 255 in
  let m := Z.land b (2 ^ 23 - 1) in
  if e =? 0 then
    (if m =? 0 then S754_zero s else S754_finite s (Z.to_pos m) (-149))
  else if e =? 255 then
    (if m =? 0 then S754_infinity s else S754_nan)
  else S754_finite s (Z.to_pos (m + 2 ^ 23)) (e - 150).

Definition sign_bit (s : bool) : Z := if s then Z.shiftl 1 31 else 0.

(** The quiet NaN every arithmetic NaN result is given here. *)
Definition nan_bits : Z := 2143289344.

Definition to_bits (f : spec_float) : Z :=
  match f with
  | S754_zero s => sign_bit s
  | S754_infinity s => Z.lor (sign_bit s) (Z.shiftl 255 23)
  | S754_nan => nan_bits
  | S754_finite s m e =>
      if Z.pos m <? 2 ^ 23 then Z.lor (sign_bit s) (Z.pos m)
      else Z.lor (sign_bit s) (Z.lor (Z.shiftl (e + 150) 23) (Z.pos m - 2 ^ 23))
  end.

(** [(float) i] for an [int32_t] [i]. *)
Definition of_int (i : Z) : Z := to_bits (binary_normalize prec emax i 0 false).

(** [(int) x]: truncation towards zero.  Outside the range of [int] the
    conversion is undefined in C; the FPU of the target saturates. *)
Definition to_int (x : Z) : Z :=
  match of_bits x with
  | S754_zero _ => 0
  | S754_nan => 0
  | S754_infinity s => if s then - two31 else INT_MAX
  | S754_finite s m e =>
      let mag := if 0 <=? e then Z.pos m * 2 ^ e else Z.pos m / 2 ^ (- e) in
      let v := if s then - mag else mag in
      Z.max (- two31) (Z.min INT_MAX v)
  end.

Definition add (x y : Z) : Z := to_bits (SFadd prec emax (of_bits x) (of_bits y)).
Definition sub (x y : Z) : Z := to_bits (SFsub prec emax (of_bits x) (of_bits y)).
Definition mul (x y : Z) : Z := to_bits (SFmul prec emax (of_bits x) (of_bits y)).
Definition div (x y : Z) : Z := to_bits (SFdiv prec emax (of_bits x) (of_bits y)).

Definition eqb (x y : Z) : bool := SFeqb (of_bits x) (of_bits y).
Definition ltb (x y : Z) : bool := SFltb (of_bits x) (of_bits y).
Definition leb (x y : Z) : bool := SFleb (of_bits x) (of_bits y).

(** The literals [0.0f], [3.4028235e38f] and [-3.4028235e38f]. *)
Definition zero : Z := 0.
Definition FLT_MAX : Z := 2139095039.
Definition neg_FLT_MAX : Z := 4286578687.

End Float32.

(** ** C strings *)

(** The C string held in a character buffer: the characters before the
    first NUL. *)
Fixpoint c_str (s : string) : string :=
  match s with
  | EmptyString => EmptyString
  | String c s' => if Ascii.eqb c Ascii.zero then EmptyString else String c (c_str s')
  end.

Definition strlen (s : string) : Z := Z.of_nat (String.length (c_str s)).

(** [strcmp(a, b) == 0]. *)
Definition strcmp_eq (a b : string) : bool := String.eqb (c_str a) (c_str b).

(** [strncpy(dest, src, n); dest[n] = 0] for [n <= strlen(src)]: the C
    string left in [dest]. *)
Definition strncpy (src : string) (n : Z) : string :=
  String.substring 0 (Z.to_nat n) (c_str src).

(** ** The declarations of ESP32IMDB.h *)

Definition IMDB_MIN_HEAP_BYTES : Z := 30000.
Definition IMDB_MAX_STRING_LENGTH : Z := 255.
Definition IMDB_MAX_TTL_MS : Z := 30 * 24 * 60 * 60 * 1000.

Inductive IMDBDataType :=
  | IMDB_TYPE_INT32
  | IMDB_TYPE_MAC
  | IMDB_TYPE_STRING
  | IMDB_TYPE_EPOCH
  | IMDB_TYPE_BOOL
  | IMDB_TYPE_FLOAT.

Inductive IMDBResult :=
  | IMDB_OK
  | IMDB_ERROR_OUT_OF_MEMORY
  | IMDB_ERROR_HEAP_LIMIT
  | IMDB_ERROR_TABLE_EXISTS
  | IMDB_ERROR_NO_TABLE
  | IMDB_ERROR_INVALID_TYPE
  | IMDB_ERROR_INVALID_VALUE
  | IMDB_ERROR_COLUMN_COUNT_MISMATCH
  | IMDB_ERROR_COLUMN_NOT_FOUND
  | IMDB_ERROR_INVALID_OPERATION
  | IMDB_ERROR_NO_RECORDS
  | IMDB_ERROR_INVALID_MAC_FORMAT
  | IMDB_ERROR_FILE_OPEN
  | IMDB_ERROR_FILE_WRITE
  | IMDB_ERROR_FILE_READ
  | IMDB_ERROR_CORRUPT_FILE.

Inductive IMDBOperator :=
  | IMDB_OP_EQUAL
  | IMDB_OP_NOT_EQUAL
  | IMDB_OP_GREATER
  | IMDB_OP_LESS
  | IMDB_OP_GREATER_EQUAL
  | IMDB_OP_LESS_EQUAL.

Inductive IMDBMathOp :=
  | IMDB_MATH_ADD
  | IMDB_MATH_SUBTRACT
  | IMDB_MATH_MULTIPLY
  | IMDB_MATH_DIVIDE
  | IMDB_MATH_MODULO.

Global Instance IMDBDataType_eq_dec : EqDecision IMDBDataType.
Proof. solve_decision. Defined.

Global Instance IMDBResult_eq_dec : EqDecision IMDBResult.
Proof. solve_decision. Defined.

(** [struct IMDBColumn]: [name] is the whole 32-byte buffer, whose C
    string is the column's name. *)
Record IMDBColumn := mkColumn {
  name : string;
  type : IMDBDataType
}.

(** [union IMDBFieldValue], tagged with the member last written.  The
    store writes and reads a field at the type of its column only.
    [int32Value] is a signed 32-bit integer, [epochValue] an unsigned one,
    [floatValue] the 32 bits of the float, [macAddress] six bytes, and
    [stringValue] is [None] for a null pointer and otherwise the C string
    in a heap buffer of exactly its length plus one.

    The same type stands for what a [const void*] argument points to: the
    caller passes the address of an object of the column's type (for a
    string column, of a [const char*]). *)
Inductive IMDBFieldValue :=
  | int32Value (v : Z)
  | macAddress (b : list Z)
  | stringValue (s : option string)
  | epochValue (v : Z)
  | boolValue (b : bool)
  | floatValue (bits : Z).

(** Member reads.  The three 32-bit scalar members share their bits;
    any other read of a member that was not the one written is undefined
    in C and gives a fixed value here. *)
Definition get_int32 (f : IMDBFieldValue) : Z :=
  match f with
  | int32Value v | epochValue v | floatValue v => to_int32 v
  | _ => 0
  end.

Definition get_epoch (f : IMDBFieldValue) : Z :=
  match f with
  | int32Value v | epochValue v | floatValue v => to_uint32 v
  | _ => 0
  end.

Definition get_float (f : IMDBFieldValue) : Z :=
  match f with
  | int32Value v | epochValue v | floatValue v => to_uint32 v
  | _ => 0
  end.

(** Six bytes starting at the member. *)
Definition mac6 (b : list Z) : list Z :=
  map to_uint8 (take 6 (b ++ replicate 6 0)).

Definition get_mac (f : IMDBFieldValue) : list Z :=
  match f with
  | macAddress b => mac6 b
  | _ => mac6 []
  end.

Definition get_string (f : IMDBFieldValue) : option string :=
  match f with
  | stringValue s => s
  | _ => None
  end.

Definition get_bool (f : IMDBFieldValue) : bool :=
  match f with
  | boolValue b => b
  | _ => false
  end.

(** [struct IMDBRecord]; [fields = None] is the null pointer. *)
Record IMDBRecord := mkRecord {
  fields : option (list IMDBFieldValue);
  expiryMillis : Z;
  isValid : bool
}.

(** [struct IMDBSelectResult] (the [_r] marks the result's members). *)
Record IMDBSelectResult := mkSelectResult {
  int32Value_r : Z;
  macAddress_r : list Z;
  stringValue_r : string;
  epochValue_r : Z;
  boolValue_r : bool;
  floatValue_r : Z;
  type_r : IMDBDataType;
  hasValue : bool
}.

(** The private members of [class ESP32IMDB].  [_records] holds the
    slots [0 .. _recordCount-1] of the array, the only ones the code ever
    reads, so that [_recordCount] is its length; [_columns = None] is
    the null pointer.  The mutex is not part of the state: one caller at
    a time is modelled. *)
Record ESP32IMDB := mkDB {
  _columns : option (list IMDBColumn);
  _columnCount : Z;
  _records : list IMDBRecord;
  _recordCapacity : Z;
  _tableExists : bool
}.

Definition _recordCount (db : ESP32IMDB) : Z := Z.of_nat (length (_records db)).

(** The constructor. *)
Definition new_ESP32IMDB : ESP32IMDB :=
  mkDB None 0 [] 0 false.

(** ** The heap

    [freeBytes] is what [ESP.getFreeHeap()] reports.  An allocation of
    [n] bytes succeeds when [n] bytes are free, unless the next entry of
    [faults] says that this request fails (fragmentation, or another thread
    taking the memory): the allocator is outside the store and may refuse
    at any time.  [requests] counts the calls to [malloc] and [realloc]. *)

Record Heap := mkHeap {
  freeBytes : Z;
  requests : nat;
  faults : list bool
}.

Definition malloc (n : Z) (h : Heap) : bool * Heap :=
  let refused := match faults h with f :: _ => f | [] => false end in
  if negb refused && (n <=? freeBytes h)
  then (true, mkHeap (freeBytes h - n) (S (requests h)) (tail (faults h)))
  else (false, mkHeap (freeBytes h) (S (requests h)) (tail (faults h))).

Definition free (n : Z) (h : Heap) : Heap :=
  mkHeap (freeBytes h + n) (requests h) (faults h).

(** [realloc] of a block of [old] bytes to [n] bytes. *)
Definition realloc (old n : Z) (h : Heap) : bool * Heap :=
  let refused := match faults h with f :: _ => f | [] => false end in
  if negb refused && (n - old <=? freeBytes h)
  then (true, mkHeap (freeBytes h + old - n) (S (requests h)) (tail (faults h)))
  else (false, mkHeap (freeBytes h) (S (requests h)) (tail (faults h))).

(** [sizeof] on the 32-bit target. *)
Definition sizeof_IMDBColumn : Z := 36.
Definition sizeof_IMDBRecord : Z := 12.
Definition sizeof_IMDBFieldValue : Z := 8.
Definition sizeof_IMDBSelectResult : Z := 288.

(** Sizes are [size_t], 32 bits wide. *)
Definition size_t (z : Z) : Z := to_uint32 z.

(** ** Internal helpers *)

Definition checkHeapLimit (h : Heap) : bool :=
  IMDB_MIN_HEAP_BYTES <=? freeBytes h.

(** The columns [0 .. _columnCount-1]. *)
Definition columns_of (db : ESP32IMDB) : list IMDBColumn :=
  take (Z.to_nat (_columnCount db)) (default [] (_columns db)).

Fixpoint findColumnIndex_from (i : Z) (cols : list IMDBColumn) (columnName : string) : Z :=
  match cols with
  | [] => -1
  | c :: cols' =>
      if strcmp_eq (name c) columnName then i
      else findColumnIndex_from (i + 1) cols' columnName
  end.

Definition findColumnIndex (db : ESP32IMDB) (columnName : string) : Z :=
  findColumnIndex_from 0 (columns_of db) columnName.

(** [_columns[i].type]; the index is always one [findColumnIndex] gave. *)
Definition column_type (db : ESP32IMDB) (i : Z) : IMDBDataType :=
  match columns_of db !! Z.to_nat i with
  | Some c => type c
  | None => IMDB_TYPE_INT32
  end.

(** [copyFieldValue]: the result, and [*dest] after the call. *)
Definition copyFieldValue (dest src : IMDBFieldValue) (t : IMDBDataType) (h : Heap)
  : IMDBResult * IMDBFieldValue * Heap :=
  match t with
  | IMDB_TYPE_INT32 => (IMDB_OK, int32Value (get_int32 src), h)
  | IMDB_TYPE_MAC => (IMDB_OK, macAddress (get_mac src), h)
  | IMDB_TYPE_STRING =>
      match get_string src with
      | None => (IMDB_ERROR_INVALID_VALUE, dest, h)
      | Some srcStr =>
          let len := strlen srcStr in
          let len := if IMDB_MAX_STRING_LENGTH <? len then IMDB_MAX_STRING_LENGTH else len in
          match malloc (len + 1) h with
          | (false, h') => (IMDB_ERROR_OUT_OF_MEMORY, stringValue None, h')
          | (true, h') => (IMDB_OK, stringValue (Some (strncpy srcStr len)), h')
          end
      end
  | IMDB_TYPE_EPOCH => (IMDB_OK, epochValue (get_epoch src), h)
  | IMDB_TYPE_BOOL => (IMDB_OK, boolValue (get_bool src), h)
  | IMDB_TYPE_FLOAT => (IMDB_OK, floatValue (get_float src), h)
  end.

(** [isRecordExpired], with [currentMillis] the value [millis()] returns. *)
Definition isRecordExpired (currentMillis expiryMillis : Z) : bool :=
  if expiryMillis =? 0 then false
  else 0 <=? to_int32 (to_uint32 (currentMillis - expiryMillis)).

(** [_records[i].fields[j]], as the address the code passes on: [None]
    when the record has no field array. *)
Definition field_at (r : IMDBRecord) (j : Z) : option IMDBFieldValue :=
  match fields r with
  | Some fs => fs !! Z.to_nat j
  | None => None
  end.

Definition set_field (r : IMDBRecord) (j : Z) (f : IMDBFieldValue) : IMDBRecord :=
  mkRecord (option_map (fun fs => <[Z.to_nat j := f]> fs) (fields r))
           (expiryMillis r) (isValid r).

(** [_records[i].fields[j]] read as a value; every valid record has its
    [_columnCount] fields, and a read outside them gives a zero here. *)
Definition field_or_zero (r : IMDBRecord) (j : Z) : IMDBFieldValue :=
  default (int32Value 0) (field_at r j).

(** The bytes of the buffer of a string field. *)
Definition string_size (s : string) : Z := Z.of_nat (String.length s) + 1.

Definition fields_size (db : ESP32IMDB) : Z :=
  size_t (sizeof_IMDBFieldValue * _columnCount db).

(** The loop that frees the string buffers of [fields[0 .. n-1]], for [n]
    the length of [cols]. *)
Fixpoint free_strings (cols : list IMDBColumn) (fs : list IMDBFieldValue) (h : Heap) : Heap :=
  match cols, fs with
  | c :: cols', f :: fs' =>
      let h' :=
        match type c, get_string f with
        | IMDB_TYPE_STRING, Some s => free (string_size s) h
        | _, _ => h
        end in
      free_strings cols' fs' h'
  | _, _ => h
  end.

Definition freeRecord (db : ESP32IMDB) (record : IMDBRecord) (h : Heap) : IMDBRecord * Heap :=
  match fields record with
  | Some fs =>
      let h1 :=
        match _columns db with
        | Some _ => free_strings (columns_of db) fs h
        | None => h
        end in
      (mkRecord None (expiryMillis record) (isValid record), free (fields_size db) h1)
  | None => (record, h)
  end.

Definition invalidate (r : IMDBRecord) : IMDBRecord :=
  mkRecord (fields r) (expiryMillis r) false.

(** The loop of [compactRecords], [k] iterations from [readIndex]. *)
Fixpoint compact_loop (k readIndex writeIndex : nat) (recs : list IMDBRecord)
  : nat * list IMDBRecord :=
  match k with
  | O => (writeIndex, recs)
  | S k' =>
      match recs !! readIndex with
      | Some r =>
          if isValid r then
            let recs' :=
              if Nat.eqb writeIndex readIndex then recs
              else <[readIndex := mkRecord None (expiryMillis r) false]>
                     (<[writeIndex := r]> recs) in
            compact_loop k' (S readIndex) (S writeIndex) recs'
          else compact_loop k' (S readIndex) writeIndex recs
      | None => compact_loop k' (S readIndex) writeIndex recs
      end
  end.

Definition set_records (db : ESP32IMDB) (recs : list IMDBRecord) : ESP32IMDB :=
  mkDB (_columns db) (_columnCount db) recs (_recordCapacity db) (_tableExists db).

Definition compactRecords (db : ESP32IMDB) : ESP32IMDB :=
  let '(writeIndex, recs) := compact_loop (length (_records db)) 0 0 (_records db) in
  set_records db (take writeIndex recs).

(** The loop of [purgeExpiredRecords] (and of [saveToFile]). *)
Fixpoint purge_loop (db : ESP32IMDB) (now : Z) (recs : list IMDBRecord) (h : Heap)
  : list IMDBRecord * Heap :=
  match recs with
  | [] => ([], h)
  | r :: recs' =>
      let '(r1, h1) :=
        if isValid r && isRecordExpired now (expiryMillis r)
        then let '(r', h') := freeRecord db r h in (invalidate r', h')
        else (r, h) in
      let '(rest, h2) := purge_loop db now recs' h1 in
      (r1 :: rest, h2)
  end.

Definition purgeExpiredRecords (db : ESP32IMDB) (h : Heap) (now : Z) : ESP32IMDB * Heap :=
  if negb (_tableExists db) then (db, h)
  else
    let '(recs, h') := purge_loop db now (_records db) h in
    (compactRecords (set_records db recs), h').

Definition growRecordArray (db : ESP32IMDB) (h : Heap) : IMDBResult * ESP32IMDB * Heap :=
  if negb (checkHeapLimit h) then (IMDB_ERROR_HEAP_LIMIT, db, h)
  else if INT_MAX / 2 <? _recordCapacity db then (IMDB_ERROR_OUT_OF_MEMORY, db, h)
  else
    let newCapacity := _recordCapacity db * 2 in
    match realloc (size_t (sizeof_IMDBRecord * _recordCapacity db))
                  (size_t (sizeof_IMDBRecord * newCapacity)) h with
    | (false, h') => (IMDB_ERROR_OUT_OF_MEMORY, db, h')
    | (true, h') =>
        (IMDB_OK,
         mkDB (_columns db) (_columnCount db) (_records db) newCapacity (_tableExists db),
         h')
    end.

(** ** Table operations *)

Definition createTable (columns : option (list IMDBColumn)) (columnCount : Z)
    (db : ESP32IMDB) (h : Heap) : IMDBResult * ESP32IMDB * Heap :=
  if _tableExists db then (IMDB_ERROR_TABLE_EXISTS, db, h)
  else
    match columns with
    | None => (IMDB_ERROR_INVALID_VALUE, db, h)
    | Some cols =>
        if columnCount =? 0 then (IMDB_ERROR_INVALID_VALUE, db, h)
        else if negb (checkHeapLimit h) then (IMDB_ERROR_HEAP_LIMIT, db, h)
        else
          match malloc (size_t (sizeof_IMDBColumn * columnCount)) h with
          | (false, h1) =>
              (IMDB_ERROR_OUT_OF_MEMORY,
               mkDB None (_columnCount db) (_records db) (_recordCapacity db) false, h1)
          | (true, h1) =>
              let copied := take (Z.to_nat columnCount) cols in
              match malloc (size_t (sizeof_IMDBRecord * 10)) h1 with
              | (false, h2) =>
                  (IMDB_ERROR_OUT_OF_MEMORY,
                   mkDB None columnCount (_records db) 10 false,
                   free (size_t (sizeof_IMDBColumn * columnCount)) h2)
              | (true, h2) =>
                  (IMDB_OK, mkDB (Some copied) columnCount [] 10 true, h2)
              end
          end
    end.

(** The loop of [dropTable] over the records. *)
Fixpoint free_records (db : ESP32IMDB) (recs : list IMDBRecord) (h : Heap) : Heap :=
  match recs with
  | [] => h
  | r :: recs' => free_records db recs' (snd (freeRecord db r h))
  end.

Definition dropTable (db : ESP32IMDB) (h : Heap) : IMDBResult * ESP32IMDB * Heap :=
  if negb (_tableExists db) then (IMDB_ERROR_NO_TABLE, db, h)
  else
    let h1 := free_records db (_records db) h in
    let h2 := free (size_t (sizeof_IMDBRecord * _recordCapacity db)) h1 in
    let h3 := free (size_t (sizeof_IMDBColumn * _columnCount db)) h2 in
    (IMDB_OK, mkDB None 0 [] 0 false, h3).

(** ** Data operations *)

(** [memset(record->fields, 0, ...)]: every member of a zeroed union reads
    as zero; the tag follows the column. *)
Definition zero_field (c : IMDBColumn) : IMDBFieldValue :=
  match type c with
  | IMDB_TYPE_INT32 => int32Value 0
  | IMDB_TYPE_MAC => macAddress (mac6 [])
  | IMDB_TYPE_STRING => stringValue None
  | IMDB_TYPE_EPOCH => epochValue 0
  | IMDB_TYPE_BOOL => boolValue false
  | IMDB_TYPE_FLOAT => floatValue 0
  end.

(** The cleanup of [insert] when field [i] cannot be copied: the string
    buffers of the fields before [i] are freed, then the field array. *)
Definition insert_cleanup (db : ESP32IMDB) (i : nat) (fs : list IMDBFieldValue) (h : Heap) : Heap :=
  free (fields_size db) (free_strings (take i (columns_of db)) fs h).

(** The copy loop of [insert], [k] iterations from column [i].  A
    [values] array shorter than the column count is read out of bounds by
    the C code; here its missing entries read as null. *)
Fixpoint insert_loop (db : ESP32IMDB) (values : list (option IMDBFieldValue))
    (k i : nat) (fs : list IMDBFieldValue) (h : Heap)
  : IMDBResult * list IMDBFieldValue * Heap :=
  match k with
  | O => (IMDB_OK, fs, h)
  | S k' =>
      match values !! i, fs !! i with
      | Some (Some v), Some dest =>
          match copyFieldValue dest v (column_type db (Z.of_nat i)) h with
          | (IMDB_OK, f, h') => insert_loop db values k' (S i) (<[i := f]> fs) h'
          | (result, f, h') => (result, <[i := f]> fs, insert_cleanup db i fs h')
          end
      | _, _ => (IMDB_ERROR_INVALID_VALUE, fs, insert_cleanup db i fs h)
      end
  end.

Definition insert (values : option (list (option IMDBFieldValue))) (ttlMillis : Z)
    (db : ESP32IMDB) (h : Heap) (now : Z) : IMDBResult * ESP32IMDB * Heap :=
  if negb (_tableExists db) then (IMDB_ERROR_NO_TABLE, db, h)
  else
    match values with
    | None => (IMDB_ERROR_INVALID_VALUE, db, h)
    | Some vals =>
        if negb (checkHeapLimit h) then (IMDB_ERROR_HEAP_LIMIT, db, h)
        else if IMDB_MAX_TTL_MS <? ttlMillis then (IMDB_ERROR_INVALID_VALUE, db, h)
        else
          let '(grown, db1, h1) :=
            if _recordCapacity db <=? _recordCount db then growRecordArray db h
            else (IMDB_OK, db, h) in
          match grown with
          | IMDB_OK =>
              match malloc (fields_size db1) h1 with
              | (false, h2) => (IMDB_ERROR_OUT_OF_MEMORY, db1, h2)
              | (true, h2) =>
                  let zeroed := map zero_field (columns_of db1) in
                  match insert_loop db1 vals (Z.to_nat (_columnCount db1)) 0 zeroed h2 with
                  | (IMDB_OK, fs, h3) =>
                      let expiry :=
                        if 0 <? ttlMillis then to_uint32 (now + ttlMillis) else 0 in
                      (IMDB_OK,
                       set_records db1 (_records db1 ++ [mkRecord (Some fs) expiry true]),
                       h3)
                  | (result, _, h3) => (result, db1, h3)
                  end
              end
          | result => (result, db1, h1)
          end
    end.

Definition list_eqb (a b : list Z) : bool := bool_decide (a = b).

(** [compareValues].  Comparing a string field with a null [char*] makes
    the C code call [strcmp] on a null pointer; the embedding answers
    [false] there. *)
Definition compareValues (fieldValue compareValue : option IMDBFieldValue)
    (t : IMDBDataType) (op : IMDBOperator) : bool :=
  match fieldValue, compareValue with
  | Some field, Some cmp =>
      match t with
      | IMDB_TYPE_INT32 =>
          let a := get_int32 field in
          let b := get_int32 cmp in
          match op with
          | IMDB_OP_EQUAL => a =? b
          | IMDB_OP_NOT_EQUAL => negb (a =? b)
          | IMDB_OP_GREATER => b <? a
          | IMDB_OP_LESS => a <? b
          | IMDB_OP_GREATER_EQUAL => b <=? a
          | IMDB_OP_LESS_EQUAL => a <=? b
          end
      | IMDB_TYPE_MAC => list_eqb (get_mac field) (get_mac cmp)
      | IMDB_TYPE_STRING =>
          match get_string field, get_string cmp with
          | Some a, Some b => strcmp_eq a b
          | _, _ => false
          end
      | IMDB_TYPE_EPOCH =>
          let a := get_epoch field in
          let b := get_epoch cmp in
          match op with
          | IMDB_OP_EQUAL => a =? b
          | IMDB_OP_NOT_EQUAL => negb (a =? b)
          | IMDB_OP_GREATER => b <? a
          | IMDB_OP_LESS => a <? b
          | IMDB_OP_GREATER_EQUAL => b <=? a
          | IMDB_OP_LESS_EQUAL => a <=? b
          end
      | IMDB_TYPE_BOOL => Bool.eqb (get_bool field) (get_bool cmp)
      | IMDB_TYPE_FLOAT =>
          let a := get_float field in
          let b := get_float cmp in
          match op with
          | IMDB_OP_EQUAL => Float32.eqb a b
          | IMDB_OP_NOT_EQUAL => negb (Float32.eqb a b)
          | IMDB_OP_GREATER => Float32.ltb b a
          | IMDB_OP_LESS => Float32.ltb a b
          | IMDB_OP_GREATER_EQUAL => Float32.leb b a
          | IMDB_OP_LESS_EQUAL => Float32.leb a b
          end
      end
  | _, _ => false
  end.

(** The test every scan but the one of [deleteRecords] starts with. *)
Definition live (now : Z) (r : IMDBRecord) : bool :=
  isValid r && negb (isRecordExpired now (expiryMillis r)).

(** The where clause of the scans: [compareValues] with its default
    operator. *)
Definition matches (db : ESP32IMDB) (whereIdx : Z) (whereValue : IMDBFieldValue)
    (r : IMDBRecord) : bool :=
  compareValues (field_at r whereIdx) (Some whereValue) (column_type db whereIdx) IMDB_OP_EQUAL.

(** The loop of [update]: the error that ended it, if any, the records as
    the loop left them, the heap, and [updated]. *)
Fixpoint update_loop (db : ESP32IMDB) (now whereIdx : Z) (whereValue : IMDBFieldValue)
    (setIdx : Z) (setValue : IMDBFieldValue) (recs : list IMDBRecord) (h : Heap)
    (updated : bool) : option IMDBResult * list IMDBRecord * Heap * bool :=
  match recs with
  | [] => (None, [], h, updated)
  | r :: recs' =>
      if negb (isValid r) || isRecordExpired now (expiryMillis r) then
        let '(e, rest, h', u) :=
          update_loop db now whereIdx whereValue setIdx setValue recs' h updated in
        (e, r :: rest, h', u)
      else if matches db whereIdx whereValue r then
        let old := field_or_zero r setIdx in
        let '(cleared, h1) :=
          match column_type db setIdx, get_string old with
          | IMDB_TYPE_STRING, Some s => (stringValue None, free (string_size s) h)
          | _, _ => (old, h)
          end in
        match copyFieldValue cleared setValue (column_type db setIdx) h1 with
        | (IMDB_OK, f, h2) =>
            let '(e, rest, h', u) :=
              update_loop db now whereIdx whereValue setIdx setValue recs' h2 true in
            (e, set_field r setIdx f :: rest, h', u)
        | (result, f, h2) => (Some result, set_field r setIdx f :: recs', h2, updated)
        end
      else
        let '(e, rest, h', u) :=
          update_loop db now whereIdx whereValue setIdx setValue recs' h updated in
        (e, r :: rest, h', u)
  end.

Definition update (whereColumn : option string) (whereValue : option IMDBFieldValue)
    (setColumn : option string) (setValue : option IMDBFieldValue)
    (db : ESP32IMDB) (h : Heap) (now : Z) : IMDBResult * ESP32IMDB * Heap :=
  if negb (_tableExists db) then (IMDB_ERROR_NO_TABLE, db, h)
  else
    match whereColumn, whereValue, setColumn, setValue with
    | Some whereColumn, Some whereValue, Some setColumn, Some setValue =>
        let whereIdx := findColumnIndex db whereColumn in
        let setIdx := findColumnIndex db setColumn in
        if (whereIdx <? 0) || (setIdx <? 0) then (IMDB_ERROR_COLUMN_NOT_FOUND, db, h)
        else
          match update_loop db now whereIdx whereValue setIdx setValue (_records db) h false with
          | (Some result, recs, h', _) => (result, set_records db recs, h')
          | (None, recs, h', updated) =>
              (if updated then IMDB_OK else IMDB_ERROR_NO_RECORDS, set_records db recs, h')
          end
    | _, _, _, _ => (IMDB_ERROR_INVALID_VALUE, db, h)
    end.

(** [floatModulo], on the bits of the floats. *)
Definition floatModulo (x y : Z) : Z :=
  if Float32.eqb y Float32.zero then Float32.zero
  else Float32.sub x (Float32.mul (Float32.of_int (Float32.to_int (Float32.div x y))) y).

(** The body of the loop of [updateWithMath] for one matching record: the
    new value of the field, or the error the call returns. *)
Definition apply_math (t : IMDBDataType) (old : IMDBFieldValue) (operation : IMDBMathOp)
    (operand : Z) : IMDBResult + IMDBFieldValue :=
  match t with
  | IMDB_TYPE_FLOAT =>
      let value := get_float old in
      let floatOperand := Float32.of_int operand in
      match operation with
      | IMDB_MATH_ADD => inr (floatValue (Float32.add value floatOperand))
      | IMDB_MATH_SUBTRACT => inr (floatValue (Float32.sub value floatOperand))
      | IMDB_MATH_MULTIPLY => inr (floatValue (Float32.mul value floatOperand))
      | IMDB_MATH_DIVIDE =>
          if operand =? 0 then inl IMDB_ERROR_INVALID_OPERATION
          else inr (floatValue (Float32.div value floatOperand))
      | IMDB_MATH_MODULO =>
          if operand =? 0 then inl IMDB_ERROR_INVALID_OPERATION
          else inr (floatValue (floatModulo value floatOperand))
      end
  | _ =>
      let value := get_int32 old in
      let store (v : Z) : IMDBFieldValue :=
        match t with
        | IMDB_TYPE_INT32 => int32Value v
        | _ => epochValue (to_uint32 v)
        end in
      match operation with
      | IMDB_MATH_ADD => inr (store (to_int32 (value + operand)))
      | IMDB_MATH_SUBTRACT => inr (store (to_int32 (value - operand)))
      | IMDB_MATH_MULTIPLY => inr (store (to_int32 (value * operand)))
      | IMDB_MATH_DIVIDE =>
          if operand =? 0 then inl IMDB_ERROR_INVALID_OPERATION
          else inr (store (sdiv32 value operand))
      | IMDB_MATH_MODULO =>
          if operand =? 0 then inl IMDB_ERROR_INVALID_OPERATION
          else inr (store (srem32 value operand))
      end
  end.

Fixpoint math_loop (db : ESP32IMDB) (now whereIdx : Z) (whereValue : IMDBFieldValue)
    (setIdx : Z) (operation : IMDBMathOp) (operand : Z) (recs : list IMDBRecord)
    (updated : bool) : option IMDBResult * list IMDBRecord * bool :=
  match recs with
  | [] => (None, [], updated)
  | r :: recs' =>
      if negb (isValid r) || isRecordExpired now (expiryMillis r) then
        let '(e, rest, u) :=
          math_loop db now whereIdx whereValue setIdx operation operand recs' updated in
        (e, r :: rest, u)
      else if matches db whereIdx whereValue r then
        match apply_math (column_type db setIdx) (field_or_zero r setIdx) operation operand with
        | inl result => (Some result, r :: recs', updated)
        | inr f =>
            let '(e, rest, u) :=
              math_loop db now whereIdx whereValue setIdx operation operand recs' true in
            (e, set_field r setIdx f :: rest, u)
        end
      else
        let '(e, rest, u) :=
          math_loop db now whereIdx whereValue setIdx operation operand recs' updated in
        (e, r :: rest, u)
  end.

Definition numeric (t : IMDBDataType) : bool :=
  match t with
  | IMDB_TYPE_INT32 | IMDB_TYPE_EPOCH | IMDB_TYPE_FLOAT => true
  | _ => false
  end.

Definition updateWithMath (whereColumn : option string) (whereValue : option IMDBFieldValue)
    (setColumn : option string) (operation : IMDBMathOp) (operand : Z)
    (db : ESP32IMDB) (now : Z) : IMDBResult * ESP32IMDB :=
  if negb (_tableExists db) then (IMDB_ERROR_NO_TABLE, db)
  else
    match whereColumn, whereValue, setColumn with
    | Some whereColumn, Some whereValue, Some setColumn =>
        let whereIdx := findColumnIndex db whereColumn in
        let setIdx := findColumnIndex db setColumn in
        if (whereIdx <? 0) || (setIdx <? 0) then (IMDB_ERROR_COLUMN_NOT_FOUND, db)
        else if negb (numeric (column_type db setIdx)) then (IMDB_ERROR_INVALID_TYPE, db)
        else
          match math_loop db now whereIdx whereValue setIdx operation operand (_records db) false with
          | (Some result, recs, _) => (result, set_records db recs)
          | (None, recs, updated) =>
              (if updated then IMDB_OK else IMDB_ERROR_NO_RECORDS, set_records db recs)
          end
    | _, _, _ => (IMDB_ERROR_INVALID_VALUE, db)
    end.

(** The loop of [deleteRecords]. *)
Fixpoint delete_loop (db : ESP32IMDB) (whereIdx : Z) (whereValue : IMDBFieldValue)
    (recs : list IMDBRecord) (h : Heap) (deleted : bool)
  : list IMDBRecord * Heap * bool :=
  match recs with
  | [] => ([], h, deleted)
  | r :: recs' =>
      if negb (isValid r) then
        let '(rest, h', d) := delete_loop db whereIdx whereValue recs' h deleted in
        (r :: rest, h', d)
      else if matches db whereIdx whereValue r then
        let '(r', h1) := freeRecord db r h in
        let '(rest, h', d) := delete_loop db whereIdx whereValue recs' h1 true in
        (invalidate r' :: rest, h', d)
      else
        let '(rest, h', d) := delete_loop db whereIdx whereValue recs' h deleted in
        (r :: rest, h', d)
  end.

Definition deleteRecords (whereColumn : option string) (whereValue : option IMDBFieldValue)
    (db : ESP32IMDB) (h : Heap) : IMDBResult * ESP32IMDB * Heap :=
  if negb (_tableExists db) then (IMDB_ERROR_NO_TABLE, db, h)
  else
    match whereColumn, whereValue with
    | Some whereColumn, Some whereValue =>
        let whereIdx := findColumnIndex db whereColumn in
        if whereIdx <? 0 then (IMDB_ERROR_COLUMN_NOT_FOUND, db, h)
        else
          let '(recs, h', deleted) := delete_loop db whereIdx whereValue (_records db) h false in
          let db1 := set_records db recs in
          if deleted then (IMDB_OK, compactRecords db1, h')
          else (IMDB_ERROR_NO_RECORDS, db1, h')
    | _, _ => (IMDB_ERROR_INVALID_VALUE, db, h)
    end.

(** ** Query operations *)

(** An [IMDBSelectResult] in memory that [malloc] just returned.  Its
    content is indeterminate in C; [getFieldValue] sets [type], [hasValue]
    and the one member of the field's type. *)
Definition fresh_result : IMDBSelectResult :=
  mkSelectResult 0 (mac6 []) EmptyString 0 false 0 IMDB_TYPE_INT32 false.

Definition set_hasValue (b : bool) (res : IMDBSelectResult) : IMDBSelectResult :=
  mkSelectResult (int32Value_r res) (macAddress_r res) (stringValue_r res) (epochValue_r res)
                 (boolValue_r res) (floatValue_r res) (type_r res) b.

(** [getFieldValue]: [*result] after the call.  A record without a field
    array is never passed (valid records have one); [result] is then left
    as it is. *)
Definition getFieldValue (field : option IMDBFieldValue) (t : IMDBDataType)
    (result : IMDBSelectResult) : IMDBSelectResult :=
  match field with
  | None => result
  | Some field =>
      let i := int32Value_r result in
      let m := macAddress_r result in
      let s := stringValue_r result in
      let e := epochValue_r result in
      let b := boolValue_r result in
      let f := floatValue_r result in
      match t with
      | IMDB_TYPE_INT32 => mkSelectResult (get_int32 field) m s e b f t true
      | IMDB_TYPE_MAC => mkSelectResult i (get_mac field) s e b f t true
      | IMDB_TYPE_STRING =>
          match get_string field with
          | Some str => mkSelectResult i m (strncpy str (Z.min (strlen str) IMDB_MAX_STRING_LENGTH)) e b f t true
          | None => mkSelectResult i m EmptyString e b f t true
          end
      | IMDB_TYPE_EPOCH => mkSelectResult i m s (get_epoch field) b f t true
      | IMDB_TYPE_BOOL => mkSelectResult i m s e (get_bool field) f t true
      | IMDB_TYPE_FLOAT => mkSelectResult i m s e b (get_float field) t true
      end
  end.

(** The loop of [select]: the first live record that matches. *)
Fixpoint select_loop (db : ESP32IMDB) (now colIdx whereIdx : Z) (whereValue : IMDBFieldValue)
    (recs : list IMDBRecord) (result : IMDBSelectResult) : IMDBResult * IMDBSelectResult :=
  match recs with
  | [] => (IMDB_ERROR_NO_RECORDS, result)
  | r :: recs' =>
      if negb (isValid r) || isRecordExpired now (expiryMillis r) then
        select_loop db now colIdx whereIdx whereValue recs' result
      else if matches db whereIdx whereValue r then
        (IMDB_OK, getFieldValue (field_at r colIdx) (column_type db colIdx) result)
      else select_loop db now colIdx whereIdx whereValue recs' result
  end.

(** [select]; [result = None] is a null [result] pointer, and the second
    component is [*result] after the call. *)
Definition select (column whereColumn : option string) (whereValue : option IMDBFieldValue)
    (result : option IMDBSelectResult) (db : ESP32IMDB) (now : Z)
  : IMDBResult * option IMDBSelectResult :=
  if negb (_tableExists db) then (IMDB_ERROR_NO_TABLE, result)
  else
    match column, whereColumn, whereValue, result with
    | Some column, Some whereColumn, Some whereValue, Some res =>
        let colIdx := findColumnIndex db column in
        let whereIdx := findColumnIndex db whereColumn in
        if (colIdx <? 0) || (whereIdx <? 0) then (IMDB_ERROR_COLUMN_NOT_FOUND, result)
        else
          let '(code, res') :=
            select_loop db now colIdx whereIdx whereValue (_records db) (set_hasValue false res) in
          (code, Some res')
    | _, _, _, _ => (IMDB_ERROR_INVALID_VALUE, result)
    end.

(** The inner loop of [selectAll] and [top]: the cells of one row. *)
Definition row_of (db : ESP32IMDB) (r : IMDBRecord) : list IMDBSelectResult :=
  map (fun col => getFieldValue (field_at r (Z.of_nat col)) (column_type db (Z.of_nat col)) fresh_result)
      (seq 0 (Z.to_nat (_columnCount db))).

(** An output parameter of pointer type, of which only the null test is
    of interest. *)
Inductive out_ptr := null_ptr | valid_ptr.

Definition is_null (p : out_ptr) : bool :=
  match p with null_ptr => true | valid_ptr => false end.

(** What [selectAll] and [top] leave in [*results] and [*resultCount]:
    the array as the list of the cells written, row after row from its
    start, [None] for a null pointer; [unwritten] when the call did not
    store to the parameter. *)
Inductive written (A : Type) := unwritten | stored (a : A).
Arguments unwritten {A}.
Arguments stored {A} a.

Record result_set := mkResultSet {
  results : written (option (list IMDBSelectResult));
  resultCount : written Z
}.

(** The counting loops. *)
Fixpoint count_matches (db : ESP32IMDB) (now whereIdx : Z) (whereValue : IMDBFieldValue)
    (recs : list IMDBRecord) (cnt : Z) : Z :=
  match recs with
  | [] => cnt
  | r :: recs' =>
      count_matches db now whereIdx whereValue recs'
        (if isValid r && negb (isRecordExpired now (expiryMillis r))
            && matches db whereIdx whereValue r
         then cnt + 1 else cnt)
  end.

Fixpoint count_live (now : Z) (recs : list IMDBRecord) (cnt : Z) : Z :=
  match recs with
  | [] => cnt
  | r :: recs' =>
      count_live now recs'
        (if isValid r && negb (isRecordExpired now (expiryMillis r)) then cnt + 1 else cnt)
  end.

(** The clock as [selectAll] and [top] see it.  Both scan the records
    twice, and every call of [isRecordExpired] reads [millis()] anew, so the
    second pass can find a record expired that the first pass counted.
    [millis k] is what the [k]-th reading of the clock during the operation
    returns.  [live_at] is the test [isValid && !isRecordExpired(...)]: the
    clock is read only for a valid record with an expiry; the answer, and
    the number of readings so far. *)
Definition live_at (millis : nat -> Z) (k : nat) (r : IMDBRecord) : bool * nat :=
  if isValid r then
    if expiryMillis r =? 0 then (true, k)
    else (negb (isRecordExpired (millis k) (expiryMillis r)), S k)
  else (false, k).

(** The first loop of [selectAll]: [matches], and the readings so far. *)
Fixpoint selectAll_count (db : ESP32IMDB) (millis : nat -> Z) (whereIdx : Z)
    (whereValue : IMDBFieldValue) (recs : list IMDBRecord) (k : nat) (cnt : Z) : Z * nat :=
  match recs with
  | [] => (cnt, k)
  | r :: recs' =>
      let '(alive, k') := live_at millis k r in
      selectAll_count db millis whereIdx whereValue recs' k'
        (if alive && matches db whereIdx whereValue r then cnt + 1 else cnt)
  end.

(** The second loop of [selectAll]: the cells it writes, in the order of the
    array.  Nothing bounds [resultIdx]: a row beyond the [matches] rows
    allocated is written past the end of the array. *)
Fixpoint selectAll_fill (db : ESP32IMDB) (millis : nat -> Z) (whereIdx : Z)
    (whereValue : IMDBFieldValue) (recs : list IMDBRecord) (k : nat)
    (cells : list IMDBSelectResult) : list IMDBSelectResult :=
  match recs with
  | [] => cells
  | r :: recs' =>
      let '(alive, k') := live_at millis k r in
      selectAll_fill db millis whereIdx whereValue recs' k'
        (if alive && matches db whereIdx whereValue r then cells ++ row_of db r else cells)
  end.

(** [selectAll]; the cells of [results] are the ones the second loop
    wrote, which are fewer than [resultCount] rows when it found fewer
    records than the first. *)
Definition selectAll (whereColumn : option string) (whereValue : option IMDBFieldValue)
    (results_p resultCount_p : out_ptr) (db : ESP32IMDB) (h : Heap) (millis : nat -> Z)
  : IMDBResult * result_set * Heap :=
  if negb (_tableExists db) then (IMDB_ERROR_NO_TABLE, mkResultSet unwritten unwritten, h)
  else
    match whereColumn, whereValue with
    | Some whereColumn, Some whereValue =>
        if is_null results_p || is_null resultCount_p
        then (IMDB_ERROR_INVALID_VALUE, mkResultSet unwritten unwritten, h)
        else
          let whereIdx := findColumnIndex db whereColumn in
          if whereIdx <? 0 then (IMDB_ERROR_COLUMN_NOT_FOUND, mkResultSet unwritten unwritten, h)
          else
            let '(matchCount, k) :=
              selectAll_count db millis whereIdx whereValue (_records db) 0 0 in
            if matchCount =? 0
            then (IMDB_ERROR_NO_RECORDS, mkResultSet (stored None) (stored 0), h)
            else
              match malloc (size_t (sizeof_IMDBSelectResult * matchCount * _columnCount db)) h with
              | (false, h') =>
                  (IMDB_ERROR_OUT_OF_MEMORY, mkResultSet (stored None) unwritten, h')
              | (true, h') =>
                  (IMDB_OK,
                   mkResultSet
                     (stored (Some (selectAll_fill db millis whereIdx whereValue
                                                   (_records db) k [])))
                     (stored matchCount),
                   h')
              end
    | _, _ => (IMDB_ERROR_INVALID_VALUE, mkResultSet unwritten unwritten, h)
    end.

(** ** Aggregate functions *)

Definition count (db : ESP32IMDB) (now : Z) : Z :=
  if negb (_tableExists db) then 0
  else count_live now (_records db) 0.

Definition countWhere (whereColumn : option string) (whereValue : option IMDBFieldValue)
    (db : ESP32IMDB) (now : Z) : Z :=
  if negb (_tableExists db) then 0
  else
    match whereColumn, whereValue with
    | Some whereColumn, Some whereValue =>
        let whereIdx := findColumnIndex db whereColumn in
        if whereIdx <? 0 then 0
        else count_matches db now whereIdx whereValue (_records db) 0
    | _, _ => 0
    end.

(** The state the loops of [min] and [max] carry: [result->hasValue], the
    integer extremum and the float extremum. *)
Record extremum := mkExtremum {
  ext_hasValue : bool;
  ext_int : Z;
  ext_float : Z
}.

Fixpoint min_loop (t : IMDBDataType) (now colIdx : Z) (recs : list IMDBRecord)
    (st : extremum) : extremum :=
  match recs with
  | [] => st
  | r :: recs' =>
      if negb (isValid r) || isRecordExpired now (expiryMillis r) then
        min_loop t now colIdx recs' st
      else
        let st' :=
          match t with
          | IMDB_TYPE_FLOAT =>
              let val := get_float (field_or_zero r colIdx) in
              if negb (ext_hasValue st) || Float32.ltb val (ext_float st)
              then mkExtremum true (ext_int st) val else st
          | _ =>
              let val := get_int32 (field_or_zero r colIdx) in
              if negb (ext_hasValue st) || (val <? ext_int st)
              then mkExtremum true val (ext_float st) else st
          end in
        min_loop t now colIdx recs' st'
  end.

Fixpoint max_loop (t : IMDBDataType) (now colIdx : Z) (recs : list IMDBRecord)
    (st : extremum) : extremum :=
  match recs with
  | [] => st
  | r :: recs' =>
      if negb (isValid r) || isRecordExpired now (expiryMillis r) then
        max_loop t now colIdx recs' st
      else
        let st' :=
          match t with
          | IMDB_TYPE_FLOAT =>
              let val := get_float (field_or_zero r colIdx) in
              if negb (ext_hasValue st) || Float32.ltb (ext_float st) val
              then mkExtremum true (ext_int st) val else st
          | _ =>
              let val := get_int32 (field_or_zero r colIdx) in
              if negb (ext_hasValue st) || (ext_int st <? val)
              then mkExtremum true val (ext_float st) else st
          end in
        max_loop t now colIdx recs' st'
  end.

(** The end of [min] and [max]: the extremum stored in [*result]. *)
Definition store_extremum (t : IMDBDataType) (st : extremum) (res : IMDBSelectResult)
  : IMDBSelectResult :=
  let i := int32Value_r res in
  let m := macAddress_r res in
  let s := stringValue_r res in
  let e := epochValue_r res in
  let b := boolValue_r res in
  let f := floatValue_r res in
  match t with
  | IMDB_TYPE_INT32 => mkSelectResult (ext_int st) m s e b f t true
  | IMDB_TYPE_EPOCH => mkSelectResult i m s (to_uint32 (ext_int st)) b f t true
  | _ => mkSelectResult i m s e b (ext_float st) t true
  end.

Definition aggregate (loop : IMDBDataType -> Z -> Z -> list IMDBRecord -> extremum -> extremum)
    (init : extremum) (column : option string) (result : option IMDBSelectResult)
    (db : ESP32IMDB) (now : Z) : IMDBResult * option IMDBSelectResult :=
  if negb (_tableExists db) then (IMDB_ERROR_NO_TABLE, result)
  else
    match column, result with
    | Some column, Some res =>
        let colIdx := findColumnIndex db column in
        if colIdx <? 0 then (IMDB_ERROR_COLUMN_NOT_FOUND, result)
        else
          let t := column_type db colIdx in
          if negb (numeric t) then (IMDB_ERROR_INVALID_TYPE, result)
          else
            let st := loop t now colIdx (_records db) init in
            if negb (ext_hasValue st)
            then (IMDB_ERROR_NO_RECORDS, Some (set_hasValue false res))
            else (IMDB_OK, Some (store_extremum t st res))
    | _, _ => (IMDB_ERROR_INVALID_VALUE, result)
    end.

Definition min (column : option string) (result : option IMDBSelectResult)
    (db : ESP32IMDB) (now : Z) : IMDBResult * option IMDBSelectResult :=
  aggregate min_loop (mkExtremum false 2147483647 Float32.FLT_MAX) column result db now.

Definition max (column : option string) (result : option IMDBSelectResult)
    (db : ESP32IMDB) (now : Z) : IMDBResult * option IMDBSelectResult :=
  aggregate max_loop (mkExtremum false (to_int32 2147483648) Float32.neg_FLT_MAX)
            column result db now.

(** The first loop of [top]: [validCount], and the readings of the clock
    so far. *)
Fixpoint top_count (millis : nat -> Z) (recs : list IMDBRecord) (k : nat) (cnt : Z) : Z * nat :=
  match recs with
  | [] => (cnt, k)
  | r :: recs' =>
      let '(alive, k') := live_at millis k r in
      top_count millis recs' k' (if alive then cnt + 1 else cnt)
  end.

(** The second loop of [top]: it stops at [returnCount] rows. *)
Fixpoint top_fill (db : ESP32IMDB) (millis : nat -> Z) (returnCount : Z)
    (recs : list IMDBRecord) (k : nat) (resultIdx : Z) (cells : list IMDBSelectResult)
  : list IMDBSelectResult :=
  match recs with
  | [] => cells
  | r :: recs' =>
      if resultIdx <? returnCount then
        let '(alive, k') := live_at millis k r in
        if alive
        then top_fill db millis returnCount recs' k' (resultIdx + 1) (cells ++ row_of db r)
        else top_fill db millis returnCount recs' k' resultIdx cells
      else cells
  end.

(** [top]; the cells of [results] are the ones the second loop wrote, which
    are fewer than [resultCount] rows when it found fewer live records than
    the first. *)
Definition top (n : Z) (results_p resultCount_p : out_ptr)
    (db : ESP32IMDB) (h : Heap) (millis : nat -> Z) : IMDBResult * result_set * Heap :=
  if negb (_tableExists db) then (IMDB_ERROR_NO_TABLE, mkResultSet unwritten unwritten, h)
  else if is_null results_p || is_null resultCount_p
  then (IMDB_ERROR_INVALID_VALUE, mkResultSet unwritten unwritten, h)
  else
    let '(validCount, k) := top_count millis (_records db) 0 0 in
    if validCount =? 0
    then (IMDB_ERROR_NO_RECORDS, mkResultSet (stored None) (stored 0), h)
    else
      let returnCount := if n <? validCount then n else validCount in
      match malloc (size_t (sizeof_IMDBSelectResult * returnCount * _columnCount db)) h with
      | (false, h') => (IMDB_ERROR_OUT_OF_MEMORY, mkResultSet (stored None) unwritten, h')
      | (true, h') =>
          (IMDB_OK,
           mkResultSet (stored (Some (top_fill db millis returnCount (_records db) k 0 [])))
                       (stored returnCount),
           h')
      end.

(** ** Persistence

    The file system is a finite map from file names to contents, a list of
    bytes, with [space] bytes left.  A [write] of [n] bytes succeeds when
    [n] bytes are left.  Opening a file for writing truncates it, and a
    rename replaces the target; either can be refused, as [malloc] can: the
    next entry of [refusals] says whether the next [open(.., "w")] or
    [rename] fails.  Opening for reading fails on a missing file. *)

Record SPIFFS := mkFS {
  files : gmap string (list Z);
  space : Z;
  refusals : list bool
}.

Definition fs_exists (fs : SPIFFS) (path : string) : bool :=
  bool_decide (is_Some (files fs !! path)).

Definition fs_remove (fs : SPIFFS) (path : string) : SPIFFS :=
  match files fs !! path with
  | Some content =>
      mkFS (delete path (files fs)) (space fs + Z.of_nat (length content)) (refusals fs)
  | None => fs
  end.

(** Whether the next request is refused, and the file system once it has
    answered. *)
Definition refused (fs : SPIFFS) : bool :=
  match refusals fs with f :: _ => f | [] => false end.

Definition answered (fs : SPIFFS) : SPIFFS :=
  mkFS (files fs) (space fs) (tail (refusals fs)).

(** [SPIFFS.open(path, "w")]: whether the file was opened. *)
Definition fs_open_w (fs : SPIFFS) (path : string) : bool * SPIFFS :=
  if refused fs then (false, answered fs)
  else
    let fs' := fs_remove (answered fs) path in
    (true, mkFS (<[path := []]> (files fs')) (space fs') (refusals fs')).

(** [file.write(buf, n) == n] on the file at [path]. *)
Definition fs_write (path : string) (data : list Z) (fs : SPIFFS) : option SPIFFS :=
  if Z.of_nat (length data) <=? space fs
  then Some (mkFS (<[path := default [] (files fs !! path) ++ data]> (files fs))
                  (space fs - Z.of_nat (length data)) (refusals fs))
  else None.

(** [SPIFFS.rename(from, to)]: whether the file was renamed. *)
Definition fs_rename (fs : SPIFFS) (from to : string) : bool * SPIFFS :=
  match files fs !! from with
  | Some content =>
      if refused fs then (false, answered fs)
      else (true, mkFS (<[to := content]> (delete from (files fs))) (space fs)
                       (tail (refusals fs)))
  | None => (false, answered fs)
  end.

(** The writes of a list of buffers, in order, up to the first that fails. *)
Fixpoint fs_write_all (path : string) (chunks : list (list Z)) (fs : SPIFFS) : option SPIFFS :=
  match chunks with
  | [] => Some fs
  | c :: chunks' =>
      match fs_write path c fs with
      | Some fs' => fs_write_all path chunks' fs'
      | None => None
      end
  end.

(** The [n] bytes of an integer object, little-endian. *)
Fixpoint le_bytes (n : nat) (v : Z) : list Z :=
  match n with
  | O => []
  | S n' => v mod 256 :: le_bytes n' (v / 256)
  end.

Fixpoint le_value (bs : list Z) : Z :=
  match bs with
  | [] => 0
  | b :: bs' => b + 256 * le_value bs'
  end.

Definition bytes_of_string (s : string) : list Z :=
  map (fun c => Z.of_N (N_of_ascii c)) (list_ascii_of_string s).

Definition string_of_bytes (bs : list Z) : string :=
  string_of_list_ascii (map (fun b => ascii_of_N (Z.to_N b)) bs).

Definition type_byte (t : IMDBDataType) : Z :=
  match t with
  | IMDB_TYPE_INT32 => 0
  | IMDB_TYPE_MAC => 1
  | IMDB_TYPE_STRING => 2
  | IMDB_TYPE_EPOCH => 3
  | IMDB_TYPE_BOOL => 4
  | IMDB_TYPE_FLOAT => 5
  end.

Definition type_of_byte (b : Z) : option IMDBDataType :=
  if b =? 0 then Some IMDB_TYPE_INT32
  else if b =? 1 then Some IMDB_TYPE_MAC
  else if b =? 2 then Some IMDB_TYPE_STRING
  else if b =? 3 then Some IMDB_TYPE_EPOCH
  else if b =? 4 then Some IMDB_TYPE_BOOL
  else if b =? 5 then Some IMDB_TYPE_FLOAT
  else None.

(** The 32 bytes of [IMDBColumn::name]. *)
Definition name_bytes (c : IMDBColumn) : list Z :=
  take 32 (bytes_of_string (name c) ++ replicate 32 0).

(** The writes [saveToFile] makes for one field. *)
Definition field_chunks (t : IMDBDataType) (field : IMDBFieldValue) : list (list Z) :=
  match t with
  | IMDB_TYPE_INT32 => [le_bytes 4 (to_uint32 (get_int32 field))]
  | IMDB_TYPE_FLOAT => [le_bytes 4 (get_float field)]
  | IMDB_TYPE_BOOL => [[if get_bool field then 1 else 0]]
  | IMDB_TYPE_MAC => [get_mac field]
  | IMDB_TYPE_EPOCH => [le_bytes 4 (get_epoch field)]
  | IMDB_TYPE_STRING =>
      let len :=
        match get_string field with
        | Some str =>
            let strLen := strlen str in
            if IMDB_MAX_STRING_LENGTH <? strLen then IMDB_MAX_STRING_LENGTH else to_uint8 strLen
        | None => 0
        end in
      [len] ::
      (if 0 <? len
       then [take (Z.to_nat len) (bytes_of_string (default EmptyString (get_string field)))]
       else [])
  end.

Definition record_chunks (db : ESP32IMDB) (record : IMDBRecord) : list (list Z) :=
  [if isValid record then 1 else 0] ::
  le_bytes 4 (expiryMillis record) ::
  concat (map (fun j => field_chunks (column_type db (Z.of_nat j))
                                     (field_or_zero record (Z.of_nat j)))
              (seq 0 (Z.to_nat (_columnCount db)))).

Definition magic : list Z := [73; 77; 68; 66].

(** All the writes of [saveToFile], in the order the code makes them. *)
Definition file_chunks (db : ESP32IMDB) (saveMillis : Z) : list (list Z) :=
  [magic; [1]; [_columnCount db]; le_bytes 2 (to_uint16 (_recordCount db)); le_bytes 4 saveMillis]
  ++ concat (map (fun c => [name_bytes c; [type_byte (type c)]]) (columns_of db))
  ++ concat (map (record_chunks db) (_records db)).

(** [snprintf(tempFilename, 256, "%s.tmp", filename)]. *)
Definition tempFilename (filename : string) : string :=
  String.substring 0 255 (c_str filename +:+ ".tmp").

Definition saveToFile (filename : option string) (db : ESP32IMDB) (h : Heap)
    (fs : SPIFFS) (now : Z) : IMDBResult * ESP32IMDB * Heap * SPIFFS :=
  if negb (_tableExists db) then (IMDB_ERROR_NO_TABLE, db, h, fs)
  else
    match filename with
    | None => (IMDB_ERROR_INVALID_VALUE, db, h, fs)
    | Some filename =>
        let '(recs, h1) := purge_loop db now (_records db) h in
        let db1 := compactRecords (set_records db recs) in
        if 65535 <? _recordCount db1 then (IMDB_ERROR_INVALID_OPERATION, db1, h1, fs)
        else
          let temp := tempFilename filename in
          match fs_open_w fs temp with
          | (false, fs1) => (IMDB_ERROR_FILE_OPEN, db1, h1, fs1)
          | (true, fs1) =>
              match fs_write_all temp (file_chunks db1 now) fs1 with
              | None => (IMDB_ERROR_FILE_WRITE, db1, h1, fs_remove fs1 temp)
              | Some fs2 =>
                  let fs3 :=
                    if fs_exists fs2 (c_str filename) then fs_remove fs2 (c_str filename)
                    else fs2 in
                  match fs_rename fs3 temp (c_str filename) with
                  | (false, fs4) => (IMDB_ERROR_FILE_WRITE, db1, h1, fs_remove fs4 temp)
                  | (true, fs4) => (IMDB_OK, db1, h1, fs4)
                  end
              end
          end
    end.

(** [file.read(buf, n) == n]: the bytes read and the rest of the file. *)
Definition file_read (n : Z) (data : list Z) : option (list Z * list Z) :=
  if n <=? Z.of_nat (length data)
  then Some (take (Z.to_nat n) data, drop (Z.to_nat n) data)
  else None.

(** The schema loop of [loadFromFile]: [None] at a failed read.  A type
    byte above 5 names no [IMDBDataType]; the C code goes on with such a
    column, which this embedding cannot hold, and [Some None] is the answer
    for a file with one. *)
Fixpoint read_schema (k : nat) (data : list Z)
  : option (option (list IMDBColumn * list Z)) :=
  match k with
  | O => Some (Some ([], data))
  | S k' =>
      match file_read 32 data with
      | None => None
      | Some (nameBytes, data1) =>
          match file_read 1 data1 with
          | None => None
          | Some (typeValue, data2) =>
              match type_of_byte (le_value typeValue), read_schema k' data2 with
              | _, None => None
              | Some t, Some (Some (cols, rest)) =>
                  Some (Some (mkColumn (string_of_bytes nameBytes) t :: cols, rest))
              | _, Some _ => Some None
              end
          end
      end
  end.

(** The field loop of [loadFromFile] for one record.  On a read error
    ([inl]) it gives the fields read so far, whose strings the cleanup
    frees. *)
Fixpoint read_fields (cols : list IMDBColumn) (data : list Z) (h : Heap)
  : (list IMDBFieldValue * Heap) + (list IMDBFieldValue * list Z * Heap) :=
  match cols with
  | [] => inr ([], data, h)
  | c :: cols' =>
      let one : option (IMDBFieldValue * list Z) * Heap :=
        match type c with
        | IMDB_TYPE_INT32 =>
            (option_map (fun '(bs, rest) => (int32Value (to_int32 (le_value bs)), rest))
                        (file_read 4 data), h)
        | IMDB_TYPE_FLOAT =>
            (option_map (fun '(bs, rest) => (floatValue (le_value bs), rest)) (file_read 4 data), h)
        | IMDB_TYPE_BOOL =>
            (option_map (fun '(bs, rest) => (boolValue (negb (le_value bs =? 0)), rest))
                        (file_read 1 data), h)
        | IMDB_TYPE_MAC =>
            (option_map (fun '(bs, rest) => (macAddress bs, rest)) (file_read 6 data), h)
        | IMDB_TYPE_EPOCH =>
            (option_map (fun '(bs, rest) => (epochValue (le_value bs), rest)) (file_read 4 data), h)
        | IMDB_TYPE_STRING =>
            match file_read 1 data with
            | None => (None, h)
            | Some (lenByte, data1) =>
                let len := le_value lenByte in
                if IMDB_MAX_STRING_LENGTH <? len then (None, h)
                else if 0 <? len then
                  match malloc (len + 1) h with
                  | (false, h1) => (None, h1)
                  | (true, h1) =>
                      match file_read len data1 with
                      | None => (None, free (len + 1) h1)
                      | Some (bs, rest) => (Some (stringValue (Some (string_of_bytes bs)), rest), h1)
                      end
                  end
                else (Some (stringValue None, data1), h)
            end
        end in
      match one with
      | (None, h1) => inl ([], h1)
      | (Some (f, rest), h1) =>
          match read_fields cols' rest h1 with
          | inl (fs, h2) => inl (f :: fs, h2)
          | inr (fs, rest', h2) => inr (f :: fs, rest', h2)
          end
      end
  end.

(** The cleanup of [loadFromFile] once the record array exists: [db] is
    the store as the load has filled it so far. *)
Definition load_abort (result : IMDBResult) (db : ESP32IMDB) (h : Heap)
  : IMDBResult * ESP32IMDB * Heap :=
  let h1 := free_records db (_records db) h in
  let h2 := free (size_t (sizeof_IMDBRecord * _recordCapacity db)) h1 in
  let h3 := free (size_t (sizeof_IMDBColumn * _columnCount db)) h2 in
  (result, mkDB None (_columnCount db) [] 0 false, h3).

(** The record loop of [loadFromFile], [k] records to go. *)
Fixpoint load_records (k : nat) (saveMillis currentMillis : Z) (data : list Z)
    (db : ESP32IMDB) (h : Heap) : IMDBResult * ESP32IMDB * Heap :=
  match k with
  | O => (IMDB_OK, db, h)
  | S k' =>
      match file_read 1 data with
      | None => load_abort IMDB_ERROR_FILE_READ db h
      | Some (validByte, data1) =>
          match file_read 4 data1 with
          | None => load_abort IMDB_ERROR_FILE_READ db h
          | Some (expiryBytes, data2) =>
              let savedExpiryMillis := le_value expiryBytes in
              let expiry :=
                if savedExpiryMillis =? 0 then 0
                else
                  let remainingMillis := to_uint32 (savedExpiryMillis - saveMillis) in
                  to_uint32 (currentMillis + remainingMillis) in
              if negb (checkHeapLimit h) then load_abort IMDB_ERROR_HEAP_LIMIT db h
              else
                match malloc (fields_size db) h with
                | (false, h1) => load_abort IMDB_ERROR_OUT_OF_MEMORY db h1
                | (true, h1) =>
                    match read_fields (columns_of db) data2 h1 with
                    | inl (fs, h2) =>
                        load_abort IMDB_ERROR_FILE_READ db
                          (free (fields_size db) (free_strings (columns_of db) fs h2))
                    | inr (fs, rest, h2) =>
                        let record := mkRecord (Some fs) expiry (negb (le_value validByte =? 0)) in
                        load_records k' saveMillis currentMillis rest
                                     (set_records db (_records db ++ [record])) h2
                    end
                end
          end
      end
  end.

(** [loadFromFile]; [None] for a file outside the embedding (see
    [read_schema]). *)
Definition loadFromFile (filename : option string) (db : ESP32IMDB) (h : Heap)
    (fs : SPIFFS) (now : Z) : option (IMDBResult * ESP32IMDB * Heap) :=
  match filename with
  | None => Some (IMDB_ERROR_INVALID_VALUE, db, h)
  | Some filename =>
      if _tableExists db then Some (IMDB_ERROR_TABLE_EXISTS, db, h)
      else
        match files fs !! c_str filename with
        | None => Some (IMDB_ERROR_FILE_OPEN, db, h)
        | Some data =>
            match file_read 4 data with
            | None => Some (IMDB_ERROR_CORRUPT_FILE, db, h)
            | Some (m, data1) =>
                if negb (bool_decide (m = magic)) then Some (IMDB_ERROR_CORRUPT_FILE, db, h)
                else
                  match file_read 1 data1 with
                  | None => Some (IMDB_ERROR_CORRUPT_FILE, db, h)
                  | Some (version, data2) =>
                      if negb (le_value version =? 1) then Some (IMDB_ERROR_CORRUPT_FILE, db, h)
                      else
                        match file_read 1 data2 with
                        | None => Some (IMDB_ERROR_CORRUPT_FILE, db, h)
                        | Some (cc, data3) =>
                            let columnCount := le_value cc in
                            match file_read 2 data3 with
                            | None => Some (IMDB_ERROR_CORRUPT_FILE, db, h)
                            | Some (rc, data4) =>
                                let recordCount := le_value rc in
                                match file_read 4 data4 with
                                | None => Some (IMDB_ERROR_CORRUPT_FILE, db, h)
                                | Some (sm, data5) =>
                                    let saveMillis := le_value sm in
                                    if negb (checkHeapLimit h)
                                    then Some (IMDB_ERROR_HEAP_LIMIT, db, h)
                                    else
                                      let columns_size := size_t (sizeof_IMDBColumn * columnCount) in
                                      match malloc columns_size h with
                                      | (false, h1) =>
                                          Some (IMDB_ERROR_OUT_OF_MEMORY,
                                                mkDB None (_columnCount db) (_records db)
                                                     (_recordCapacity db) false, h1)
                                      | (true, h1) =>
                                          match read_schema (Z.to_nat columnCount) data5 with
                                          | None =>
                                              Some (IMDB_ERROR_FILE_READ,
                                                    mkDB None (_columnCount db) (_records db)
                                                         (_recordCapacity db) false,
                                                    free columns_size h1)
                                          | Some None => None
                                          | Some (Some (cols, data6)) =>
                                              if negb (checkHeapLimit h1)
                                              then Some (IMDB_ERROR_HEAP_LIMIT,
                                                         mkDB None columnCount (_records db)
                                                              (_recordCapacity db) false,
                                                         free columns_size h1)
                                              else
                                                let capacity :=
                                                  if 10 <? recordCount then recordCount else 10 in
                                                match malloc (size_t (sizeof_IMDBRecord * capacity)) h1 with
                                                | (false, h2) =>
                                                    Some (IMDB_ERROR_OUT_OF_MEMORY,
                                                          mkDB None columnCount (_records db)
                                                               capacity false,
                                                          free columns_size h2)
                                                | (true, h2) =>
                                                    Some (load_records (Z.to_nat recordCount)
                                                            saveMillis now data6
                                                            (mkDB (Some cols) columnCount [] capacity true)
                                                            h2)
                                                end
                                          end
                                      end
                                end
                            end
                        end
                  end
            end
        end
  end.

(** ** Utility functions *)

Definition getRecordCount (db : ESP32IMDB) : Z := _recordCount db.

(** The inner loop of [getMemoryUsage]: the string buffers of one record,
    each counted as [strlen + 1]. *)
Fixpoint usage_strings (cols : list IMDBColumn) (fs : list IMDBFieldValue) (total : Z) : Z :=
  match cols, fs with
  | c :: cols', f :: fs' =>
      usage_strings cols' fs'
        match type c, get_string f with
        | IMDB_TYPE_STRING, Some s => size_t (total + (strlen s + 1))
        | _, _ => total
        end
  | _, _ => total
  end.

(** The loop of [getMemoryUsage] over the records. *)
Fixpoint usage_records (db : ESP32IMDB) (recs : list IMDBRecord) (total : Z) : Z :=
  match recs with
  | [] => total
  | r :: recs' =>
      usage_records db recs'
        match fields r with
        | Some fs =>
            usage_strings (columns_of db) fs
              (size_t (total + size_t (sizeof_IMDBFieldValue * _columnCount db)))
        | None => total
        end
  end.

(** [getMemoryUsage]; the sum is a [size_t].  The record array is null
    only when there is no record to visit. *)
Definition getMemoryUsage (db : ESP32IMDB) : Z :=
  let total := size_t (0 + size_t (sizeof_IMDBColumn * _columnCount db)) in
  let total := size_t (total + size_t (sizeof_IMDBRecord * _recordCapacity db)) in
  match _columns db with
  | Some _ => usage_records db (_records db) total
  | None => total
  end.

(** ** MAC address helpers *)

(** A [char] as its code, and back. *)
Definition char_code (c : ascii) : Z := Z.of_N (N_of_ascii c).
Definition char_of (z : Z) : ascii := ascii_of_N (Z.to_N z).

(** [macStr[i]]; the terminating NUL is read past the end. *)
Definition char_at (s : string) (i : nat) : Z :=
  match String.get i s with
  | Some c => char_code c
  | None => 0
  end.

Definition isHexChar (c : Z) : bool :=
  ((48 <=? c) && (c <=? 57)) || ((97 <=? c) && (c <=? 102)) || ((65 <=? c) && (c <=? 70)).

(** The value [strtol] gives a hexadecimal digit. *)
Definition hex_value (c : Z) : Z :=
  if (48 <=? c) && (c <=? 57) then c - 48
  else if (97 <=? c) && (c <=? 102) then c - 87
  else c - 55.

(** [(uint8_t)strtol(hex, nullptr, 16)] for the two checked digits [hi]
    and [lo]. *)
Definition hex_pair (hi lo : Z) : Z := to_uint8 (16 * hex_value hi + hex_value lo).

(** The octet loop of the 17-character format, [k] octets from octet [i]:
    whether the text was accepted, and [macBytes] as the loop left it. *)
Fixpoint parse_delimited (macStr : string) (delimiter : Z) (k i : nat) (macBytes : list Z)
  : bool * list Z :=
  match k with
  | O => (true, macBytes)
  | S k' =>
      let pos := (i * 3)%nat in
      if negb (isHexChar (char_at macStr pos)) || negb (isHexChar (char_at macStr (pos + 1)))
      then (false, macBytes)
      else
        let macBytes' :=
          <[i := hex_pair (char_at macStr pos) (char_at macStr (pos + 1))]> macBytes in
        if (Nat.ltb i 5) && negb (char_at macStr (pos + 2) =? delimiter)
        then (false, macBytes')
        else parse_delimited macStr delimiter k' (S i) macBytes'
  end.

(** [parseMacAddress]: the result, and the six bytes at [macBytes] after
    the call ([None] for a null pointer). *)
Definition parseMacAddress (macStr : option string) (macBytes : option (list Z))
  : bool * option (list Z) :=
  match macStr, macBytes with
  | Some macStr, Some bytes =>
      let str := c_str macStr in
      let len := String.length str in
      if Nat.eqb len 12 then
        if forallb (fun i => isHexChar (char_at str i)) (seq 0 12)
        then
          (true,
           Some (fold_left
                   (fun acc i =>
                      <[i := hex_pair (char_at str (i * 2)) (char_at str (i * 2 + 1))]> acc)
                   (seq 0 6) bytes))
        else (false, macBytes)
      else if Nat.eqb len 17 then
        let delimiter := char_at str 2 in
        if negb (delimiter =? 58) && negb (delimiter =? 45) then (false, macBytes)
        else
          let '(ok, bytes') := parse_delimited str delimiter 6 0 bytes in
          (ok, Some bytes')
      else (false, macBytes)
  | _, _ => (false, macBytes)
  end.

(** The digit [printf] writes for a value below 16 under [%x]. *)
Definition hex_digit (n : Z) : ascii :=
  char_of (if n <? 10 then 48 + n else 87 + n).

(** ["%02x"] for a [uint8_t]. *)
Definition hex_byte (b : Z) : string :=
  String (hex_digit (to_uint8 b / 16)) (String (hex_digit (to_uint8 b mod 16)) EmptyString).

(** [formatMacAddress]: the C string in [output] after the call ([None]
    for a null [output]). *)
Definition formatMacAddress (macBytes : option (list Z)) (output : option string)
  : option string :=
  match output with
  | None => None
  | Some _ =>
      match macBytes with
      | None => Some EmptyString
      | Some bytes =>
          let b (i : nat) := hex_byte (nth i bytes 0) in
          Some (b 0%nat +:+ ":" +:+ b 1%nat +:+ ":" +:+ b 2%nat +:+ ":" +:+ b 3%nat +:+ ":"
                +:+ b 4%nat +:+ ":" +:+ b 5%nat)
      end
  end.

(** [resultToString]. *)
Definition resultToString (result : IMDBResult) : string :=
  match result with
  | IMDB_OK => "OK"
  | IMDB_ERROR_OUT_OF_MEMORY => "Out of memory"
  | IMDB_ERROR_HEAP_LIMIT => "Heap limit exceeded"
  | IMDB_ERROR_TABLE_EXISTS => "Table already exists"
  | IMDB_ERROR_NO_TABLE => "No table exists"
  | IMDB_ERROR_INVALID_TYPE => "Invalid data type"
  | IMDB_ERROR_INVALID_VALUE => "Invalid value"
  | IMDB_ERROR_COLUMN_COUNT_MISMATCH => "Column count mismatch"
  | IMDB_ERROR_COLUMN_NOT_FOUND => "Column not found"
  | IMDB_ERROR_INVALID_OPERATION => "Invalid operation"
  | IMDB_ERROR_NO_RECORDS => "No records found"
  | IMDB_ERROR_INVALID_MAC_FORMAT => "Invalid MAC address format"
  | IMDB_ERROR_FILE_OPEN => "Failed to open file"
  | IMDB_ERROR_FILE_WRITE => "Failed to write to file"
  | IMDB_ERROR_FILE_READ => "Failed to read from file"
  | IMDB_ERROR_CORRUPT_FILE => "Corrupt or invalid file format"
  end.

(** ** Example stores *)

Module Example.

Definition heap0 : Heap := mkHeap 100000 0 [].

(** A heap below [IMDB_MIN_HEAP_BYTES]. *)
Definition low_heap : Heap := mkHeap 20000 0 [].

Definition schema : list IMDBColumn :=
  [mkColumn "id" IMDB_TYPE_INT32; mkColumn "name" IMDB_TYPE_STRING].

Definition row (id : Z) (s : string) : option (list (option IMDBFieldValue)) :=
  Some [Some (int32Value id); Some (stringValue (Some s))].

(** [createTable] then two [insert]s at clock 1000: [(1, "a")] without
    expiry and [(2, "b")] with a TTL of 100 ms. *)
Definition created : IMDBResult * ESP32IMDB * Heap :=
  Eval vm_compute in createTable (Some schema) 2 new_ESP32IMDB heap0.

Definition one_row : IMDBResult * ESP32IMDB * Heap :=
  Eval vm_compute in insert (row 1 "a") 0 created.1.2 created.2 1000.

Definition two_rows : IMDBResult * ESP32IMDB * Heap :=
  Eval vm_compute in insert (row 2 "b") 100 one_row.1.2 one_row.2 1000.

Definition db2 : ESP32IMDB := two_rows.1.2.

(** A store whose only record, [(7, "")], holds an empty string. *)
Definition empty_string_row : IMDBResult * ESP32IMDB * Heap :=
  Eval vm_compute in insert (row 7 "") 0 created.1.2 created.2 1000.

(** A table with one [IMDB_TYPE_EPOCH] column holding 1 and [2^31]. *)
Definition epoch_schema : list IMDBColumn := [mkColumn "t" IMDB_TYPE_EPOCH].

Definition epoch_db : ESP32IMDB :=
  Eval vm_compute in
    let c := createTable (Some epoch_schema) 1 new_ESP32IMDB heap0 in
    let i1 := insert (Some [Some (epochValue 1)]) 0 c.1.2 c.2 1000 in
    let i2 := insert (Some [Some (epochValue 2147483648)]) 0 i1.1.2 i1.2 1000 in
    i2.1.2.

Definition flash : SPIFFS := mkFS ∅ 100000 [].

End Example.

(** ** Vocabulary of the statements *)

(** The operations that divide by their operand. *)
Definition divides (operation : IMDBMathOp) : bool :=
  match operation with
  | IMDB_MATH_DIVIDE | IMDB_MATH_MODULO => true
  | _ => false
  end.

(** The header of a snapshot: magic, version 1, then a column count, a
    record count and a time stamp of any value. *)
Definition has_header (data : list Z) : Prop :=
  exists cc rc sm rest,
    length rc = 2%nat /\ length sm = 4%nat /\
    data = magic ++ [1] ++ [cc] ++ rc ++ sm ++ rest.

(** The fields of column [colIdx] in the records a scan at clock [now]
    looks at, in store order. *)
Definition live_values (now colIdx : Z) (recs : list IMDBRecord) : list IMDBFieldValue :=
  map (fun r => field_or_zero r colIdx) (List.filter (live now) recs).

(** One round of the integer branch of the loops of [min] and [max], for
    the comparison [better val extremum] of the loop. *)
Definition extremum_step (better : Z -> Z -> bool) (st : extremum) (val : Z) : extremum :=
  if negb (ext_hasValue st) || better val (ext_int st)
  then mkExtremum true val (ext_float st) else st.

(** The invariant of the loop of [compactRecords]: the slots below the write
    cursor hold the valid records met so far, in their order, and the slots
    from the read cursor on are untouched. *)
Definition compact_inv (orig : list IMDBRecord) (readIndex writeIndex : nat)
    (recs : list IMDBRecord) : Prop :=
  (writeIndex <= readIndex)%nat /\
  length recs = length orig /\
  take writeIndex recs = List.filter isValid (take readIndex orig) /\
  drop readIndex recs = drop readIndex orig.

(** The bytes of string buffers that [free_strings cols fs] gives back. *)
Definition cell_bytes (c : IMDBColumn) (f : IMDBFieldValue) : Z :=
  match type c, get_string f with
  | IMDB_TYPE_STRING, Some s => string_size s
  | _, _ => 0
  end.

Fixpoint strings_bytes (cols : list IMDBColumn) (fs : list IMDBFieldValue) : Z :=
  match cols, fs with
  | c :: cols', f :: fs' => cell_bytes c f + strings_bytes cols' fs'
  | _, _ => 0
  end.

(** What the queries read of a store: everything but the capacity of the
    record array. *)
Definition same_table (db db' : ESP32IMDB) : Prop :=
  _tableExists db' = _tableExists db /\
  _columns db' = _columns db /\
  _columnCount db' = _columnCount db /\
  _records db' = _records db.

(** Entry [i] of [values] cannot be copied into column [i]: it is null, or
    the column holds strings and the entry points to a null [char*]. *)
Definition uncopyable (db : ESP32IMDB) (vals : list (option IMDBFieldValue)) (i : nat) : Prop :=
  vals !! i = Some None \/
  (exists v, vals !! i = Some (Some v) /\
             column_type db (Z.of_nat i) = IMDB_TYPE_STRING /\ get_string v = None).

(** The records whose expiry is not past due at clock [now]. *)
Definition unexpired (now : Z) (recs : list IMDBRecord) : list IMDBRecord :=
  List.filter (fun r => negb (isRecordExpired now (expiryMillis r))) recs.

(** A field as [copyFieldValue] writes it for a column of type [t]: the
    member of that type, within the range of its C type; a string is
    NUL-free and at most 255 characters long, or a null pointer. *)
Definition wf_field (t : IMDBDataType) (f : IMDBFieldValue) : Prop :=
  match t, f with
  | IMDB_TYPE_INT32, int32Value v => - two31 <= v < two31
  | IMDB_TYPE_MAC, macAddress b => mac6 b = b
  | IMDB_TYPE_STRING, stringValue (Some s) => c_str s = s /\ (String.length s <= 255)%nat
  | IMDB_TYPE_STRING, stringValue None => True
  | IMDB_TYPE_EPOCH, epochValue v => 0 <= v < two32
  | IMDB_TYPE_BOOL, boolValue _ => True
  | IMDB_TYPE_FLOAT, floatValue v => 0 <= v < two32
  | _, _ => False
  end.

Definition wf_fields (cols : list IMDBColumn) (fs : list IMDBFieldValue) : Prop :=
  Forall2 (fun c f => wf_field (type c) f) cols fs.

(** A valid record of a table with the columns [cols]. *)
Definition wf_record (cols : list IMDBColumn) (r : IMDBRecord) : Prop :=
  isValid r = true /\ 0 <= expiryMillis r < two32 /\
  exists fs, fields r = Some fs /\ wf_fields cols fs.

(** A table that holds valid records only, as [createTable] and [insert]
    build it. *)
Definition wf_table (db : ESP32IMDB) : Prop :=
  _tableExists db = true /\
  exists cols,
    _columns db = Some cols /\ _columnCount db = Z.of_nat (length cols) /\
    (0 < length cols <= 255)%nat /\
    Forall (wf_record cols) (_records db).

(** The stores that [createTable] and then successful [insert]s produce
    ([columnCount] is a [uint8_t] and counts the columns passed). *)
Inductive inserts_only : ESP32IMDB -> Prop :=
  | inserts_created cols columnCount db0 h db h' :
      _tableExists db0 = false -> _records db0 = [] ->
      0 < columnCount <= 255 -> columnCount <= Z.of_nat (length cols) ->
      createTable (Some cols) columnCount db0 h = (IMDB_OK, db, h') ->
      inserts_only db
  | inserts_inserted db values ttlMillis h now db' h' :
      inserts_only db -> 0 <= now < two32 ->
      insert values ttlMillis db h now = (IMDB_OK, db', h') ->
      inserts_only db'.








(** A value that equals its own stored copy under [compareValues]: any
    value of a column of another type than string and float, a string of at
    most [IMDB_MAX_STRING_LENGTH] characters, and a float that is not a
    NaN. *)
Definition comparable (t : IMDBDataType) (v : IMDBFieldValue) : Prop :=
  match t with
  | IMDB_TYPE_STRING => exists s, get_string v = Some s /\ strlen s <= IMDB_MAX_STRING_LENGTH
  | IMDB_TYPE_FLOAT => Float32.eqb (get_float v) (get_float v) = true
  | _ => True
  end.

(** The heap a record holds, its field array and its string buffers, and
    the heap a table holds: the column array, the record array and the
    records. *)
Definition record_heap (db : ESP32IMDB) (r : IMDBRecord) : Z :=
  match fields r with
  | Some fs => fields_size db + strings_bytes (columns_of db) fs
  | None => 0
  end.

Definition records_heap (db : ESP32IMDB) (recs : list IMDBRecord) : Z :=
  fold_right Z.add 0 (map (record_heap db) recs).

Definition table_heap (db : ESP32IMDB) : Z :=
  size_t (sizeof_IMDBColumn * _columnCount db)
  + size_t (sizeof_IMDBRecord * _recordCapacity db)
  + records_heap db (_records db).

(** No record of [recs] passes between live and expired while the clock is
    read: at every reading it is what it is at [now]. *)
Definition steady (millis : nat -> Z) (now : Z) (recs : list IMDBRecord) : Prop :=
  forall k r, In r recs -> live (millis k) r = live now r.

(** The cell [cell] of a result holds the field [f] of a column of type [t]:
    [hasValue] is set, [type] is [t], and the member of that type is the
    value of the field, for a string its first 255 characters and the empty
    string for a null pointer. *)
Definition holds_field (t : IMDBDataType) (f : IMDBFieldValue) (cell : IMDBSelectResult) : Prop :=
  hasValue cell = true /\ type_r cell = t /\
  match t with
  | IMDB_TYPE_INT32 => int32Value_r cell = get_int32 f
  | IMDB_TYPE_MAC => macAddress_r cell = get_mac f
  | IMDB_TYPE_STRING =>
      stringValue_r cell =
      match get_string f with
      | Some s => String.substring 0 255 (c_str s)
      | None => EmptyString
      end
  | IMDB_TYPE_EPOCH => epochValue_r cell = get_epoch f
  | IMDB_TYPE_BOOL => boolValue_r cell = get_bool f
  | IMDB_TYPE_FLOAT => floatValue_r cell = get_float f
  end.

(** ** Properties *)

Lemma to_int32_range z : - two31 <= to_int32 z < two31.
Proof.
  unfold to_int32, two31, two32. cbv zeta.
  pose proof (Z.mod_pos_bound z (2 ^ 32) ltac:(lia)).
  destruct (Z.ltb_spec (z mod 2 ^ 32) (2 ^ 31)); lia.
Qed.

Lemma to_int32_congr z : (to_int32 z - z) mod two32 = 0.
Proof.
  unfold to_int32, two31, two32. cbv zeta.
  destruct (Z.ltb_spec (z mod 2 ^ 32) (2 ^ 31)).
  - rewrite Zminus_mod, Z.mod_mod, Z.sub_diag by lia. reflexivity.
  - replace (z mod 2 ^ 32 - 2 ^ 32 - z) with (z mod 2 ^ 32 - z + (-1) * 2 ^ 32) by lia.
    rewrite Z.mod_add by lia.
    rewrite Zminus_mod, Z.mod_mod, Z.sub_diag by lia. reflexivity.
Qed.

(** C7.  A record whose expiry field is 0 is never expired.  For every other
    expiry [e] and clock value [now], both unsigned 32-bit values, the record
    is expired exactly when the wrapping difference [now - e], read as a
    signed 32-bit integer, is not negative: the signed reading is the one
    integer [d] of [-2^31 .. 2^31-1] congruent to [now - e] modulo [2^32],
    and [0 <= d] amounts to [(now - e) mod 2^32 < 2^31]. *)
Theorem isRecordExpired_exact (now e : Z) :
  0 <= now < two32 -> 0 <= e < two32 ->
  (e = 0 -> isRecordExpired now e = false) /\
  (e <> 0 ->
     exists d, - two31 <= d < two31 /\ (d - (now - e)) mod two32 = 0 /\
       (isRecordExpired now e = true <-> 0 <= d) /\
       (0 <= d <-> (now - e) mod two32 < two31)).
Proof.
  intros Hnow He. split.
  - intros ->. reflexivity.
  - intros Hne. exists (to_int32 (now - e)).
    split; [apply to_int32_range|]. split; [apply to_int32_congr|].
    unfold isRecordExpired. destruct (Z.eqb_spec e 0) as [|_]; [lia|].
    assert (Hidem : to_int32 (to_uint32 (now - e)) = to_int32 (now - e)).
    { unfold to_int32, to_uint32. rewrite Z.mod_mod; [reflexivity|]. unfold two32. lia. }
    rewrite Hidem. split.
    + rewrite Z.leb_le. reflexivity.
    + unfold to_int32, two31, two32. cbv zeta.
      pose proof (Z.mod_pos_bound (now - e) (2 ^ 32) ltac:(lia)).
      destruct (Z.ltb_spec ((now - e) mod 2 ^ 32) (2 ^ 31)); lia.
Qed.

Lemma isRecordExpired_exact_witness :
  (exists d, - two31 <= d < two31 /\ (d - (5 - 4294967290)) mod two32 = 0 /\
     (isRecordExpired 5 4294967290 = true <-> 0 <= d) /\
     (0 <= d <-> (5 - 4294967290) mod two32 < two31)).
Proof.
  apply (isRecordExpired_exact 5 4294967290); unfold two32; lia.
Defined.

(** *** Counting loops *)

Lemma live_skip now r :
  negb (isValid r) || isRecordExpired now (expiryMillis r) = negb (live now r).
Proof. unfold live. destruct (isValid r), (isRecordExpired now (expiryMillis r)); reflexivity. Qed.

Lemma count_live_filter now recs cnt :
  count_live now recs cnt = cnt + Z.of_nat (length (List.filter (live now) recs)).
Proof.
  revert cnt. induction recs as [|r recs IH]; intros cnt; simpl.
  - lia.
  - rewrite IH. fold (live now r). destruct (live now r); simpl length; lia.
Qed.

Lemma count_matches_filter db now whereIdx whereValue recs cnt :
  count_matches db now whereIdx whereValue recs cnt =
  cnt + Z.of_nat (length (List.filter
            (fun r => live now r && matches db whereIdx whereValue r) recs)).
Proof.
  revert cnt. induction recs as [|r recs IH]; intros cnt; simpl.
  - lia.
  - rewrite IH. fold (live now r).
    destruct (live now r && matches db whereIdx whereValue r); simpl length; lia.
Qed.

Lemma filter_none {A} (p : A -> bool) (l : list A) :
  (forall x, In x l -> p x = false) -> List.filter p l = [].
Proof.
  induction l as [|x l IH]; intros H; simpl; [reflexivity|].
  rewrite (H x (or_introl eq_refl)). apply IH. intros y Hy. apply H. right. exact Hy.
Qed.

Lemma findColumnIndex_from_none i cols columnName :
  (forall c, In c cols -> strcmp_eq (name c) columnName = false) ->
  findColumnIndex_from i cols columnName = -1.
Proof.
  revert i. induction cols as [|c cols IH]; intros i H; simpl; [reflexivity|].
  rewrite (H c (or_introl eq_refl)). apply IH. intros c' Hc'. apply H. right. exact Hc'.
Qed.

(** C10.  [count] answers 0 when no table exists, and [countWhere] answers 0
    when no table exists, when either argument is null, or when no column
    has the name asked for.  A table without live records, or without a live
    record that matches, gets the same 0, so the answer alone does not tell
    these cases apart. *)
Theorem count_zero_is_ambiguous (whereColumn : option string)
    (whereValue : option IMDBFieldValue) (db : ESP32IMDB) (now : Z) :
  (_tableExists db = false -> count db now = 0) /\
  (_tableExists db = false \/ whereColumn = None \/ whereValue = None \/
   (exists columnName, whereColumn = Some columnName /\
      forall c, In c (columns_of db) -> strcmp_eq (name c) columnName = false) ->
   countWhere whereColumn whereValue db now = 0) /\
  (_tableExists db = true ->
   (forall r, In r (_records db) -> live now r = false) ->
   count db now = 0) /\
  (forall columnName value,
     _tableExists db = true -> 0 <= findColumnIndex db columnName ->
     (forall r, In r (_records db) ->
        live now r && matches db (findColumnIndex db columnName) value r = false) ->
     countWhere (Some columnName) (Some value) db now = 0).
Proof.
  repeat split.
  - intros H. unfold count. rewrite H. reflexivity.
  - intros [H | [H | [H | [columnName [H Hcols]]]]]; unfold countWhere.
    + rewrite H. reflexivity.
    + rewrite H. destruct (negb (_tableExists db)); reflexivity.
    + rewrite H. destruct (negb (_tableExists db)), whereColumn; reflexivity.
    + rewrite H. destruct (negb (_tableExists db)); [reflexivity|].
      destruct whereValue; [|reflexivity].
      unfold findColumnIndex. rewrite (findColumnIndex_from_none _ _ _ Hcols). reflexivity.
  - intros Ht Hdead. unfold count. rewrite Ht. simpl.
    rewrite count_live_filter, (filter_none _ _ Hdead). reflexivity.
  - intros columnName value Ht Hidx Hnone. unfold countWhere. rewrite Ht. simpl.
    destruct (Z.ltb_spec (findColumnIndex db columnName) 0); [lia|].
    rewrite count_matches_filter, (filter_none _ _ Hnone). reflexivity.
Qed.

Lemma count_zero_is_ambiguous_witness :
  count new_ESP32IMDB 5 = 0 /\
  countWhere (Some "id"%string) None new_ESP32IMDB 5 = 0 /\
  countWhere (Some "id"%string) (Some (int32Value 9)) Example.db2 1000 = 0.
Proof.
  pose proof (count_zero_is_ambiguous (Some "id"%string) None new_ESP32IMDB 5)
    as (Hcount & HcountWhere & _ & _).
  pose proof (count_zero_is_ambiguous None None Example.db2 1000) as (_ & _ & _ & Hnone).
  split; [|split].
  - apply Hcount. reflexivity.
  - apply HcountWhere. left. reflexivity.
  - apply Hnone.
    + reflexivity.
    + vm_compute. discriminate.
    + intros r Hr. simpl in Hr. destruct Hr as [<- | [<- | []]]; reflexivity.
Defined.

(** *** Arithmetic updates with a zero divisor *)

Lemma apply_math_zero t old operation :
  divides operation = true ->
  apply_math t old operation 0 = inl IMDB_ERROR_INVALID_OPERATION.
Proof. destruct operation; try discriminate; intros _; destruct t; reflexivity. Qed.

Lemma set_records_same db : set_records db (_records db) = db.
Proof. destruct db; reflexivity. Qed.

(** With a zero divisor the loop stops at the first live record that
    matches, and has changed nothing by then. *)
Lemma math_loop_zero db now whereIdx whereValue setIdx operation recs updated :
  divides operation = true ->
  math_loop db now whereIdx whereValue setIdx operation 0 recs updated =
  (if existsb (fun r => live now r && matches db whereIdx whereValue r) recs
   then Some IMDB_ERROR_INVALID_OPERATION else None,
   recs, updated).
Proof.
  intros Hop. induction recs as [|r recs IH]; simpl; [reflexivity|].
  rewrite live_skip. destruct (live now r); simpl.
  - destruct (matches db whereIdx whereValue r); simpl.
    + rewrite (apply_math_zero _ _ _ Hop). reflexivity.
    + rewrite IH. reflexivity.
  - rewrite IH. reflexivity.
Qed.

(** C5, as the code has it.  [updateWithMath] with divide or modulo and
    operand 0 never returns OK and leaves the whole store as it was.  When
    the table exists, both columns are found, the set column is numeric
    (Int32, Epoch or Float32) and a live, non-expired record matches the where
    condition, the error is InvalidOperation.  (The checks on the set column
    come first: a missing one gives ColumnNotFound and one that is not
    numeric gives InvalidType, whatever the records.) *)
Theorem updateWithMath_zero_divisor (whereColumn : option string)
    (whereValue : option IMDBFieldValue) (setColumn : option string)
    (operation : IMDBMathOp) (db : ESP32IMDB) (now : Z) :
  divides operation = true ->
  (updateWithMath whereColumn whereValue setColumn operation 0 db now).1 <> IMDB_OK /\
  (updateWithMath whereColumn whereValue setColumn operation 0 db now).2 = db /\
  (forall wc wv sc,
     whereColumn = Some wc -> whereValue = Some wv -> setColumn = Some sc ->
     _tableExists db = true ->
     0 <= findColumnIndex db wc -> 0 <= findColumnIndex db sc ->
     numeric (column_type db (findColumnIndex db sc)) = true ->
     (exists r, In r (_records db) /\ live now r = true /\
                matches db (findColumnIndex db wc) wv r = true) ->
     (updateWithMath whereColumn whereValue setColumn operation 0 db now).1
       = IMDB_ERROR_INVALID_OPERATION).
Proof.
  intros Hop.
  assert (Hshape :
    forall wc wv sc,
      _tableExists db = true ->
      (findColumnIndex db wc <? 0) || (findColumnIndex db sc <? 0) = false ->
      numeric (column_type db (findColumnIndex db sc)) = true ->
      updateWithMath (Some wc) (Some wv) (Some sc) operation 0 db now =
      (if existsb (fun r => live now r && matches db (findColumnIndex db wc) wv r) (_records db)
       then IMDB_ERROR_INVALID_OPERATION else IMDB_ERROR_NO_RECORDS, db)).
  { intros wc wv sc Ht Hidx Hnum. unfold updateWithMath.
    rewrite Ht, Hidx, Hnum. simpl. rewrite (math_loop_zero _ _ _ _ _ _ _ _ Hop).
    rewrite set_records_same. destruct (existsb _ _); reflexivity. }
  assert (Hall : (updateWithMath whereColumn whereValue setColumn operation 0 db now).1 <> IMDB_OK
                 /\ (updateWithMath whereColumn whereValue setColumn operation 0 db now).2 = db).
  { destruct (_tableExists db) eqn:Ht; [|unfold updateWithMath; rewrite Ht; split; [discriminate|reflexivity]].
    destruct whereColumn as [wc|], whereValue as [wv|], setColumn as [sc|];
      try (unfold updateWithMath; rewrite Ht; split; [discriminate|reflexivity]).
    destruct ((findColumnIndex db wc <? 0) || (findColumnIndex db sc <? 0)) eqn:Hidx;
      [unfold updateWithMath; rewrite Ht, Hidx; split; [discriminate|reflexivity]|].
    destruct (numeric (column_type db (findColumnIndex db sc))) eqn:Hnum;
      [|unfold updateWithMath; rewrite Ht, Hidx, Hnum; split; [discriminate|reflexivity]].
    rewrite (Hshape wc wv sc eq_refl Hidx Hnum).
    destruct (existsb _ _); split; solve [discriminate | reflexivity]. }
  destruct Hall as [Hne Hsame]. split; [exact Hne|]. split; [exact Hsame|].
  intros wc wv sc -> -> -> Ht Hwc Hsc Hnum (r & Hin & Hlive & Hmatch).
  rewrite (Hshape wc wv sc Ht); [| |exact Hnum].
  - replace (existsb _ _) with true; [reflexivity|].
    symmetry. apply existsb_exists. exists r. rewrite Hlive, Hmatch. auto.
  - apply orb_false_iff. split; apply Z.ltb_ge; assumption.
Qed.

Lemma updateWithMath_zero_divisor_witness :
  (updateWithMath (Some "id"%string) (Some (int32Value 1)) (Some "id"%string)
     IMDB_MATH_DIVIDE 0 Example.db2 1000).1 = IMDB_ERROR_INVALID_OPERATION.
Proof.
  pose proof (updateWithMath_zero_divisor (Some "id"%string) (Some (int32Value 1))
                (Some "id"%string) IMDB_MATH_DIVIDE Example.db2 1000 eq_refl) as (_ & _ & H).
  apply (H "id"%string (int32Value 1) "id"%string);
    [reflexivity | reflexivity | reflexivity | reflexivity | | | reflexivity | ].
  - vm_compute. discriminate.
  - vm_compute. discriminate.
  - exists (mkRecord (Some [int32Value 1; stringValue (Some "a"%string)]) 0 true).
    split; [left; reflexivity|]. split; reflexivity.
Defined.

(** C5, as stated, fails: a live record matches the where condition, the
    operation is a division by 0, and the error is InvalidType, because the set
    column holds strings. *)
Lemma updateWithMath_zero_divisor_other_error :
  let whereIdx := findColumnIndex Example.db2 "id" in
  (exists r, In r (_records Example.db2) /\ live 1000 r = true /\
             matches Example.db2 whereIdx (int32Value 1) r = true) /\
  (updateWithMath (Some "id"%string) (Some (int32Value 1)) (Some "name"%string)
     IMDB_MATH_DIVIDE 0 Example.db2 1000).1 = IMDB_ERROR_INVALID_TYPE /\
  IMDB_ERROR_INVALID_TYPE <> IMDB_ERROR_INVALID_OPERATION.
Proof.
  split; [|split; [reflexivity|discriminate]].
  exists (mkRecord (Some [int32Value 1; stringValue (Some "a"%string)]) 0 true).
  split; [left; reflexivity|]. split; reflexivity.
Qed.

(** *** Expired records in the scans *)

Lemma live_at_fst millis k r : (live_at millis k r).1 = live (millis k) r.
Proof.
  unfold live_at, live. destruct (isValid r); [|reflexivity].
  destruct (Z.eqb_spec (expiryMillis r) 0) as [E|_]; [|reflexivity].
  rewrite E. reflexivity.
Qed.

Lemma steady_const now recs : steady (fun _ => now) now recs.
Proof. intros k r _. reflexivity. Qed.

Lemma steady_tail millis now r recs : steady millis now (r :: recs) -> steady millis now recs.
Proof. intros H k x Hx. apply H. right. exact Hx. Qed.

Lemma live_at_steady millis now k r recs :
  steady millis now (r :: recs) -> (live_at millis k r).1 = live now r.
Proof. intros H. rewrite live_at_fst. apply H. left. reflexivity. Qed.

(** While no record passes between live and expired, the two loops of
    [selectAll] and of [top] see the records that are live at [now]. *)
Lemma selectAll_count_steady db millis now whereIdx whereValue recs k cnt :
  steady millis now recs ->
  (selectAll_count db millis whereIdx whereValue recs k cnt).1 =
  count_matches db now whereIdx whereValue recs cnt.
Proof.
  revert k cnt. induction recs as [|r recs IH]; intros k cnt Hs; [reflexivity|].
  cbn [selectAll_count count_matches].
  pose proof (live_at_steady millis now k r recs Hs) as Hlive.
  destruct (live_at millis k r) as [alive k']. cbn [fst] in Hlive. subst alive.
  rewrite (IH _ _ (steady_tail _ _ _ _ Hs)). reflexivity.
Qed.

Lemma top_count_steady millis now recs k cnt :
  steady millis now recs ->
  (top_count millis recs k cnt).1 = count_live now recs cnt.
Proof.
  revert k cnt. induction recs as [|r recs IH]; intros k cnt Hs; [reflexivity|].
  cbn [top_count count_live].
  pose proof (live_at_steady millis now k r recs Hs) as Hlive.
  destruct (live_at millis k r) as [alive k']. cbn [fst] in Hlive. subst alive.
  rewrite (IH _ _ (steady_tail _ _ _ _ Hs)). reflexivity.
Qed.

Lemma selectAll_fill_steady db millis now whereIdx whereValue recs k cells :
  steady millis now recs ->
  selectAll_fill db millis whereIdx whereValue recs k cells =
  cells ++ concat (map (row_of db)
                       (List.filter (fun r => live now r && matches db whereIdx whereValue r) recs)).
Proof.
  revert k cells. induction recs as [|r recs IH]; intros k cells Hs.
  - cbn. rewrite app_nil_r. reflexivity.
  - cbn [selectAll_fill List.filter].
    pose proof (live_at_steady millis now k r recs Hs) as Hlive.
    destruct (live_at millis k r) as [alive k']. cbn [fst] in Hlive. subst alive.
    rewrite (IH _ _ (steady_tail _ _ _ _ Hs)).
    destruct (live now r && matches db whereIdx whereValue r).
    + cbn [map concat]. rewrite app_assoc. reflexivity.
    + reflexivity.
Qed.

Lemma top_fill_full db millis returnCount recs k resultIdx cells :
  (resultIdx <? returnCount) = false ->
  top_fill db millis returnCount recs k resultIdx cells = cells.
Proof. intros H. destruct recs; simpl; [reflexivity|]. rewrite H. reflexivity. Qed.

Lemma top_fill_steady db millis now returnCount recs k resultIdx cells :
  steady millis now recs ->
  top_fill db millis returnCount recs k resultIdx cells =
  cells ++ concat (map (row_of db)
                       (take (Z.to_nat (returnCount - resultIdx))
                             (List.filter (live now) recs))).
Proof.
  revert k resultIdx cells. induction recs as [|r recs IH]; intros k resultIdx cells Hs.
  - cbn. rewrite take_nil. cbn. rewrite app_nil_r. reflexivity.
  - cbn [top_fill List.filter].
    destruct (Z.ltb_spec resultIdx returnCount) as [Hroom|Hfull].
    + pose proof (live_at_steady millis now k r recs Hs) as Hlive.
      destruct (live_at millis k r) as [alive k']. cbn [fst] in Hlive. subst alive.
      destruct (live now r).
      * rewrite (IH _ _ _ (steady_tail _ _ _ _ Hs)).
        replace (Z.to_nat (returnCount - resultIdx))
          with (S (Z.to_nat (returnCount - (resultIdx + 1)))) by lia.
        cbn [take map concat]. rewrite app_assoc. reflexivity.
      * apply (IH _ _ _ (steady_tail _ _ _ _ Hs)).
    + replace (Z.to_nat (returnCount - resultIdx)) with 0%nat by lia.
      rewrite take_0. cbn. rewrite app_nil_r. reflexivity.
Qed.

Lemma steady_filter millis now p recs :
  steady millis now recs -> steady millis now (List.filter p recs).
Proof. intros H k r Hr. apply H. apply filter_In in Hr. tauto. Qed.

Lemma filter_filter_sub {A} (p q : A -> bool) (l : list A) :
  (forall x, p x = true -> q x = true) ->
  List.filter p (List.filter q l) = List.filter p l.
Proof.
  intros Hsub. induction l as [|x l IH]; [reflexivity|]. cbn [List.filter].
  destruct (q x) eqn:Hq; cbn [List.filter].
  - rewrite IH. reflexivity.
  - rewrite IH. destruct (p x) eqn:Hp; [|reflexivity].
    rewrite (Hsub x Hp) in Hq. discriminate.
Qed.

(** The loops that test [isRecordExpired] run as if the expired records
    were not in the array. *)
Lemma scans_skip_expired db now recs :
  (forall cnt, count_live now recs cnt = count_live now (unexpired now recs) cnt) /\
  (forall whereIdx whereValue cnt,
     count_matches db now whereIdx whereValue recs cnt =
     count_matches db now whereIdx whereValue (unexpired now recs) cnt) /\
  (forall colIdx whereIdx whereValue res,
     select_loop db now colIdx whereIdx whereValue recs res =
     select_loop db now colIdx whereIdx whereValue (unexpired now recs) res) /\
  (forall whereIdx whereValue k cells,
     selectAll_fill db (fun _ => now) whereIdx whereValue recs k cells =
     selectAll_fill db (fun _ => now) whereIdx whereValue (unexpired now recs) k cells) /\
  (forall t colIdx st,
     min_loop t now colIdx recs st = min_loop t now colIdx (unexpired now recs) st) /\
  (forall t colIdx st,
     max_loop t now colIdx recs st = max_loop t now colIdx (unexpired now recs) st) /\
  (forall returnCount k resultIdx cells,
     top_fill db (fun _ => now) returnCount recs k resultIdx cells =
     top_fill db (fun _ => now) returnCount (unexpired now recs) k resultIdx cells).
Proof.
  assert (Hlive : forall x, live now x = true ->
                            negb (isRecordExpired now (expiryMillis x)) = true).
  { intros x Hx. unfold live in Hx. apply andb_true_iff in Hx. tauto. }
  assert (Hloops :
    (forall cnt, count_live now recs cnt = count_live now (unexpired now recs) cnt) /\
    (forall whereIdx whereValue cnt,
       count_matches db now whereIdx whereValue recs cnt =
       count_matches db now whereIdx whereValue (unexpired now recs) cnt) /\
    (forall colIdx whereIdx whereValue res,
       select_loop db now colIdx whereIdx whereValue recs res =
       select_loop db now colIdx whereIdx whereValue (unexpired now recs) res) /\
    (forall t colIdx st,
       min_loop t now colIdx recs st = min_loop t now colIdx (unexpired now recs) st) /\
    (forall t colIdx st,
       max_loop t now colIdx recs st = max_loop t now colIdx (unexpired now recs) st)).
  { unfold unexpired. induction recs as [|r recs IH]; [repeat split|].
    destruct IH as (I1 & I2 & I3 & I5 & I6).
    simpl List.filter.
    destruct (isRecordExpired now (expiryMillis r)) eqn:Hexp; simpl negb; cbv iota.
    - repeat split; intros; simpl; rewrite Hexp, ?andb_false_r, ?orb_true_r; simpl; auto.
    - repeat split; intros; simpl; rewrite Hexp;
        rewrite <- ?I1, <- ?I2, <- ?I3, <- ?I5, <- ?I6; reflexivity. }
  destruct Hloops as (L1 & L2 & L3 & L5 & L6).
  split; [exact L1|]. split; [exact L2|]. split; [exact L3|]. split.
  { intros whereIdx whereValue k cells.
    rewrite !(selectAll_fill_steady db (fun _ => now) now) by apply steady_const.
    unfold unexpired. rewrite filter_filter_sub; [reflexivity|].
    intros x Hx. apply andb_true_iff in Hx as [Hx _]. apply Hlive. exact Hx. }
  split; [exact L5|]. split; [exact L6|].
  intros returnCount k resultIdx cells.
  rewrite !(top_fill_steady db (fun _ => now) now) by apply steady_const.
  unfold unexpired. rewrite (filter_filter_sub (live now)); [reflexivity | exact Hlive].
Qed.

(** [update] and [updateWithMath] leave an expired record as it is. *)
Lemma update_loop_keeps_expired db now whereIdx whereValue setIdx setValue recs h updated i r :
  recs !! i = Some r -> isRecordExpired now (expiryMillis r) = true ->
  (update_loop db now whereIdx whereValue setIdx setValue recs h updated).1.1.2 !! i = Some r.
Proof.
  revert h updated i. induction recs as [|x recs IH]; intros h updated i Hi Hexp;
    [discriminate|].
  simpl.
  destruct (negb (isValid x) || isRecordExpired now (expiryMillis x)) eqn:Hskip.
  - specialize (IH h updated).
    destruct (update_loop db now whereIdx whereValue setIdx setValue recs h updated)
      as [[[e rest] h'] u].
    destruct i as [|i]; [exact Hi|]. apply (IH i Hi Hexp).
  - destruct i as [|i].
    { injection Hi as ->. rewrite Hexp, orb_true_r in Hskip. discriminate. }
    destruct (matches db whereIdx whereValue x).
    + destruct (match column_type db setIdx, get_string (field_or_zero x setIdx) with
                | IMDB_TYPE_STRING, Some s => (stringValue None, free (string_size s) h)
                | _, _ => (field_or_zero x setIdx, h)
                end) as [cleared h1].
      destruct (copyFieldValue cleared setValue (column_type db setIdx) h1) as [[result f] h2].
      specialize (IH h2 true i Hi Hexp).
      destruct (update_loop db now whereIdx whereValue setIdx setValue recs h2 true)
        as [[[e rest] h'] u].
      destruct result; simpl; solve [exact IH | exact Hi].
    + specialize (IH h updated i Hi Hexp).
      destruct (update_loop db now whereIdx whereValue setIdx setValue recs h updated)
        as [[[e rest] h'] u].
      exact IH.
Qed.

Lemma math_loop_keeps_expired db now whereIdx whereValue setIdx operation operand recs updated i r :
  recs !! i = Some r -> isRecordExpired now (expiryMillis r) = true ->
  (math_loop db now whereIdx whereValue setIdx operation operand recs updated).1.2 !! i = Some r.
Proof.
  revert updated i. induction recs as [|x recs IH]; intros updated i Hi Hexp; [discriminate|].
  simpl.
  destruct (negb (isValid x) || isRecordExpired now (expiryMillis x)) eqn:Hskip.
  - specialize (IH updated).
    destruct (math_loop db now whereIdx whereValue setIdx operation operand recs updated)
      as [[e rest] u].
    destruct i as [|i]; [exact Hi|]. apply (IH i Hi Hexp).
  - destruct i as [|i].
    { injection Hi as ->. rewrite Hexp, orb_true_r in Hskip. discriminate. }
    destruct (matches db whereIdx whereValue x).
    + destruct (apply_math (column_type db setIdx) (field_or_zero x setIdx) operation operand)
        as [result | f]; [exact Hi|].
      specialize (IH true i Hi Hexp).
      destruct (math_loop db now whereIdx whereValue setIdx operation operand recs true)
        as [[e rest] u].
      exact IH.
    + specialize (IH updated i Hi Hexp).
      destruct (math_loop db now whereIdx whereValue setIdx operation operand recs updated)
        as [[e rest] u].
      exact IH.
Qed.

(** *** Expired records and [deleteRecords] *)

(** C1 at a concrete store.  At clock 2000 the record [(2, "b")], whose expiry
    is 1100, is expired but not purged.  The scans that test the expiry treat
    it as absent ([count] sees one record, [countWhere] and [select] find no
    record with id 2, [update] finds nothing to update), but [deleteRecords],
    whose loop tests [isValid] only, matches it, frees it, removes it and
    answers OK. *)
Theorem deleteRecords_matches_expired :
  let db := Example.db2 in
  let h := Example.two_rows.2 in
  let id2 := Some (int32Value 2) in
  _records db =
    [mkRecord (Some [int32Value 1; stringValue (Some "a"%string)]) 0 true;
     mkRecord (Some [int32Value 2; stringValue (Some "b"%string)]) 1100 true] /\
  isRecordExpired 2000 1100 = true /\
  count db 2000 = 1 /\
  countWhere (Some "id"%string) id2 db 2000 = 0 /\
  (select (Some "name"%string) (Some "id"%string) id2 (Some fresh_result) db 2000).1
    = IMDB_ERROR_NO_RECORDS /\
  (update (Some "id"%string) id2 (Some "id"%string) (Some (int32Value 3)) db h 2000).1.1
    = IMDB_ERROR_NO_RECORDS /\
  (deleteRecords (Some "id"%string) id2 db h).1.1 = IMDB_OK /\
  _records (deleteRecords (Some "id"%string) id2 db h).1.2 =
    [mkRecord (Some [int32Value 1; stringValue (Some "a"%string)]) 0 true] /\
  freeBytes (deleteRecords (Some "id"%string) id2 db h).2 = freeBytes h + 16 + 2.
Proof. vm_compute. repeat split; reflexivity. Qed.

(** *** The heap-limit check *)

(** Closes the goals an early [return] of an operation leaves: the
    result, store and heap are then explicit. *)
Ltac early_return :=
  simpl; repeat split; try reflexivity; try discriminate; intros; congruence.

Lemma file_read_app (a rest : list Z) :
  file_read (Z.of_nat (length a)) (a ++ rest) = Some (a, rest).
Proof.
  unfold file_read. rewrite length_app, Nat2Z.id.
  destruct (Z.leb_spec (Z.of_nat (length a)) (Z.of_nat (length a + length rest))); [|lia].
  rewrite take_app_length, drop_app_length. reflexivity.
Qed.

Lemma checkHeapLimit_low h :
  freeBytes h < IMDB_MIN_HEAP_BYTES -> checkHeapLimit h = false.
Proof. unfold checkHeapLimit. intros H. apply Z.leb_gt. exact H. Qed.

(** The operations that carry the heap check.  [insert], [createTable] and
    [loadFromFile] test the free heap before their first allocation: when
    fewer than 30000 bytes are free they fail, make no request to the
    allocator and leave the store
    as it was; the error is HeapLimit whenever the tests that come before the
    heap test pass (the table exists and [values] is not null for [insert]; no
    table exists, [columns] is not null and the count is not 0 for
    [createTable]; the file name is not null, no table exists and the file is
    there with a good header for [loadFromFile]). *)
Theorem heap_limit_guard (h : Heap) (db : ESP32IMDB) :
  freeBytes h < IMDB_MIN_HEAP_BYTES ->
  (forall values ttlMillis now,
     (insert values ttlMillis db h now).1.1 <> IMDB_OK /\
     (insert values ttlMillis db h now).1.2 = db /\
     (insert values ttlMillis db h now).2 = h /\
     (_tableExists db = true -> values <> None ->
      (insert values ttlMillis db h now).1.1 = IMDB_ERROR_HEAP_LIMIT)) /\
  (forall columns columnCount,
     (createTable columns columnCount db h).1.1 <> IMDB_OK /\
     (createTable columns columnCount db h).1.2 = db /\
     (createTable columns columnCount db h).2 = h /\
     (_tableExists db = false -> columns <> None -> columnCount <> 0 ->
      (createTable columns columnCount db h).1.1 = IMDB_ERROR_HEAP_LIMIT)) /\
  (forall filename fs now,
     exists result,
       loadFromFile filename db h fs now = Some (result, db, h) /\
       result <> IMDB_OK /\
       (forall path data,
          filename = Some path -> _tableExists db = false ->
          files fs !! c_str path = Some data -> has_header data ->
          result = IMDB_ERROR_HEAP_LIMIT)).
Proof.
  intros Hlow. pose proof (checkHeapLimit_low h Hlow) as Hcheck.
  split; [|split].
  - intros values ttlMillis now. unfold insert.
    destruct (_tableExists db); simpl; [|early_return].
    destruct values as [vals|]; [|early_return].
    rewrite Hcheck. early_return.
  - intros columns columnCount. unfold createTable.
    destruct (_tableExists db); [early_return|].
    destruct columns as [cols|]; [|early_return].
    destruct (Z.eqb_spec columnCount 0); [early_return|].
    rewrite Hcheck. early_return.
  - intros filename fs now. unfold loadFromFile.
    destruct filename as [path|];
      [|eexists; split; [reflexivity|split; [discriminate|intros; congruence]]].
    destruct (_tableExists db);
      [eexists; split; [reflexivity|split; [discriminate|intros; congruence]]|].
    destruct (files fs !! c_str path) as [data|] eqn:Hfile;
      [|eexists; split; [reflexivity|split; [discriminate|intros; congruence]]].
    assert (Hgood : has_header data ->
      exists result,
        match file_read 4 data with
        | Some (m, data1) =>
            if negb (bool_decide (m = magic)) then Some (IMDB_ERROR_CORRUPT_FILE, db, h)
            else
              match file_read 1 data1 with
              | Some (version, data2) =>
                  if negb (le_value version =? 1) then Some (IMDB_ERROR_CORRUPT_FILE, db, h)
                  else
                    match file_read 1 data2 with
                    | Some (cc, data3) =>
                        match file_read 2 data3 with
                        | Some (rc, data4) =>
                            match file_read 4 data4 with
                            | Some (sm, data5) => Some (IMDB_ERROR_HEAP_LIMIT, db, h)
                            | None => Some (IMDB_ERROR_CORRUPT_FILE, db, h)
                            end
                        | None => Some (IMDB_ERROR_CORRUPT_FILE, db, h)
                        end
                    | None => Some (IMDB_ERROR_CORRUPT_FILE, db, h)
                    end
              | None => Some (IMDB_ERROR_CORRUPT_FILE, db, h)
              end
        | None => Some (IMDB_ERROR_CORRUPT_FILE, db, h)
        end = Some (result, db, h) /\ result = IMDB_ERROR_HEAP_LIMIT).
    { intros (cc & rc & sm & rest & Hrc & Hsm & ->).
      exists IMDB_ERROR_HEAP_LIMIT. split; [|reflexivity].
      rewrite (file_read_app magic). simpl negb. cbv iota.
      rewrite (file_read_app [1]). simpl negb. cbv iota.
      rewrite (file_read_app [cc]).
      change 2 with (Z.of_nat 2). rewrite <- Hrc, file_read_app.
      change 4 with (Z.of_nat 4). rewrite <- Hsm, file_read_app. reflexivity. }
    rewrite Hcheck. simpl negb. cbv iota.
    destruct (file_read 4 data) as [[m data1]|];
      [|eexists; split; [reflexivity|split; [discriminate|]];
        intros p d [= <-] _ Hd Hh; rewrite Hfile in Hd; injection Hd as <-;
        destruct (Hgood Hh) as (r & Hr & ->); discriminate].
    destruct (negb (bool_decide (m = magic)));
      [eexists; split; [reflexivity|split; [discriminate|]];
        intros p d [= <-] _ Hd Hh; rewrite Hfile in Hd; injection Hd as <-;
        destruct (Hgood Hh) as (r & Hr & ->); discriminate|].
    destruct (file_read 1 data1) as [[version data2]|];
      [|eexists; split; [reflexivity|split; [discriminate|]];
        intros p d [= <-] _ Hd Hh; rewrite Hfile in Hd; injection Hd as <-;
        destruct (Hgood Hh) as (r & Hr & ->); discriminate].
    destruct (negb (le_value version =? 1));
      [eexists; split; [reflexivity|split; [discriminate|]];
        intros p d [= <-] _ Hd Hh; rewrite Hfile in Hd; injection Hd as <-;
        destruct (Hgood Hh) as (r & Hr & ->); discriminate|].
    destruct (file_read 1 data2) as [[cc data3]|];
      [|eexists; split; [reflexivity|split; [discriminate|]];
        intros p d [= <-] _ Hd Hh; rewrite Hfile in Hd; injection Hd as <-;
        destruct (Hgood Hh) as (r & Hr & ->); discriminate].
    destruct (file_read 2 data3) as [[rc data4]|];
      [|eexists; split; [reflexivity|split; [discriminate|]];
        intros p d [= <-] _ Hd Hh; rewrite Hfile in Hd; injection Hd as <-;
        destruct (Hgood Hh) as (r & Hr & ->); discriminate].
    destruct (file_read 4 data4) as [[sm data5]|];
      [|eexists; split; [reflexivity|split; [discriminate|]];
        intros p d [= <-] _ Hd Hh; rewrite Hfile in Hd; injection Hd as <-;
        destruct (Hgood Hh) as (r & Hr & ->); discriminate].
    eexists; split; [reflexivity|split; [discriminate|reflexivity]].
Qed.

Lemma heap_limit_guard_witness :
  (insert (Example.row 3 "c") 0 Example.db2 Example.low_heap 1000).1.1
    = IMDB_ERROR_HEAP_LIMIT /\
  (insert (Example.row 3 "c") 0 Example.db2 Example.low_heap 1000).2 = Example.low_heap.
Proof.
  assert (Hlow : freeBytes Example.low_heap < IMDB_MIN_HEAP_BYTES) by (vm_compute; reflexivity).
  pose proof (heap_limit_guard Example.low_heap Example.db2 Hlow) as (Hinsert & _ & _).
  destruct (Hinsert (Example.row 3 "c") 0 1000) as (_ & _ & Hheap & Hcode).
  split; [|exact Hheap].
  apply Hcode; [reflexivity|discriminate].
Defined.

(** C2.  The check is missing from three of the operations that allocate.
    With 20000 bytes free, below the minimum of 30000, the free-heap test
    fails and [insert] and [createTable] return the heap-limit error without
    a request to the allocator; [update], [selectAll] and [top] each make one
    request to the allocator, are granted it and return OK.  ([updateWithMath]
    returns OK too; it allocates nothing.) *)
Theorem no_heap_check_in_update_and_queries :
  let h := Example.low_heap in
  let db := Example.db2 in
  let id1 := Some (int32Value 1) in
  let millis := fun _ : nat => 1000 in
  freeBytes h = 20000 /\
  checkHeapLimit h = false /\
  (insert (Example.row 3 "c") 0 db h 1000).1.1 = IMDB_ERROR_HEAP_LIMIT /\
  requests (insert (Example.row 3 "c") 0 db h 1000).2 = requests h /\
  (createTable (Some Example.schema) 2 new_ESP32IMDB h).1.1 = IMDB_ERROR_HEAP_LIMIT /\
  requests (createTable (Some Example.schema) 2 new_ESP32IMDB h).2 = requests h /\
  (update (Some "id"%string) id1 (Some "name"%string)
          (Some (stringValue (Some "zzz"%string))) db h 1000).1.1 = IMDB_OK /\
  requests (update (Some "id"%string) id1 (Some "name"%string)
              (Some (stringValue (Some "zzz"%string))) db h 1000).2 = S (requests h) /\
  (updateWithMath (Some "id"%string) id1 (Some "id"%string) IMDB_MATH_ADD 10 db 1000).1
    = IMDB_OK /\
  (selectAll (Some "id"%string) id1 valid_ptr valid_ptr db h millis).1.1 = IMDB_OK /\
  requests (selectAll (Some "id"%string) id1 valid_ptr valid_ptr db h millis).2
    = S (requests h) /\
  (top 2 valid_ptr valid_ptr db h millis).1.1 = IMDB_OK /\
  requests (top 2 valid_ptr valid_ptr db h millis).2 = S (requests h).
Proof. vm_compute. repeat split; reflexivity. Qed.

(** *** Saving and loading an empty string *)

(** C3 at a concrete store.  The table of [Example.schema] holds the one
    record [(7, "")], inserted without TTL.  [saveToFile] and then
    [loadFromFile] into a fresh store both return OK and the record count is
    kept, but the string field, a buffer holding the empty string before,
    comes back as a null pointer: the file has its length byte 0, and the
    loader allocates nothing for length 0.  [compareValues] never matches a
    null string, so the where clause [name = ""] counts one record before the
    save and none after the load. *)
Theorem empty_string_reloads_as_null :
  let db := Example.empty_string_row.1.2 in
  let h := Example.empty_string_row.2 in
  let saved := saveToFile (Some "/db"%string) db h Example.flash 1000 in
  let empty := Some (stringValue (Some ""%string)) in
  Example.empty_string_row.1.1 = IMDB_OK /\
  saved.1.1.1 = IMDB_OK /\
  exists db' h',
    loadFromFile (Some "/db"%string) new_ESP32IMDB saved.1.2 saved.2 1000
      = Some (IMDB_OK, db', h') /\
    count db 1000 = 1 /\ count db' 1000 = 1 /\
    map fields (_records db) = [Some [int32Value 7; stringValue (Some ""%string)]] /\
    map fields (_records db') = [Some [int32Value 7; stringValue None]] /\
    countWhere (Some "name"%string) empty db 1000 = 1 /\
    countWhere (Some "name"%string) empty db' 1000 = 0.
Proof.
  cbv zeta. split; [reflexivity|]. split; [vm_compute; reflexivity|].
  eexists. eexists. split; [vm_compute; reflexivity|].
  vm_compute. repeat split; reflexivity.
Qed.

(** *** [min] and [max] on integer columns *)

Lemma to_uint32_to_int32 v : to_uint32 (to_int32 v) = to_uint32 v.
Proof.
  unfold to_uint32, to_int32, two31, two32. cbv zeta.
  destruct (Z.ltb_spec (v mod 2 ^ 32) (2 ^ 31)).
  - apply Z.mod_mod. lia.
  - replace (v mod 2 ^ 32 - 2 ^ 32) with (v mod 2 ^ 32 + (-1) * 2 ^ 32) by lia.
    rewrite Z.mod_add by lia. apply Z.mod_mod. lia.
Qed.

Lemma to_int32_to_uint32 v : to_int32 (to_uint32 v) = to_int32 v.
Proof. unfold to_int32, to_uint32. rewrite Z.mod_mod; [reflexivity|]. unfold two32. lia. Qed.

Lemma get_epoch_of_int32 f : to_uint32 (get_int32 f) = get_epoch f.
Proof. destruct f; simpl; try reflexivity; apply to_uint32_to_int32. Qed.

Lemma get_int32_of_epoch f : to_int32 (get_epoch f) = get_int32 f.
Proof. destruct f; simpl; try reflexivity; apply to_int32_to_uint32. Qed.

Section Extremum.

(** [better v x] is the test of the loop for "[v] replaces [x]", and
    [before] the order it decides: [Z.lt] for [min], [Z.gt] for [max]. *)
Variable better : Z -> Z -> bool.
Variable before : Z -> Z -> Prop.
Hypothesis before_refl : forall x, before x x.
Hypothesis before_trans : forall x y z, before x y -> before y z -> before x z.
Hypothesis better_true : forall v x, better v x = true -> before v x.
Hypothesis better_false : forall v x, better v x = false -> before x v.

Lemma extremum_step_spec (st : extremum) (v : Z) :
  ext_hasValue st = true ->
  ext_hasValue (extremum_step better st v) = true /\
  before (ext_int (extremum_step better st v)) (ext_int st) /\
  (ext_int (extremum_step better st v) = ext_int st \/
   ext_int (extremum_step better st v) = v) /\
  before (ext_int (extremum_step better st v)) v.
Proof.
  intros Hhas. unfold extremum_step. rewrite Hhas. simpl.
  destruct (better v (ext_int st)) eqn:Hb; simpl.
  - split; [reflexivity|]. split; [apply better_true; exact Hb|].
    split; [right; reflexivity|apply before_refl].
  - split; [exact Hhas|]. split; [apply before_refl|].
    split; [left; reflexivity|apply better_false; exact Hb].
Qed.

Lemma fold_extremum_from (vals : list Z) (st : extremum) :
  ext_hasValue st = true ->
  let st' := fold_left (extremum_step better) vals st in
  ext_hasValue st' = true /\
  before (ext_int st') (ext_int st) /\
  (ext_int st' = ext_int st \/ In (ext_int st') vals) /\
  (forall v, In v vals -> before (ext_int st') v).
Proof.
  revert st. induction vals as [|v vals IH]; intros st Hhas; cbn [fold_left]; cbv zeta.
  - split; [exact Hhas|]. split; [apply before_refl|]. split; [left; reflexivity|].
    intros w [].
  - destruct (extremum_step_spec st v Hhas) as (S1 & S2 & S3 & S4).
    destruct (IH _ S1) as (H1 & H2 & H3 & H4). cbv zeta in H1, H2, H3, H4.
    split; [exact H1|]. split; [eapply before_trans; [exact H2|exact S2]|]. split.
    + destruct H3 as [H3 | H3].
      * rewrite H3. destruct S3 as [S3 | S3];
          [left; exact S3|right; left; symmetry; exact S3].
      * right. right. exact H3.
    + intros w [<- | Hw]; [eapply before_trans; [exact H2|exact S4]|apply H4; exact Hw].
Qed.

Lemma fold_extremum (vals : list Z) (st : extremum) :
  ext_hasValue st = false -> vals <> [] ->
  let st' := fold_left (extremum_step better) vals st in
  ext_hasValue st' = true /\ In (ext_int st') vals /\
  (forall v, In v vals -> before (ext_int st') v).
Proof.
  intros Hnone Hvals. destruct vals as [|v vals]; [congruence|].
  cbn [fold_left]; cbv zeta.
  assert (Hfirst : extremum_step better st v = mkExtremum true v (ext_float st)).
  { unfold extremum_step. rewrite Hnone. reflexivity. }
  rewrite Hfirst.
  destruct (fold_extremum_from vals (mkExtremum true v (ext_float st)) eq_refl)
    as (H1 & H2 & H3 & H4).
  cbv zeta in H1, H2, H3, H4. cbn [ext_int] in H2, H3.
  split; [exact H1|]. split.
  - destruct H3 as [H3 | H3]; [left; symmetry; exact H3|right; exact H3].
  - intros w [<- | Hw]; [exact H2|apply H4; exact Hw].
Qed.

End Extremum.

Lemma min_loop_fold t now colIdx recs st :
  t <> IMDB_TYPE_FLOAT ->
  min_loop t now colIdx recs st =
  fold_left (extremum_step Z.ltb) (map get_int32 (live_values now colIdx recs)) st.
Proof.
  intros Ht. unfold live_values. revert st.
  induction recs as [|r recs IH]; intros st; simpl; [reflexivity|].
  rewrite live_skip. destruct (live now r); simpl; [|apply IH].
  rewrite IH. f_equal. destruct t; try reflexivity. congruence.
Qed.

Lemma max_loop_fold t now colIdx recs st :
  t <> IMDB_TYPE_FLOAT ->
  max_loop t now colIdx recs st =
  fold_left (extremum_step (fun v x => x <? v)) (map get_int32 (live_values now colIdx recs)) st.
Proof.
  intros Ht. unfold live_values. revert st.
  induction recs as [|r recs IH]; intros st; simpl; [reflexivity|].
  rewrite live_skip. destruct (live now r); simpl; [|apply IH].
  rewrite IH. f_equal. destruct t; try reflexivity. congruence.
Qed.

(** What [min] and [max] return on an Epoch column that has a live value. *)
Lemma aggregate_epoch loop init column res db now :
  _tableExists db = true ->
  0 <= findColumnIndex db column ->
  column_type db (findColumnIndex db column) = IMDB_TYPE_EPOCH ->
  let st := loop IMDB_TYPE_EPOCH now (findColumnIndex db column) (_records db) init in
  ext_hasValue st = true ->
  exists out,
    aggregate loop init (Some column) (Some res) db now = (IMDB_OK, Some out) /\
    epochValue_r out = to_uint32 (ext_int st) /\ type_r out = IMDB_TYPE_EPOCH.
Proof.
  intros Ht Hidx Htype st Hhas. unfold aggregate. rewrite Ht. simpl.
  destruct (Z.ltb_spec (findColumnIndex db column) 0); [lia|].
  rewrite Htype. simpl. fold st. rewrite Hhas. simpl.
  eexists. split; [reflexivity|]. split; reflexivity.
Qed.

(** C9.  On a column of type Epoch, [min] and [max] order the stored unsigned
    32-bit values by their signed two's-complement reading: whenever a live
    value exists, [min] returns a live value whose signed reading is below or
    equal to that of every live value, and [max] one whose signed reading is
    above or equal.  In the store [Example.epoch_db], which holds the epochs 1
    and [2^31], [min] therefore returns [2^31] and [max] returns 1. *)
Theorem epoch_extrema_are_signed (column : string) (res : IMDBSelectResult)
    (db : ESP32IMDB) (now : Z) :
  _tableExists db = true ->
  0 <= findColumnIndex db column ->
  column_type db (findColumnIndex db column) = IMDB_TYPE_EPOCH ->
  let epochs := map get_epoch (live_values now (findColumnIndex db column) (_records db)) in
  epochs <> [] ->
  (exists lo, min (Some column) (Some res) db now = (IMDB_OK, Some lo) /\
     In (epochValue_r lo) epochs /\
     forall v, In v epochs -> to_int32 (epochValue_r lo) <= to_int32 v) /\
  (exists hi, max (Some column) (Some res) db now = (IMDB_OK, Some hi) /\
     In (epochValue_r hi) epochs /\
     forall v, In v epochs -> to_int32 v <= to_int32 (epochValue_r hi)) /\
  (exists lo hi,
     In (epochValue 1) (live_values 1000 0 (_records Example.epoch_db)) /\
     In (epochValue (2 ^ 31)) (live_values 1000 0 (_records Example.epoch_db)) /\
     min (Some "t"%string) (Some res) Example.epoch_db 1000 = (IMDB_OK, Some lo) /\
     epochValue_r lo = 2 ^ 31 /\
     max (Some "t"%string) (Some res) Example.epoch_db 1000 = (IMDB_OK, Some hi) /\
     epochValue_r hi = 1).
Proof.
  intros Ht Hidx Htype epochs Hlive.
  set (lv := live_values now (findColumnIndex db column) (_records db)) in *.
  assert (Hints : map get_int32 lv <> []).
  { intros H. apply Hlive. unfold epochs. destruct lv; [reflexivity|discriminate]. }
  assert (Hback : forall m, In m (map get_int32 lv) -> In (to_uint32 m) epochs).
  { intros m Hm. apply in_map_iff in Hm as (f & <- & Hf).
    rewrite get_epoch_of_int32. unfold epochs. apply in_map. exact Hf. }
  assert (Hforth : forall v, In v epochs -> In (to_int32 v) (map get_int32 lv)).
  { intros v Hv. apply in_map_iff in Hv as (f & <- & Hf).
    rewrite get_int32_of_epoch. apply in_map. exact Hf. }
  assert (Hfix : forall m, In m (map get_int32 lv) -> to_int32 (to_uint32 m) = m).
  { intros m Hm. apply in_map_iff in Hm as (f & <- & Hf).
    rewrite get_epoch_of_int32. apply get_int32_of_epoch. }
  split; [|split].
  - pose proof (fold_extremum Z.ltb Z.le
        ltac:(intros x; lia) ltac:(intros x y z; lia)
        ltac:(intros v x H; apply Z.ltb_lt in H; lia)
        ltac:(intros v x H; apply Z.ltb_ge in H; lia)
        (map get_int32 lv) (mkExtremum false 2147483647 Float32.FLT_MAX) eq_refl Hints)
      as (Hhas & Hin & Hle).
    cbv zeta in Hhas, Hin, Hle. unfold lv in Hhas, Hin, Hle.
    rewrite <- (min_loop_fold IMDB_TYPE_EPOCH now (findColumnIndex db column)) in Hhas, Hin, Hle by discriminate.
    destruct (aggregate_epoch min_loop (mkExtremum false 2147483647 Float32.FLT_MAX)
                column res db now Ht Hidx Htype Hhas) as (out & Hout & Hval & _).
    exists out. split; [exact Hout|]. rewrite Hval. split.
    + apply Hback. exact Hin.
    + intros v Hv. rewrite (Hfix _ Hin). apply Hle, Hforth, Hv.
  - pose proof (fold_extremum (fun v x => x <? v) (fun a b => b <= a)
        ltac:(intros x; cbv beta; lia) ltac:(intros x y z; cbv beta; lia)
        ltac:(intros v x H; cbv beta in *; apply Z.ltb_lt in H; lia)
        ltac:(intros v x H; cbv beta in *; apply Z.ltb_ge in H; lia)
        (map get_int32 lv) (mkExtremum false (to_int32 2147483648) Float32.neg_FLT_MAX)
        eq_refl Hints)
      as (Hhas & Hin & Hle).
    cbv zeta in Hhas, Hin, Hle. unfold lv in Hhas, Hin, Hle.
    rewrite <- (max_loop_fold IMDB_TYPE_EPOCH now (findColumnIndex db column)) in Hhas, Hin, Hle by discriminate.
    destruct (aggregate_epoch max_loop (mkExtremum false (to_int32 2147483648) Float32.neg_FLT_MAX)
                column res db now Ht Hidx Htype Hhas) as (out & Hout & Hval & _).
    exists out. split; [exact Hout|]. rewrite Hval. split.
    + apply Hback. exact Hin.
    + intros v Hv. rewrite (Hfix _ Hin). apply Hle, Hforth, Hv.
  - destruct res as [i m s e b f t hv].
    eexists. eexists. split; [left; reflexivity|]. split; [right; left; reflexivity|].
    split; [reflexivity|]. split; [reflexivity|]. split; reflexivity.
Qed.

Lemma epoch_extrema_are_signed_witness :
  exists lo, min (Some "t"%string) (Some fresh_result) Example.epoch_db 1000 = (IMDB_OK, Some lo) /\
    forall v, In v [1; 2147483648] -> to_int32 (epochValue_r lo) <= to_int32 v.
Proof.
  assert (Hidx : 0 <= findColumnIndex Example.epoch_db "t") by (vm_compute; discriminate).
  assert (Hlive : map get_epoch (live_values 1000 (findColumnIndex Example.epoch_db "t")
                                   (_records Example.epoch_db)) <> [])
    by (vm_compute; discriminate).
  destruct (epoch_extrema_are_signed "t" fresh_result Example.epoch_db 1000
              eq_refl Hidx eq_refl Hlive) as ((lo & Hmin & _ & Hle) & _).
  exists lo. split; [exact Hmin|]. exact Hle.
Defined.

(** *** Compaction *)

Lemma drop_lookup_head {A} (l l' : list A) (n : nat) :
  drop n l = drop n l' -> l !! n = l' !! n.
Proof.
  intros H. rewrite <- (Nat.add_0_r n) at 1 2.
  rewrite <- !lookup_drop, H. reflexivity.
Qed.

Lemma drop_succ_eq {A} (l l' : list A) (n : nat) :
  drop n l = drop n l' -> drop (S n) l = drop (S n) l'.
Proof.
  intros H. rewrite <- (Nat.add_1_r n), <- !drop_drop, H. reflexivity.
Qed.

Lemma filter_take_succ {A} (p : A -> bool) (l : list A) (n : nat) (x : A) :
  l !! n = Some x ->
  List.filter p (take (S n) l) =
  List.filter p (take n l) ++ (if p x then [x] else []).
Proof.
  intros H. rewrite (take_S_r _ _ _ H), List.filter_app. reflexivity.
Qed.

Lemma compact_loop_inv orig k readIndex writeIndex recs :
  (readIndex + k = length orig)%nat ->
  compact_inv orig readIndex writeIndex recs ->
  compact_inv orig (length orig) (compact_loop k readIndex writeIndex recs).1
              (compact_loop k readIndex writeIndex recs).2.
Proof.
  revert readIndex writeIndex recs.
  induction k as [|k IH]; intros rd w recs Hk (Hle & Hlen & Htake & Hdrop); simpl.
  - replace (length orig) with rd by lia. repeat split; assumption.
  - assert (Hrd : (rd < length orig)%nat) by lia.
    destruct (lookup_lt_is_Some_2 orig rd Hrd) as [r Hr].
    assert (Hr' : recs !! rd = Some r) by (rewrite (drop_lookup_head _ _ _ Hdrop); exact Hr).
    rewrite Hr'. destruct (isValid r) eqn:Hvalid.
    + apply IH; [lia|]. destruct (Nat.eqb_spec w rd) as [-> | Hne].
      * repeat split.
        -- lia.
        -- exact Hlen.
        -- rewrite (take_S_r _ _ _ Hr'), Htake, (filter_take_succ _ _ _ _ Hr), Hvalid.
           reflexivity.
        -- apply drop_succ_eq. exact Hdrop.
      * assert (Hw : (w < rd)%nat) by lia. repeat split.
        -- lia.
        -- rewrite !length_insert. exact Hlen.
        -- rewrite take_insert_ge by lia.
           rewrite (take_S_r _ _ r) by (apply list_lookup_insert_eq; lia).
           rewrite take_insert_ge by lia.
           rewrite Htake, (filter_take_succ _ _ _ _ Hr), Hvalid. reflexivity.
        -- rewrite !drop_insert_lt by lia. apply drop_succ_eq. exact Hdrop.
    + apply IH; [lia|]. repeat split.
      * lia.
      * exact Hlen.
      * rewrite Htake, (filter_take_succ _ _ _ _ Hr), Hvalid, app_nil_r. reflexivity.
      * apply drop_succ_eq. exact Hdrop.
Qed.

Lemma compactRecords_filter db :
  _records (compactRecords db) = List.filter isValid (_records db).
Proof.
  unfold compactRecords.
  assert (Hstart : compact_inv (_records db) 0 0 (_records db)).
  { unfold compact_inv. repeat split; auto. }
  pose proof (compact_loop_inv (_records db) (length (_records db)) 0 0 (_records db)
                eq_refl Hstart) as Hinv.
  destruct (compact_loop (length (_records db)) 0 0 (_records db)) as [w recs].
  destruct Hinv as (_ & _ & Htake & _).
  simpl in *. rewrite Htake, firstn_all. reflexivity.
Qed.

(** The records [deleteRecords] leaves before it compacts. *)
Lemma delete_loop_spec db whereIdx whereValue recs h deleted :
  (delete_loop db whereIdx whereValue recs h deleted).1.1 =
    map (fun r => if isValid r && matches db whereIdx whereValue r
                  then mkRecord None (expiryMillis r) false else r) recs /\
  (delete_loop db whereIdx whereValue recs h deleted).2 =
    deleted || existsb (fun r => isValid r && matches db whereIdx whereValue r) recs.
Proof.
  revert h deleted. induction recs as [|r recs IH]; intros h deleted; simpl.
  - rewrite orb_false_r. split; reflexivity.
  - destruct (isValid r) eqn:Hvalid; simpl.
    + destruct (matches db whereIdx whereValue r) eqn:Hm.
      * destruct (freeRecord db r h) as [r' h1] eqn:Hfree.
        specialize (IH h1 true).
        destruct (delete_loop db whereIdx whereValue recs h1 true) as [[rest h'] d].
        simpl in *. destruct IH as [-> ->]. rewrite orb_true_r. split; [|reflexivity].
        f_equal. unfold freeRecord in Hfree. unfold invalidate.
        destruct r as [[fs|] e v]; simpl in *; injection Hfree as <- _; reflexivity.
      * specialize (IH h deleted).
        destruct (delete_loop db whereIdx whereValue recs h deleted) as [[rest h'] d].
        simpl in *. destruct IH as [-> ->]. split; reflexivity.
    + specialize (IH h deleted).
      destruct (delete_loop db whereIdx whereValue recs h deleted) as [[rest h'] d].
      simpl in *. destruct IH as [-> ->]. split; reflexivity.
Qed.

Lemma filter_map_kept {A} (p q : A -> bool) (g : A -> A) (l : list A) :
  (forall x, q x = true -> p (g x) = false) ->
  List.filter p (map (fun x => if q x then g x else x) l) =
  List.filter (fun x => p x && negb (q x)) l.
Proof.
  intros Hg. induction l as [|x l IH]; simpl; [reflexivity|].
  destruct (q x) eqn:Hq.
  - rewrite (Hg x Hq), andb_false_r. exact IH.
  - rewrite andb_true_r. destruct (p x); rewrite IH; reflexivity.
Qed.

Lemma filter_all_but {A} (p : A -> bool) (l : list A) (k : nat) (x : A) :
  l !! k = Some x -> p x = false ->
  (forall j y, j <> k -> l !! j = Some y -> p y = true) ->
  List.filter p l = take k l ++ drop (S k) l.
Proof.
  revert k. induction l as [|a l IH]; intros k Hk Hx Hothers; [discriminate|].
  destruct k as [|k]; simpl in *.
  - injection Hk as ->. rewrite Hx.
    clear IH. induction l as [|b l IHl]; simpl; [reflexivity|].
    rewrite (Hothers 1%nat b ltac:(lia) eq_refl). f_equal.
    apply IHl. intros [|j] y Hj Hy; [congruence|].
    apply (Hothers (S (S j)) y); [lia|exact Hy].
  - rewrite (Hothers 0%nat a ltac:(lia) eq_refl). f_equal.
    apply (IH k Hk Hx). intros j y Hj Hy. apply (Hothers (S j) y); [lia|exact Hy].
Qed.

(** C6.  After [compactRecords] the record array holds exactly the records
    that were valid, in the order they had (it is the array filtered by
    [isValid]), and the record count is their number.  In particular, when all
    [n] records are valid and [deleteRecords] is called with a where clause
    that only the record at index [k] matches, the call returns OK and leaves
    the other [n-1] records in their order: the records before [k] followed by
    those after [k]. *)
Theorem compaction_preserves_order (db : ESP32IMDB) :
  _records (compactRecords db) = List.filter isValid (_records db) /\
  _recordCount (compactRecords db)
    = Z.of_nat (length (List.filter isValid (_records db))) /\
  (forall column value h k r,
     _tableExists db = true ->
     0 <= findColumnIndex db column ->
     (forall x, In x (_records db) -> isValid x = true) ->
     _records db !! k = Some r ->
     matches db (findColumnIndex db column) value r = true ->
     (forall j y, j <> k -> _records db !! j = Some y ->
                  matches db (findColumnIndex db column) value y = false) ->
     (deleteRecords (Some column) (Some value) db h).1.1 = IMDB_OK /\
     _records (deleteRecords (Some column) (Some value) db h).1.2
       = take k (_records db) ++ drop (S k) (_records db) /\
     _recordCount (deleteRecords (Some column) (Some value) db h).1.2
       = _recordCount db - 1).
Proof.
  split; [apply compactRecords_filter|]. split.
  { unfold _recordCount. rewrite compactRecords_filter. reflexivity. }
  intros column value h k r Ht Hidx Hvalid Hk Hm Hothers.
  set (whereIdx := findColumnIndex db column) in *.
  assert (Hrun :
    (deleteRecords (Some column) (Some value) db h).1.1 = IMDB_OK /\
    _records (deleteRecords (Some column) (Some value) db h).1.2
      = take k (_records db) ++ drop (S k) (_records db)).
  { unfold deleteRecords. rewrite Ht. simpl. fold whereIdx.
    destruct (Z.ltb_spec whereIdx 0); [lia|].
    pose proof (delete_loop_spec db whereIdx value (_records db) h false) as [Hrecs Hflag].
    destruct (delete_loop db whereIdx value (_records db) h false) as [[recs h'] deleted].
    simpl in Hrecs, Hflag. subst recs deleted.
    replace (existsb _ (_records db)) with true.
    2:{ symmetry. apply existsb_exists. exists r. split.
        - apply list_elem_of_In, list_elem_of_lookup. exists k. exact Hk.
        - rewrite Hm, (Hvalid r); [reflexivity|].
          apply list_elem_of_In, list_elem_of_lookup. exists k. exact Hk. }
    simpl. split; [reflexivity|].
    rewrite compactRecords_filter. simpl.
    rewrite (filter_map_kept isValid
               (fun r => isValid r && matches db whereIdx value r)
               (fun r => mkRecord None (expiryMillis r) false)) by reflexivity.
    apply (filter_all_but _ _ k r Hk).
    - rewrite Hm, andb_true_r. destruct (isValid r); reflexivity.
    - intros j y Hj Hy. rewrite (Hothers j y Hj Hy), andb_false_r. simpl.
      rewrite andb_true_r. apply Hvalid.
      apply list_elem_of_In, list_elem_of_lookup. exists j. exact Hy. }
  destruct Hrun as [Hcode Hrecs]. split; [exact Hcode|]. split; [exact Hrecs|].
  unfold _recordCount. rewrite Hrecs, length_app, length_take, length_drop.
  apply lookup_lt_Some in Hk. lia.
Qed.

Lemma compaction_preserves_order_witness :
  _records (deleteRecords (Some "id"%string) (Some (int32Value 1)) Example.db2
              Example.two_rows.2).1.2
  = take 0 (_records Example.db2) ++ drop 1 (_records Example.db2).
Proof.
  destruct (compaction_preserves_order Example.db2) as (_ & _ & Hdelete).
  apply (Hdelete "id"%string (int32Value 1) Example.two_rows.2 0%nat
           (mkRecord (Some [int32Value 1; stringValue (Some "a"%string)]) 0 true)).
  - reflexivity.
  - vm_compute. discriminate.
  - intros x [<- | [<- | []]]; reflexivity.
  - reflexivity.
  - reflexivity.
  - intros [|[|j]] y Hj Hy; [congruence| |discriminate].
    injection Hy as <-. reflexivity.
Defined.

(** *** [top] *)

Lemma row_of_length db r : length (row_of db r) = Z.to_nat (_columnCount db).
Proof. unfold row_of. rewrite length_map, length_seq. reflexivity. Qed.

Lemma row_of_lookup db r (j : nat) :
  (j < Z.to_nat (_columnCount db))%nat ->
  row_of db r !! j =
  Some (getFieldValue (field_at r (Z.of_nat j)) (column_type db (Z.of_nat j)) fresh_result).
Proof.
  intros Hj. unfold row_of. rewrite list_lookup_fmap, lookup_seq_lt by exact Hj.
  reflexivity.
Qed.

Lemma substring_all (s : string) (n : nat) :
  (String.length s <= n)%nat -> String.substring 0 n s = s.
Proof.
  revert n. induction s as [|c s IH]; intros n Hn; destruct n as [|n]; simpl in *;
    try reflexivity; try lia.
  rewrite IH by lia. reflexivity.
Qed.

(** What [getFieldValue] writes into a cell. *)
Lemma getFieldValue_holds f t cell : holds_field t f (getFieldValue (Some f) t cell).
Proof.
  unfold holds_field, getFieldValue.
  destruct t; try (repeat split; reflexivity).
  destruct (get_string f) as [str|]; cbn; (split; [reflexivity|]); (split; [reflexivity|]);
    [|reflexivity].
  unfold strncpy, strlen, IMDB_MAX_STRING_LENGTH.
  destruct (Z.le_gt_cases (Z.of_nat (String.length (c_str str))) 255) as [Hshort|Hlong].
  - rewrite Z.min_l by exact Hshort. rewrite Nat2Z.id.
    rewrite !substring_all by lia. reflexivity.
  - rewrite Z.min_r by lia. reflexivity.
Qed.

(** Every row has one cell per column, and cell [j] holds field [j] of the
    record, read at the type of column [j]. *)
Lemma row_of_holds db r (j : nat) :
  (j < Z.to_nat (_columnCount db))%nat ->
  length (row_of db r) = Z.to_nat (_columnCount db) /\
  exists cell,
    row_of db r !! j = Some cell /\
    forall f, field_at r (Z.of_nat j) = Some f ->
              holds_field (column_type db (Z.of_nat j)) f cell.
Proof.
  intros Hj. split; [apply row_of_length|].
  eexists. split; [apply row_of_lookup; exact Hj|].
  intros f ->. apply getFieldValue_holds.
Qed.

(** [top] while no record expires during the call.  When the table exists,
    [n >= 1] and some record is live (valid and not expired), [top(n)] asks
    for the result array and, once it has it, returns OK with
    [min(n, liveCount)] rows: the rows of the first [min(n, liveCount)] live
    records in store order, whatever their values.  A row has one cell per
    column, cell [j] holding field [j] of the record at the type of column
    [j].  (A refused allocation is the one other outcome: OutOfMemory.) *)
Lemma top_returns_first_live (n : Z) (db : ESP32IMDB) (h : Heap) (millis : nat -> Z) (now : Z) :
  _tableExists db = true ->
  1 <= n ->
  steady millis now (_records db) ->
  (exists r, In r (_records db) /\ live now r = true) ->
  let liveRecords := List.filter (live now) (_records db) in
  let returnCount := Z.min n (Z.of_nat (length liveRecords)) in
  top n valid_ptr valid_ptr db h millis =
    match malloc (size_t (sizeof_IMDBSelectResult * returnCount * _columnCount db)) h with
    | (true, h') =>
        (IMDB_OK,
         mkResultSet
           (stored (Some (concat (map (row_of db) (take (Z.to_nat returnCount) liveRecords)))))
           (stored returnCount),
         h')
    | (false, h') => (IMDB_ERROR_OUT_OF_MEMORY, mkResultSet (stored None) unwritten, h')
    end /\
  (forall r j, (j < Z.to_nat (_columnCount db))%nat ->
     length (row_of db r) = Z.to_nat (_columnCount db) /\
     exists cell,
       row_of db r !! j = Some cell /\
       forall f, field_at r (Z.of_nat j) = Some f ->
                 holds_field (column_type db (Z.of_nat j)) f cell).
Proof.
  intros Ht Hn Hsteady (r & Hin & Hlive) liveRecords returnCount.
  split; [|intros r' j Hj; apply row_of_holds; exact Hj].
  assert (Hcount : 0 < Z.of_nat (length liveRecords)).
  { assert (Hr : In r liveRecords) by (apply filter_In; split; assumption).
    destruct liveRecords; [destruct Hr|simpl; lia]. }
  unfold top. rewrite Ht. simpl.
  pose proof (top_count_steady millis now (_records db) 0 0 Hsteady) as Hpass.
  destruct (top_count millis (_records db) 0 0) as [validCount k]. cbn [fst] in Hpass.
  rewrite count_live_filter, Z.add_0_l in Hpass. fold liveRecords in Hpass. subst validCount.
  destruct (Z.eqb_spec (Z.of_nat (length liveRecords)) 0); [lia|].
  assert (Hreturn : (if n <? Z.of_nat (length liveRecords) then n
                     else Z.of_nat (length liveRecords)) = returnCount).
  { unfold returnCount. destruct (Z.ltb_spec n (Z.of_nat (length liveRecords))); lia. }
  rewrite Hreturn.
  destruct (malloc _ h) as [[|] h']; [|reflexivity].
  rewrite (top_fill_steady db millis now) by exact Hsteady.
  rewrite Z.sub_0_r. reflexivity.
Qed.

Lemma top_returns_first_live_witness :
  exists h',
    top 1 valid_ptr valid_ptr Example.db2 Example.heap0 (fun _ => 1000) =
    (IMDB_OK,
     mkResultSet
       (stored (Some [mkSelectResult 1 (mac6 []) EmptyString 0 false 0 IMDB_TYPE_INT32 true;
                      mkSelectResult 0 (mac6 []) "a" 0 false 0 IMDB_TYPE_STRING true]))
       (stored 1),
     h').
Proof.
  assert (Hlive : exists r, In r (_records Example.db2) /\ live 1000 r = true).
  { exists (mkRecord (Some [int32Value 1; stringValue (Some "a"%string)]) 0 true).
    split; [left; reflexivity|reflexivity]. }
  destruct (top_returns_first_live 1 Example.db2 Example.heap0 (fun _ => 1000) 1000 eq_refl
              ltac:(lia) (steady_const 1000 _) Hlive) as [Htop _].
  eexists. rewrite Htop. vm_compute. reflexivity.
Defined.

(** C8.  [top] reports rows it has not written when a record expires between
    its two passes.  The table holds [(1, "a")] without expiry and [(2, "b")]
    with deadline 1100, both valid.  The counting pass reads the clock at
    1099 and counts two live records; the filling pass reads it at 1100,
    finds the second record expired and writes the row of the first only.
    The call returns OK and stores 2 in [*resultCount] for an array in which
    2 of the 4 cells are written.  With the clock at 1099 in both passes the
    two rows are written, in store order. *)
Theorem top_reports_unwritten_rows :
  let db := Example.db2 in
  let millis := fun k : nat => 1099 + Z.of_nat k in
  let answer := top 2 valid_ptr valid_ptr db Example.heap0 millis in
  let steady_answer := top 2 valid_ptr valid_ptr db Example.heap0 (fun _ => 1099) in
  let cell_1 := mkSelectResult 1 (mac6 []) EmptyString 0 false 0 IMDB_TYPE_INT32 true in
  let cell_a := mkSelectResult 0 (mac6 []) "a" 0 false 0 IMDB_TYPE_STRING true in
  let cell_2 := mkSelectResult 2 (mac6 []) EmptyString 0 false 0 IMDB_TYPE_INT32 true in
  let cell_b := mkSelectResult 0 (mac6 []) "b" 0 false 0 IMDB_TYPE_STRING true in
  _records db =
    [mkRecord (Some [int32Value 1; stringValue (Some "a"%string)]) 0 true;
     mkRecord (Some [int32Value 2; stringValue (Some "b"%string)]) 1100 true] /\
  _columnCount db = 2 /\
  map (live (millis 0%nat)) (_records db) = [true; true] /\
  map (live (millis 1%nat)) (_records db) = [true; false] /\
  answer.1.1 = IMDB_OK /\
  resultCount answer.1.2 = stored 2 /\
  results answer.1.2 = stored (Some [cell_1; cell_a]) /\
  freeBytes answer.2 = freeBytes Example.heap0 - sizeof_IMDBSelectResult * 2 * 2 /\
  steady_answer.1.1 = IMDB_OK /\
  resultCount steady_answer.1.2 = stored 2 /\
  results steady_answer.1.2 = stored (Some [cell_1; cell_a; cell_2; cell_b]).
Proof. vm_compute. repeat split; reflexivity. Qed.

(** *** A failed [insert] *)

Lemma free_strings_bytes cols fs h :
  freeBytes (free_strings cols fs h) = freeBytes h + strings_bytes cols fs /\
  requests (free_strings cols fs h) = requests h /\
  faults (free_strings cols fs h) = faults h.
Proof.
  revert fs h. induction cols as [|c cols IH]; intros fs h; simpl.
  - repeat split; lia.
  - destruct fs as [|f fs]; [repeat split; lia|].
    destruct (IH fs (match type c, get_string f with
                     | IMDB_TYPE_STRING, Some s => free (string_size s) h
                     | _, _ => h
                     end)) as (-> & -> & ->).
    unfold cell_bytes. destruct (type c), (get_string f); simpl; repeat split; lia.
Qed.

Lemma strings_bytes_insert cols fs (i : nat) f :
  (i < length fs)%nat ->
  strings_bytes (take (S i) cols) (<[i := f]> fs) =
  strings_bytes (take i cols) fs +
  match cols !! i with Some c => cell_bytes c f | None => 0 end.
Proof.
  revert cols fs. induction i as [|i IH]; intros cols fs Hi.
  - destruct cols as [|c cols], fs as [|x fs]; simpl in *;
      lia || (rewrite ?take_0; simpl; lia).
  - destruct cols as [|c cols], fs as [|x fs]; simpl in *;
      lia || (rewrite IH by lia; lia).
Qed.

Lemma substring_length (s : string) (n : nat) :
  (n <= String.length s)%nat -> String.length (String.substring 0 n s) = n.
Proof.
  revert n. induction s as [|c s IH]; intros n Hn; destruct n as [|n]; simpl in *;
    try reflexivity; try lia.
  rewrite IH by lia. reflexivity.
Qed.

Lemma strncpy_size (s : string) :
  let len := if IMDB_MAX_STRING_LENGTH <? strlen s then IMDB_MAX_STRING_LENGTH else strlen s in
  string_size (strncpy s len) = len + 1.
Proof.
  cbv zeta. unfold string_size, strncpy, strlen, IMDB_MAX_STRING_LENGTH.
  destruct (Z.ltb_spec 255 (Z.of_nat (String.length (c_str s)))).
  - rewrite substring_length by lia. lia.
  - rewrite substring_length by lia. lia.
Qed.

Lemma malloc_bytes n h :
  freeBytes (malloc n h).2 = (if (malloc n h).1 then freeBytes h - n else freeBytes h).
Proof.
  unfold malloc. destruct (negb _ && (n <=? freeBytes h)); reflexivity.
Qed.

(** What one [copyFieldValue] does to the heap: a successful copy into a
    string column takes the bytes of the new buffer, and nothing else takes
    or gives bytes. *)
Lemma copyFieldValue_bytes dest src t h c :
  type c = t ->
  let '(result, f, h') := copyFieldValue dest src t h in
  (result = IMDB_OK -> freeBytes h' + cell_bytes c f = freeBytes h) /\
  (result <> IMDB_OK -> freeBytes h' = freeBytes h).
Proof.
  intros Ht. unfold copyFieldValue, cell_bytes. rewrite Ht.
  destruct t; simpl; try (split; [intros _; lia | congruence]).
  destruct (get_string src) as [s|]; [|split; [congruence|reflexivity]].
  pose proof (strncpy_size s) as Hsize. cbv zeta in Hsize.
  set (len := if IMDB_MAX_STRING_LENGTH <? strlen s then IMDB_MAX_STRING_LENGTH else strlen s) in *.
  pose proof (malloc_bytes (len + 1) h) as Hm.
  destruct (malloc (len + 1) h) as [[|] h']; simpl in *.
  - split; [intros _; rewrite Hsize; lia | congruence].
  - split; [congruence | intros _; exact Hm].
Qed.

Lemma copyFieldValue_untyped dest src h :
  copyFieldValue dest src IMDB_TYPE_INT32 h = (IMDB_OK, int32Value (get_int32 src), h).
Proof. reflexivity. Qed.

(** A [copy] loop that fails has given back every string buffer it
    allocated, and the field array. *)
Lemma insert_loop_bytes db values k i fs h :
  (insert_loop db values k i fs h).1.1 <> IMDB_OK ->
  freeBytes (insert_loop db values k i fs h).2 =
  freeBytes h + strings_bytes (take i (columns_of db)) fs + fields_size db.
Proof.
  revert i fs h. induction k as [|k IH]; intros i fs h; simpl; [congruence|].
  assert (Hcleanup : forall h0,
            freeBytes (insert_cleanup db i fs h0) =
            freeBytes h0 + strings_bytes (take i (columns_of db)) fs + fields_size db).
  { intros h0. unfold insert_cleanup. simpl.
    destruct (free_strings_bytes (take i (columns_of db)) fs h0) as (-> & _). lia. }
  destruct (values !! i) as [[v|]|] eqn:Hv; [|intros _; apply Hcleanup..].
  destruct (fs !! i) as [dest|] eqn:Hdest; [|intros _; apply Hcleanup].
  assert (Hi : (i < length fs)%nat) by (eapply lookup_lt_Some; exact Hdest).
  unfold column_type. rewrite Nat2Z.id.
  destruct (columns_of db !! i) as [c|] eqn:Hc.
  - pose proof (copyFieldValue_bytes dest v (type c) h c eq_refl) as Hcopy.
    destruct (copyFieldValue dest v (type c) h) as [[result f] h'].
    destruct Hcopy as [Hok Herr].
    destruct result;
      try (intros _; cbn [fst snd]; rewrite Hcleanup, Herr by discriminate; reflexivity).
    intros Hfail. rewrite (IH _ _ _ Hfail), strings_bytes_insert, Hc by exact Hi.
    specialize (Hok eq_refl). lia.
  - rewrite copyFieldValue_untyped.
    intros Hfail. rewrite (IH _ _ _ Hfail), strings_bytes_insert, Hc by exact Hi. lia.
Qed.

(** A [copy] loop that succeeds found every entry it read present and not
    null, and copied it. *)
Lemma insert_loop_ok db values k i fs h :
  (insert_loop db values k i fs h).1.1 = IMDB_OK ->
  forall j, (i <= j < i + k)%nat -> ~ uncopyable db values j.
Proof.
  revert i fs h. induction k as [|k IH]; intros i fs h Hok j Hj; [lia|].
  simpl in Hok.
  destruct (values !! i) as [[v|]|] eqn:Hv; [|discriminate..].
  destruct (fs !! i) as [dest|] eqn:Hdest; [|discriminate].
  destruct (copyFieldValue dest v (column_type db (Z.of_nat i)) h) as [[result f] h'] eqn:Hcopy.
  destruct (Nat.eq_dec j i) as [-> | Hne].
  - intros [Hnull | (w & Hw & Htype & Hstr)]; [congruence|].
    rewrite Hv in Hw. injection Hw as <-.
    unfold copyFieldValue in Hcopy. rewrite Htype, Hstr in Hcopy.
    injection Hcopy as <- _ _. discriminate.
  - destruct result; try discriminate.
    apply (IH _ _ _ Hok). lia.
Qed.

Lemma same_table_refl db : same_table db db.
Proof. repeat split. Qed.

Section SameTable.

Variables db db' : ESP32IMDB.
Hypothesis Hsame : same_table db db'.

Lemma columns_of_same : columns_of db' = columns_of db.
Proof. destruct Hsame as (_ & Hc & Hn & _). unfold columns_of. rewrite Hc, Hn. reflexivity. Qed.

Lemma column_type_same i : column_type db' i = column_type db i.
Proof. unfold column_type. rewrite columns_of_same. reflexivity. Qed.

Lemma findColumnIndex_same columnName :
  findColumnIndex db' columnName = findColumnIndex db columnName.
Proof. unfold findColumnIndex. rewrite columns_of_same. reflexivity. Qed.

Lemma matches_same whereIdx whereValue r :
  matches db' whereIdx whereValue r = matches db whereIdx whereValue r.
Proof. unfold matches. rewrite column_type_same. reflexivity. Qed.

Lemma row_of_same r : row_of db' r = row_of db r.
Proof.
  destruct Hsame as (_ & _ & Hn & _). unfold row_of. rewrite Hn.
  apply map_ext. intros col. rewrite column_type_same. reflexivity.
Qed.

Lemma count_matches_same now whereIdx whereValue recs cnt :
  count_matches db' now whereIdx whereValue recs cnt =
  count_matches db now whereIdx whereValue recs cnt.
Proof.
  revert cnt. induction recs as [|r recs IH]; intros cnt; simpl; [reflexivity|].
  rewrite matches_same. apply IH.
Qed.

Lemma select_loop_same now colIdx whereIdx whereValue recs res :
  select_loop db' now colIdx whereIdx whereValue recs res =
  select_loop db now colIdx whereIdx whereValue recs res.
Proof.
  induction recs as [|r recs IH]; simpl; [reflexivity|].
  rewrite matches_same, column_type_same, IH. reflexivity.
Qed.

Lemma selectAll_count_same millis whereIdx whereValue recs k cnt :
  selectAll_count db' millis whereIdx whereValue recs k cnt =
  selectAll_count db millis whereIdx whereValue recs k cnt.
Proof.
  revert k cnt. induction recs as [|r recs IH]; intros k cnt; simpl; [reflexivity|].
  destruct (live_at millis k r) as [alive k']. rewrite matches_same. apply IH.
Qed.

Lemma selectAll_fill_same millis whereIdx whereValue recs k cells :
  selectAll_fill db' millis whereIdx whereValue recs k cells =
  selectAll_fill db millis whereIdx whereValue recs k cells.
Proof.
  revert k cells. induction recs as [|r recs IH]; intros k cells; simpl; [reflexivity|].
  destruct (live_at millis k r) as [alive k']. rewrite matches_same, row_of_same. apply IH.
Qed.

Lemma top_fill_same millis returnCount recs k resultIdx cells :
  top_fill db' millis returnCount recs k resultIdx cells =
  top_fill db millis returnCount recs k resultIdx cells.
Proof.
  revert k resultIdx cells. induction recs as [|r recs IH]; intros k resultIdx cells; simpl;
    [reflexivity|].
  destruct (live_at millis k r) as [alive k']. rewrite row_of_same, !IH. reflexivity.
Qed.

(** Every query answers the same on two stores that differ in the capacity
    of the record array only. *)
Lemma queries_same_table :
  (forall now, count db' now = count db now) /\
  (forall whereColumn whereValue now,
     countWhere whereColumn whereValue db' now = countWhere whereColumn whereValue db now) /\
  (forall column whereColumn whereValue result now,
     select column whereColumn whereValue result db' now =
     select column whereColumn whereValue result db now) /\
  (forall whereColumn whereValue results_p resultCount_p h millis,
     selectAll whereColumn whereValue results_p resultCount_p db' h millis =
     selectAll whereColumn whereValue results_p resultCount_p db h millis) /\
  (forall column result now, min column result db' now = min column result db now) /\
  (forall column result now, max column result db' now = max column result db now) /\
  (forall n results_p resultCount_p h millis,
     top n results_p resultCount_p db' h millis = top n results_p resultCount_p db h millis).
Proof.
  pose proof Hsame as (Ht & Hc & Hn & Hr).
  repeat split; intros.
  - unfold count. rewrite Ht, Hr. reflexivity.
  - unfold countWhere. rewrite Ht, Hr.
    destruct whereColumn, whereValue; try reflexivity.
    rewrite findColumnIndex_same, count_matches_same. reflexivity.
  - unfold select. rewrite Ht, Hr.
    destruct column, whereColumn, whereValue, result; try reflexivity.
    rewrite !findColumnIndex_same, select_loop_same. reflexivity.
  - unfold selectAll. rewrite Ht, Hr, Hn.
    destruct whereColumn, whereValue; try reflexivity.
    rewrite findColumnIndex_same, selectAll_count_same.
    destruct (selectAll_count db millis _ _ (_records db) 0 0) as [matchCount k].
    rewrite selectAll_fill_same. reflexivity.
  - unfold min, aggregate. rewrite Ht, Hr.
    destruct column, result; try reflexivity.
    rewrite findColumnIndex_same, column_type_same. reflexivity.
  - unfold max, aggregate. rewrite Ht, Hr.
    destruct column, result; try reflexivity.
    rewrite findColumnIndex_same, column_type_same. reflexivity.
  - unfold top. rewrite Ht, Hr, Hn.
    destruct (top_count millis (_records db) 0 0) as [validCount k].
    rewrite top_fill_same. reflexivity.
Qed.

End SameTable.

Lemma realloc_bytes old n h :
  freeBytes (realloc old n h).2 =
  (if (realloc old n h).1 then freeBytes h + old - n else freeBytes h).
Proof.
  unfold realloc. destruct (negb _ && (n - old <=? freeBytes h)); reflexivity.
Qed.

(** [growRecordArray] changes the capacity only, and the heap by the
    growth of the array. *)
Lemma growRecordArray_spec db h :
  same_table db (growRecordArray db h).1.2 /\
  freeBytes (growRecordArray db h).2 =
    freeBytes h + size_t (sizeof_IMDBRecord * _recordCapacity db)
    - size_t (sizeof_IMDBRecord * _recordCapacity (growRecordArray db h).1.2).
Proof.
  unfold growRecordArray.
  destruct (negb (checkHeapLimit h)); [split; [apply same_table_refl|simpl; lia]|].
  destruct (INT_MAX / 2 <? _recordCapacity db); [split; [apply same_table_refl|simpl; lia]|].
  pose proof (realloc_bytes (size_t (sizeof_IMDBRecord * _recordCapacity db))
                (size_t (sizeof_IMDBRecord * (_recordCapacity db * 2))) h) as Hr.
  destruct (realloc _ _ h) as [[|] h']; simpl in *.
  - split; [repeat split|lia].
  - split; [apply same_table_refl|lia].
Qed.

Lemma uncopyable_same db db' vals i :
  same_table db db' -> uncopyable db vals i -> uncopyable db' vals i.
Proof.
  intros Hsame [Hnull | (v & Hv & Htype & Hstr)]; [left; exact Hnull|].
  right. exists v. rewrite (column_type_same db db' Hsame). auto.
Qed.

Lemma insert_core values ttlMillis db h now :
  ((insert values ttlMillis db h now).1.1 = IMDB_OK ->
   forall vals i, values = Some vals -> (i < Z.to_nat (_columnCount db))%nat ->
                  ~ uncopyable db vals i) /\
  ((insert values ttlMillis db h now).1.1 <> IMDB_OK ->
   same_table db (insert values ttlMillis db h now).1.2 /\
   freeBytes (insert values ttlMillis db h now).2 =
     freeBytes h + size_t (sizeof_IMDBRecord * _recordCapacity db)
     - size_t (sizeof_IMDBRecord * _recordCapacity (insert values ttlMillis db h now).1.2)).
Proof.
  assert (Hearly : forall result,
    result <> IMDB_OK ->
    ((result, db, h).1.1 = IMDB_OK ->
     forall vals i, values = Some vals -> (i < Z.to_nat (_columnCount db))%nat ->
                    ~ uncopyable db vals i) /\
    ((result, db, h).1.1 <> IMDB_OK ->
     same_table db (result, db, h).1.2 /\
     freeBytes (result, db, h).2 =
       freeBytes h + size_t (sizeof_IMDBRecord * _recordCapacity db)
       - size_t (sizeof_IMDBRecord * _recordCapacity (result, db, h).1.2))).
  { intros result Hne. cbn [fst snd]. split; [congruence|].
    intros _. split; [apply same_table_refl|lia]. }
  unfold insert.
  destruct (negb (_tableExists db)); [apply Hearly; discriminate|].
  destruct values as [vals|]; [|apply Hearly; discriminate].
  destruct (negb (checkHeapLimit h)); [apply Hearly; discriminate|].
  destruct (IMDB_MAX_TTL_MS <? ttlMillis); [apply Hearly; discriminate|].
  clear Hearly.
  assert (Hgrow :
    let g := if _recordCapacity db <=? _recordCount db
             then growRecordArray db h else (IMDB_OK, db, h) in
    same_table db g.1.2 /\
    freeBytes g.2 = freeBytes h + size_t (sizeof_IMDBRecord * _recordCapacity db)
                    - size_t (sizeof_IMDBRecord * _recordCapacity g.1.2)).
  { cbv zeta. destruct (_recordCapacity db <=? _recordCount db);
      [apply growRecordArray_spec|split; [apply same_table_refl|simpl; lia]]. }
  cbv zeta in Hgrow.
  destruct (if _recordCapacity db <=? _recordCount db
            then growRecordArray db h else (IMDB_OK, db, h)) as [[grown db1] h1].
  cbn [fst snd] in Hgrow. destruct Hgrow as [Hsame Hbytes].
  destruct grown;
    try (cbn [fst snd]; split; [congruence|intros _; split; [exact Hsame|exact Hbytes]]).
  pose proof (malloc_bytes (fields_size db1) h1) as Hmalloc.
  destruct (malloc (fields_size db1) h1) as [[|] h2]; cbn [fst snd] in Hmalloc;
    [|cbn [fst snd]; split; [congruence|intros _; split; [exact Hsame|lia]]].
  pose proof (insert_loop_bytes db1 vals (Z.to_nat (_columnCount db1)) 0
                (map zero_field (columns_of db1)) h2) as Hloop.
  pose proof (insert_loop_ok db1 vals (Z.to_nat (_columnCount db1)) 0
                (map zero_field (columns_of db1)) h2) as Hok.
  destruct (insert_loop db1 vals (Z.to_nat (_columnCount db1)) 0
              (map zero_field (columns_of db1)) h2) as [[result fs] h3].
  cbn [fst snd] in Hloop, Hok. rewrite take_0 in Hloop. simpl strings_bytes in Hloop.
  destruct result;
    try (cbn [fst snd]; split; [congruence|];
         intros _; split; [exact Hsame|rewrite Hloop by discriminate; lia]).
  cbn [fst snd]. split; [|congruence].
  intros _ vals' i [= <-] Hi Hbad.
  destruct Hsame as (Ht & Hc & Hn & Hr).
  apply (Hok eq_refl i); [rewrite Hn; lia|].
  apply (uncopyable_same db db1); [repeat split; assumption|exact Hbad].
Qed.

(** C4.  An [insert] that meets an entry it cannot copy (a null entry of
    [values], or a null string for a string column) does not return OK.  And
    whenever [insert] does not return OK (also when the allocator refuses a
    string buffer partway through the copy), nothing of the attempt is left:
    the records, their count and the schema are as before, every query
    ([count], [countWhere], [select], [selectAll], [min], [max], [top])
    answers as before, and the heap has back every byte the call took for the
    record's field array and strings.  The one trace a failed call can leave
    is a record array grown before the copy began, which no query reads. *)
Theorem failed_insert_is_atomic (values : option (list (option IMDBFieldValue)))
    (ttlMillis : Z) (db : ESP32IMDB) (h : Heap) (now : Z) :
  let result := (insert values ttlMillis db h now).1.1 in
  let db' := (insert values ttlMillis db h now).1.2 in
  let h' := (insert values ttlMillis db h now).2 in
  ((exists vals i, values = Some vals /\ (i < Z.to_nat (_columnCount db))%nat /\
                   uncopyable db vals i) ->
   result <> IMDB_OK) /\
  (result <> IMDB_OK ->
   _records db' = _records db /\
   _recordCount db' = _recordCount db /\
   _columns db' = _columns db /\ _columnCount db' = _columnCount db /\
   _tableExists db' = _tableExists db /\
   freeBytes h' + size_t (sizeof_IMDBRecord * _recordCapacity db')
     = freeBytes h + size_t (sizeof_IMDBRecord * _recordCapacity db) /\
   (forall t, count db' t = count db t) /\
   (forall whereColumn whereValue t,
      countWhere whereColumn whereValue db' t = countWhere whereColumn whereValue db t) /\
   (forall column whereColumn whereValue res t,
      select column whereColumn whereValue res db' t =
      select column whereColumn whereValue res db t) /\
   (forall whereColumn whereValue results_p resultCount_p hq t,
      selectAll whereColumn whereValue results_p resultCount_p db' hq t =
      selectAll whereColumn whereValue results_p resultCount_p db hq t) /\
   (forall column res t, min column res db' t = min column res db t) /\
   (forall column res t, max column res db' t = max column res db t) /\
   (forall n results_p resultCount_p hq t,
      top n results_p resultCount_p db' hq t = top n results_p resultCount_p db hq t)).
Proof.
  cbv zeta. destruct (insert_core values ttlMillis db h now) as [Hok Hfail]. split.
  - intros (vals & i & Hvals & Hi & Hbad) Hres. exact (Hok Hres vals i Hvals Hi Hbad).
  - intros Hres. destruct (Hfail Hres) as [Hsame Hbytes].
    pose proof (queries_same_table _ _ Hsame) as (Q1 & Q2 & Q3 & Q4 & Q5 & Q6 & Q7).
    destruct Hsame as (Ht & Hc & Hn & Hr).
    split; [exact Hr|]. split; [unfold _recordCount; rewrite Hr; reflexivity|].
    split; [exact Hc|]. split; [exact Hn|]. split; [exact Ht|]. split; [lia|].
    repeat split; assumption.
Qed.

Lemma failed_insert_is_atomic_witness :
  (insert (Some [Some (int32Value 3); None]) 0 Example.db2 Example.heap0 1000).1.1 <> IMDB_OK /\
  _records (insert (Some [Some (int32Value 3); None]) 0 Example.db2 Example.heap0 1000).1.2
    = _records Example.db2.
Proof.
  destruct (failed_insert_is_atomic (Some [Some (int32Value 3); None]) 0
              Example.db2 Example.heap0 1000) as [Hbad Hatomic].
  assert (Hres : (insert (Some [Some (int32Value 3); None]) 0
                    Example.db2 Example.heap0 1000).1.1 <> IMDB_OK).
  { apply Hbad. exists [Some (int32Value 3); None], 1%nat.
    split; [reflexivity|]. split; [vm_compute; lia|]. left. reflexivity. }
  split; [exact Hres|]. apply (Hatomic Hres).
Defined.

(** *** Snapshots: bytes *)






Lemma to_uint32_range v : 0 <= to_uint32 v < two32.
Proof. unfold to_uint32, two32. apply Z.mod_pos_bound. lia. Qed.

Lemma to_uint32_small v : 0 <= v < two32 -> to_uint32 v = v.
Proof. unfold to_uint32. apply Z.mod_small. Qed.


(** *** Snapshots: fields *)

Lemma mac6_length b : length (mac6 b) = 6%nat.
Proof.
  unfold mac6. rewrite length_map, length_take, length_app, length_replicate. lia.
Qed.





(** *** Snapshots: records and schema *)

Lemma wf_fields_length cols fs : wf_fields cols fs -> length fs = length cols.
Proof. intros H. symmetry. eapply Forall2_length. exact H. Qed.








(** *** Snapshots: the file *)


Lemma wf_table_columns db cols :
  _columns db = Some cols -> _columnCount db = Z.of_nat (length cols) ->
  columns_of db = cols.
Proof.
  intros Hc Hn. unfold columns_of. rewrite Hc, Hn, Nat2Z.id. apply firstn_all.
Qed.


Lemma fs_write_all_content path chunks fs fs' content :
  files fs !! path = Some content ->
  fs_write_all path chunks fs = Some fs' ->
  files fs' !! path = Some (content ++ concat chunks) /\
  (forall other, other <> path -> files fs' !! other = files fs !! other).
Proof.
  revert fs content. induction chunks as [|c chunks IH]; intros fs content Hfile H; simpl in H.
  - injection H as <-. simpl. rewrite app_nil_r. split; [exact Hfile|reflexivity].
  - unfold fs_write in H. rewrite Hfile in H. cbn [default] in H.
    destruct (Z.of_nat (length c) <=? space fs); [|discriminate].
    apply (IH _ (content ++ c)) in H; [|apply lookup_insert_eq].
    destruct H as [Hpath Hother]. cbn [concat]. rewrite app_assoc.
    split; [exact Hpath|].
    intros other Hne. rewrite (Hother other Hne). cbn [files].
    apply lookup_insert_ne. congruence.
Qed.

Lemma fs_remove_lookup fs path other :
  files (fs_remove fs path) !! other =
  if decide (path = other) then None else files fs !! other.
Proof.
  unfold fs_remove. destruct (files fs !! path) as [content|] eqn:Hp; cbn [files].
  - rewrite lookup_delete. reflexivity.
  - destruct (decide (path = other)) as [<- | _]; [exact Hp|reflexivity].
Qed.


Lemma filter_all {A} (p : A -> bool) (l : list A) :
  (forall x, In x l -> p x = true) -> List.filter p l = l.
Proof.
  induction l as [|x l IH]; intros H; [reflexivity|]. simpl.
  rewrite (H x (or_introl eq_refl)), IH; [reflexivity|].
  intros y Hy. apply H. right. exact Hy.
Qed.

Lemma compactRecords_eq db :
  compactRecords db = set_records db (List.filter isValid (_records db)).
Proof.
  pose proof (compactRecords_filter db) as H. unfold compactRecords in *.
  destruct (compact_loop (length (_records db)) 0 0 (_records db)) as [w recs].
  cbn [set_records _records] in H. rewrite H. reflexivity.
Qed.





(** *** Tables built by [createTable] and [insert] *)

Lemma mac6_idem b : mac6 (mac6 b) = mac6 b.
Proof.
  unfold mac6 at 1. rewrite take_app_length' by (rewrite mac6_length; reflexivity).
  unfold mac6. rewrite map_map. apply map_ext. intros x. unfold to_uint8.
  apply Z.mod_mod. lia.
Qed.

Lemma c_str_substring s n :
  c_str (String.substring 0 n (c_str s)) = String.substring 0 n (c_str s).
Proof.
  revert n. induction s as [|c s IH]; intros n; simpl.
  - destruct n; reflexivity.
  - destruct (Ascii.eqb c Ascii.zero) eqn:Hc; [destruct n; reflexivity|].
    destruct n as [|n]; [reflexivity|]. simpl. rewrite Hc, IH. reflexivity.
Qed.

Lemma substring_length_le s n : (String.length (String.substring 0 n s) <= n)%nat.
Proof.
  revert n. induction s as [|c s IH]; intros [|n]; simpl; try lia.
  specialize (IH n). lia.
Qed.

Lemma copyFieldValue_wf dest src t h :
  (copyFieldValue dest src t h).1.1 = IMDB_OK ->
  wf_field t (copyFieldValue dest src t h).1.2.
Proof.
  unfold copyFieldValue, wf_field. destruct t; cbn [fst snd].
  - intros _. destruct src; cbn [get_int32]; try apply to_int32_range;
      pose proof (to_int32_range 0); unfold two31 in *; lia.
  - intros _. destruct src; cbn [get_mac]; apply mac6_idem.
  - destruct (get_string src) as [s|]; [|discriminate].
    destruct (malloc _ h) as [[|] h1]; [|discriminate]. intros _. cbn [fst snd].
    unfold strncpy. split; [apply c_str_substring|].
    etransitivity; [apply substring_length_le|].
    unfold IMDB_MAX_STRING_LENGTH. destruct (Z.ltb_spec 255 (strlen s)); lia.
  - intros _. destruct src; cbn [get_epoch]; try apply to_uint32_range; unfold two32; lia.
  - intros _. exact I.
  - intros _. destruct src; cbn [get_float]; try apply to_uint32_range; unfold two32; lia.
Qed.

Lemma zero_fields_wf cols : wf_fields cols (map zero_field cols).
Proof.
  induction cols as [|c cols IH]; [constructor|]. constructor; [|exact IH].
  unfold zero_field, wf_field. destruct (type c); try exact I;
    try (unfold two31, two32; lia). apply mac6_idem.
Qed.

(** The copy loop of [insert] keeps every field at the type of its column. *)
Lemma insert_loop_wf db values k i fs h :
  wf_fields (columns_of db) fs ->
  (insert_loop db values k i fs h).1.1 = IMDB_OK ->
  wf_fields (columns_of db) (insert_loop db values k i fs h).1.2.
Proof.
  revert i fs h. induction k as [|k IH]; intros i fs h Hwf; [intros _; exact Hwf|].
  cbn [insert_loop].
  destruct (values !! i) as [[v|]|]; [|discriminate..].
  destruct (fs !! i) as [dest|] eqn:Hdest; [|discriminate].
  pose proof (copyFieldValue_wf dest v (column_type db (Z.of_nat i)) h) as Hcopy.
  destruct (copyFieldValue dest v (column_type db (Z.of_nat i)) h) as [[result f] h1].
  cbn [fst snd] in Hcopy. destruct result; try discriminate.
  apply IH. unfold wf_fields in *.
  destruct (Forall2_lookup_r _ _ _ i dest Hwf Hdest) as (c & Hc & _).
  rewrite <- (list_insert_id (columns_of db) i c Hc).
  apply Forall2_insert; [exact Hwf|].
  specialize (Hcopy eq_refl). unfold column_type in Hcopy.
  rewrite Nat2Z.id, Hc in Hcopy. exact Hcopy.
Qed.

(** What a successful [insert] does to the store: one valid record more, at
    the end, with well-formed fields. *)
Lemma insert_ok_shape values ttlMillis db h now db' h' :
  insert values ttlMillis db h now = (IMDB_OK, db', h') ->
  same_table db (set_records db' (_records db)) /\
  exists fs,
    _records db' =
      _records db ++
      [mkRecord (Some fs) (if 0 <? ttlMillis then to_uint32 (now + ttlMillis) else 0) true] /\
    wf_fields (columns_of db) fs.
Proof.
  unfold insert.
  destruct (negb (_tableExists db)); [discriminate|].
  destruct values as [vals|]; [|discriminate].
  destruct (negb (checkHeapLimit h)); [discriminate|].
  destruct (IMDB_MAX_TTL_MS <? ttlMillis); [discriminate|].
  assert (Hgrow : same_table db
                    (if _recordCapacity db <=? _recordCount db
                     then growRecordArray db h else (IMDB_OK, db, h)).1.2).
  { destruct (_recordCapacity db <=? _recordCount db);
      [apply growRecordArray_spec|apply same_table_refl]. }
  destruct (if _recordCapacity db <=? _recordCount db
            then growRecordArray db h else (IMDB_OK, db, h)) as [[grown db1] h1].
  cbn [fst snd] in Hgrow. destruct grown; try discriminate.
  destruct (malloc (fields_size db1) h1) as [[|] h2]; [|discriminate].
  pose proof (insert_loop_wf db1 vals (Z.to_nat (_columnCount db1)) 0
                (map zero_field (columns_of db1)) h2 (zero_fields_wf _)) as Hwf.
  destruct (insert_loop db1 vals (Z.to_nat (_columnCount db1)) 0
              (map zero_field (columns_of db1)) h2) as [[result fs] h3].
  cbn [fst snd] in Hwf. destruct result; try discriminate.
  intros [= <- <-]. rewrite (columns_of_same db db1 Hgrow) in Hwf.
  destruct Hgrow as (Ht & Hc & Hn & Hr). cbn [set_records _records].
  split; [repeat split; assumption|].
  exists fs. rewrite Hr. split; [reflexivity|apply Hwf; reflexivity].
Qed.

Lemma inserts_only_wf db : inserts_only db -> wf_table db.
Proof.
  induction 1 as [cols columnCount db0 h db h' Hnone Hempty Hcount Hlen Hcreate
                 | db values ttlMillis h now db' h' Hdb IH Hnow Hinsert].
  - unfold createTable in Hcreate. rewrite Hnone in Hcreate.
    destruct (Z.eqb_spec columnCount 0); [lia|].
    destruct (negb (checkHeapLimit h)); [discriminate|].
    destruct (malloc _ h) as [[|] h1]; [|discriminate].
    destruct (malloc _ h1) as [[|] h2]; [|discriminate].
    injection Hcreate as <- _. split; [reflexivity|].
    exists (take (Z.to_nat columnCount) cols). cbn [_columns _columnCount _records].
    rewrite length_take. repeat split; try lia. constructor.
  - destruct IH as (Ht & cols & Hc & Hn & Hlen & Hrecs).
    destruct (insert_ok_shape _ _ _ _ _ _ _ Hinsert) as ((Ht' & Hc' & Hn' & _) & fs & Hr & Hfs).
    cbn [set_records _tableExists _columns _columnCount] in Ht', Hc', Hn'.
    split; [congruence|]. exists cols.
    split; [congruence|]. split; [congruence|]. split; [exact Hlen|].
    rewrite Hr. apply Forall_app. split; [exact Hrecs|].
    constructor; [|constructor]. split; [reflexivity|]. split.
    + cbn [expiryMillis]. destruct (0 <? ttlMillis); [apply to_uint32_range|unfold two32; lia].
    + exists fs. split; [reflexivity|].
      rewrite <- (wf_table_columns db cols Hc Hn). exact Hfs.
Qed.

(** *** Snapshots: the round trip *)





(** *** Column lookup and the scans *)

Lemma findColumnIndex_from_spec i cols columnName :
  (findColumnIndex_from i cols columnName = -1 /\
   forall c, In c cols -> strcmp_eq (name c) columnName = false) \/
  (exists n c,
     findColumnIndex_from i cols columnName = i + Z.of_nat n /\
     cols !! n = Some c /\ strcmp_eq (name c) columnName = true /\
     forall j c', (j < n)%nat -> cols !! j = Some c' -> strcmp_eq (name c') columnName = false).
Proof.
  revert i. induction cols as [|c cols IH]; intros i.
  - left. split; [reflexivity|]. intros c [].
  - cbn [findColumnIndex_from]. destruct (strcmp_eq (name c) columnName) eqn:Hc.
    + right. exists 0%nat, c. split; [lia|]. split; [reflexivity|]. split; [exact Hc|].
      intros j c' Hj. lia.
    + destruct (IH (i + 1)) as [[Hk Hnone] | (n & c0 & Hk & Hn & Hc0 & Hbefore)].
      * left. split; [exact Hk|]. intros c' [<- | Hin]; [exact Hc | exact (Hnone c' Hin)].
      * right. exists (S n), c0. split; [lia|]. split; [exact Hn|]. split; [exact Hc0|].
        intros [|j] c' Hj Hl.
        -- injection Hl as <-. exact Hc.
        -- apply (Hbefore j c'); [lia | exact Hl].
Qed.

(** X2.  [findColumnIndex] gives -1 exactly when no column of the table
    has the name asked for, and otherwise the index of the first column
    with that name: the index is within the columns, and no column before
    it has the name.  Of two columns of the same name only the first can be
    addressed. *)
Theorem findColumnIndex_first_match (db : ESP32IMDB) (columnName : string) :
  let i := findColumnIndex db columnName in
  (i = -1 /\ forall c, In c (columns_of db) -> strcmp_eq (name c) columnName = false) \/
  (0 <= i < Z.of_nat (length (columns_of db)) /\
   exists c, columns_of db !! Z.to_nat i = Some c /\ strcmp_eq (name c) columnName = true /\
     forall j c', (j < Z.to_nat i)%nat -> columns_of db !! j = Some c' ->
                  strcmp_eq (name c') columnName = false).
Proof.
  cbv zeta. unfold findColumnIndex.
  destruct (findColumnIndex_from_spec 0 (columns_of db) columnName)
    as [[Hk Hnone] | (n & c & Hk & Hn & Hc & Hbefore)].
  - left. split; assumption.
  - right. rewrite Hk, Z.add_0_l, Nat2Z.id.
    split.
    + apply lookup_lt_Some in Hn. lia.
    + exists c. repeat split; assumption.
Qed.

Lemma filter_and_length {A} (p q : A -> bool) (l : list A) :
  (length (List.filter (fun x => p x && q x) l) <= length (List.filter p l))%nat.
Proof.
  induction l as [|x l IH]; [reflexivity|]. cbn [List.filter].
  destruct (p x), (q x); cbn [andb length]; lia.
Qed.

Lemma filter_length_le {A} (p : A -> bool) (l : list A) :
  (length (List.filter p l) <= length l)%nat.
Proof.
  induction l as [|x l IH]; [reflexivity|]. cbn [List.filter].
  destruct (p x); cbn [length]; lia.
Qed.

(** X3.  The three record counts are ordered: [countWhere] never exceeds
    [count], and [count] never exceeds [getRecordCount], which also counts
    the expired records that no purge has removed yet. *)
Theorem countWhere_le_count_le_getRecordCount (whereColumn : option string)
    (whereValue : option IMDBFieldValue) (db : ESP32IMDB) (now : Z) :
  0 <= countWhere whereColumn whereValue db now <= count db now /\
  count db now <= getRecordCount db.
Proof.
  unfold countWhere, count, getRecordCount, _recordCount.
  destruct (_tableExists db); cbn [negb].
  - rewrite count_live_filter.
    pose proof (filter_length_le (live now) (_records db)) as Hlen.
    split; [|lia].
    destruct whereColumn as [wc|]; [|lia]. destruct whereValue as [wv|]; [|lia].
    destruct (findColumnIndex db wc <? 0); [lia|].
    rewrite count_matches_filter.
    pose proof (filter_and_length (live now) (matches db (findColumnIndex db wc) wv)
                  (_records db)). lia.
  - lia.
Qed.

Lemma select_loop_find db now colIdx whereIdx whereValue recs res :
  select_loop db now colIdx whereIdx whereValue recs res =
  match List.find (fun r => live now r && matches db whereIdx whereValue r) recs with
  | Some r => (IMDB_OK, getFieldValue (field_at r colIdx) (column_type db colIdx) res)
  | None => (IMDB_ERROR_NO_RECORDS, res)
  end.
Proof.
  induction recs as [|r recs IH]; [reflexivity|].
  cbn [select_loop List.find]. rewrite live_skip.
  destruct (live now r); cbn [negb andb]; [|exact IH].
  destruct (matches db whereIdx whereValue r); [reflexivity | exact IH].
Qed.

Lemma find_filter_length {A} (p : A -> bool) (l : list A) :
  (exists x, List.find p l = Some x) <-> (0 < length (List.filter p l))%nat.
Proof.
  induction l as [|x l IH]; cbn [List.find List.filter].
  - split; [intros [x [=]] | cbn; lia].
  - destruct (p x); [|exact IH]. split; [cbn; lia | intros _; eauto].
Qed.

(** X4.  Once the table and both columns exist, [select] answers with the
    first record, in store order, that is live at the clock of the call and
    whose where-field equals the value: it returns IMDB_OK and [*result]
    holds that record's field of the selected column ([hasValue] set, the
    type of the column, the value of the field, a string cut to 255
    characters); it returns IMDB_ERROR_NO_RECORDS with [hasValue] cleared
    when there is no such record.  It returns IMDB_OK exactly when
    [countWhere] on the same clause is positive. *)
Theorem select_first_live_match (column whereColumn : string) (whereValue : IMDBFieldValue)
    (res : IMDBSelectResult) (db : ESP32IMDB) (now : Z) :
  _tableExists db = true ->
  0 <= findColumnIndex db column ->
  0 <= findColumnIndex db whereColumn ->
  let colIdx := findColumnIndex db column in
  let whereIdx := findColumnIndex db whereColumn in
  let first := List.find (fun r => live now r && matches db whereIdx whereValue r)
                         (_records db) in
  let out := select (Some column) (Some whereColumn) (Some whereValue) (Some res) db now in
  out =
    match first with
    | Some r =>
        (IMDB_OK,
         Some (getFieldValue (field_at r colIdx) (column_type db colIdx) (set_hasValue false res)))
    | None => (IMDB_ERROR_NO_RECORDS, Some (set_hasValue false res))
    end /\
  (forall r f, first = Some r -> field_at r colIdx = Some f ->
     exists cell, out = (IMDB_OK, Some cell) /\ holds_field (column_type db colIdx) f cell) /\
  (first = None ->
   exists cell, out = (IMDB_ERROR_NO_RECORDS, Some cell) /\ hasValue cell = false) /\
  (out.1 = IMDB_OK <-> 0 < countWhere (Some whereColumn) (Some whereValue) db now).
Proof.
  intros Ht Hc Hw colIdx whereIdx first out.
  assert (Hsel :
    out =
    match first with
    | Some r =>
        (IMDB_OK,
         Some (getFieldValue (field_at r colIdx) (column_type db colIdx) (set_hasValue false res)))
    | None => (IMDB_ERROR_NO_RECORDS, Some (set_hasValue false res))
    end).
  { unfold out, select. rewrite Ht. cbn [negb].
    replace (findColumnIndex db column <? 0) with false by (symmetry; apply Z.ltb_ge; exact Hc).
    replace (findColumnIndex db whereColumn <? 0) with false
      by (symmetry; apply Z.ltb_ge; exact Hw).
    cbn [orb]. rewrite select_loop_find. fold whereIdx colIdx first.
    destruct first; reflexivity. }
  split; [exact Hsel|]. split; [|split].
  { intros r f Hfirst Hfield. rewrite Hsel, Hfirst, Hfield.
    eexists. split; [reflexivity|]. apply getFieldValue_holds. }
  { intros Hfirst. rewrite Hsel, Hfirst. eexists. split; [reflexivity|reflexivity]. }
  rewrite Hsel.
  unfold countWhere. rewrite Ht. cbn [negb].
  replace (findColumnIndex db whereColumn <? 0) with false
    by (symmetry; apply Z.ltb_ge; exact Hw).
  rewrite count_matches_filter. fold whereIdx.
  pose proof (find_filter_length (fun r => live now r && matches db whereIdx whereValue r)
                (_records db)) as [Hfind Hlen].
  fold first in Hfind, Hlen.
  destruct first as [r|] eqn:Hf; cbn [fst].
  - split; [intros _ | reflexivity].
    assert (0 < length (List.filter (fun r0 => live now r0 && matches db whereIdx whereValue r0)
                          (_records db)))%nat by (apply Hfind; eauto).
    lia.
  - split; [discriminate|]. intros Hpos.
    destruct Hlen as [x Hx]; [lia | discriminate].
Qed.

Lemma select_first_live_match_witness :
  select (Some "name"%string) (Some "id"%string) (Some (int32Value 2)) (Some fresh_result)
         Example.db2 1000 =
  (IMDB_OK, Some (mkSelectResult 0 (mac6 []) "b" 0 false 0 IMDB_TYPE_STRING true)) /\
  exists cell,
    select (Some "name"%string) (Some "id"%string) (Some (int32Value 2)) (Some fresh_result)
           Example.db2 1000 = (IMDB_OK, Some cell) /\
    hasValue cell = true /\ type_r cell = IMDB_TYPE_STRING /\ stringValue_r cell = "b"%string.
Proof.
  pose proof (select_first_live_match "name" "id" (int32Value 2) fresh_result Example.db2 1000)
    as H.
  destruct H as (H & Hcell & _);
    [reflexivity | vm_compute; discriminate | vm_compute; discriminate |].
  split; [rewrite H; reflexivity|].
  destruct (Hcell (mkRecord (Some [int32Value 2; stringValue (Some "b"%string)]) 1100 true)
              (stringValue (Some "b"%string)) eq_refl eq_refl) as (cell & Hout & Hv & Ht & Hs).
  exists cell. split; [exact Hout|]. split; [exact Hv|]. split; [exact Ht|exact Hs].
Defined.

(** X5.  [selectAll] while no record expires during the call.  Once the
    table and the where-column exist and both output pointers are given,
    and every record is, at each reading of the clock, live or not as it is
    at [now], [selectAll] returns the rows of all the records that are live
    at [now] and whose where-field equals the value, in store order, every
    row with one cell per column and cell [j] holding field [j] of the
    record; the count it stores is the one [countWhere] gives at [now].
    Without such a record it answers IMDB_ERROR_NO_RECORDS with a null array
    and a count of 0, and the only other outcome is the refusal of the one
    allocation it makes. *)
Theorem selectAll_all_live_matches (whereColumn : string) (whereValue : IMDBFieldValue)
    (db : ESP32IMDB) (h : Heap) (millis : nat -> Z) (now : Z) :
  _tableExists db = true ->
  0 <= findColumnIndex db whereColumn ->
  steady millis now (_records db) ->
  let hits :=
    List.filter (fun r => live now r && matches db (findColumnIndex db whereColumn) whereValue r)
                (_records db) in
  let n := countWhere (Some whereColumn) (Some whereValue) db now in
  n = Z.of_nat (length hits) /\
  selectAll (Some whereColumn) (Some whereValue) valid_ptr valid_ptr db h millis =
    (if n =? 0 then (IMDB_ERROR_NO_RECORDS, mkResultSet (stored None) (stored 0), h)
     else
       match malloc (size_t (sizeof_IMDBSelectResult * n * _columnCount db)) h with
       | (true, h') =>
           (IMDB_OK,
            mkResultSet (stored (Some (concat (map (row_of db) hits)))) (stored n), h')
       | (false, h') => (IMDB_ERROR_OUT_OF_MEMORY, mkResultSet (stored None) unwritten, h')
       end) /\
  length (concat (map (row_of db) hits)) = (length hits * Z.to_nat (_columnCount db))%nat /\
  (forall r j, (j < Z.to_nat (_columnCount db))%nat ->
     length (row_of db r) = Z.to_nat (_columnCount db) /\
     exists cell,
       row_of db r !! j = Some cell /\
       forall f, field_at r (Z.of_nat j) = Some f ->
                 holds_field (column_type db (Z.of_nat j)) f cell).
Proof.
  intros Ht Hw Hsteady hits n.
  assert (Hn : n = count_matches db now (findColumnIndex db whereColumn) whereValue (_records db) 0).
  { unfold n, countWhere. rewrite Ht. cbn [negb].
    replace (findColumnIndex db whereColumn <? 0) with false
      by (symmetry; apply Z.ltb_ge; exact Hw). reflexivity. }
  split; [rewrite Hn, count_matches_filter; reflexivity|]. split; [|split].
  - unfold selectAll. rewrite Ht. cbn [negb is_null orb].
    replace (findColumnIndex db whereColumn <? 0) with false
      by (symmetry; apply Z.ltb_ge; exact Hw).
    pose proof (selectAll_count_steady db millis now (findColumnIndex db whereColumn)
                  whereValue (_records db) 0 0 Hsteady) as Hpass.
    destruct (selectAll_count db millis _ _ (_records db) 0 0) as [matchCount k].
    cbn [fst] in Hpass. rewrite <- Hn in Hpass. subst matchCount.
    destruct (n =? 0); [reflexivity|].
    rewrite (selectAll_fill_steady db millis now) by exact Hsteady. cbn [app]. fold hits.
    destruct (malloc _ h) as [[|] h']; reflexivity.
  - induction hits as [|r hits' IH]; [reflexivity|].
    cbn [map concat length]. rewrite length_app, row_of_length, IH. lia.
  - intros r j Hj. apply row_of_holds. exact Hj.
Qed.

Lemma selectAll_all_live_matches_witness :
  exists h',
    selectAll (Some "id"%string) (Some (int32Value 2)) valid_ptr valid_ptr
              Example.db2 Example.heap0 (fun _ => 1000) =
    (IMDB_OK,
     mkResultSet
       (stored (Some [mkSelectResult 2 (mac6 []) EmptyString 0 false 0 IMDB_TYPE_INT32 true;
                      mkSelectResult 0 (mac6 []) "b" 0 false 0 IMDB_TYPE_STRING true]))
       (stored 1),
     h').
Proof.
  pose proof (selectAll_all_live_matches "id" (int32Value 2) Example.db2 Example.heap0
                (fun _ => 1000) 1000) as H.
  destruct H as (_ & H & _);
    [reflexivity | vm_compute; discriminate | apply steady_const |].
  eexists. rewrite H. vm_compute. reflexivity.
Defined.

(** *** Deleting and purging *)

Lemma delete_loop_none db whereIdx whereValue recs h deleted :
  existsb (fun r => isValid r && matches db whereIdx whereValue r) recs = false ->
  delete_loop db whereIdx whereValue recs h deleted = (recs, h, deleted).
Proof.
  induction recs as [|r recs IH]; [reflexivity|].
  cbn [existsb delete_loop]. intros Hnone. apply orb_false_elim in Hnone as [Hr Hrest].
  rewrite (IH Hrest).
  destruct (isValid r); cbn [negb andb] in *; [rewrite Hr|]; reflexivity.
Qed.

(** X6.  Once the table and the where-column exist, [deleteRecords]
    removes every valid record whose where-field equals the value, whether
    it has expired or not, and keeps the other valid records in their
    order; the columns and the capacity of the array stay as they are.  When
    no valid record matches it answers IMDB_ERROR_NO_RECORDS and neither the
    store nor the heap changes. *)
Theorem deleteRecords_removes_matches (whereColumn : string) (whereValue : IMDBFieldValue)
    (db : ESP32IMDB) (h : Heap) :
  _tableExists db = true ->
  0 <= findColumnIndex db whereColumn ->
  let whereIdx := findColumnIndex db whereColumn in
  let out := deleteRecords (Some whereColumn) (Some whereValue) db h in
  (existsb (fun r => isValid r && matches db whereIdx whereValue r) (_records db) = true ->
   out.1.1 = IMDB_OK /\
   _records out.1.2 =
     List.filter (fun r => isValid r && negb (matches db whereIdx whereValue r)) (_records db) /\
   _columns out.1.2 = _columns db /\ _columnCount out.1.2 = _columnCount db /\
   _recordCapacity out.1.2 = _recordCapacity db /\ _tableExists out.1.2 = true) /\
  (existsb (fun r => isValid r && matches db whereIdx whereValue r) (_records db) = false ->
   out = (IMDB_ERROR_NO_RECORDS, db, h)).
Proof.
  intros Ht Hw whereIdx out.
  assert (Hout : out =
    let '(recs, h', deleted) := delete_loop db whereIdx whereValue (_records db) h false in
    if deleted then (IMDB_OK, compactRecords (set_records db recs), h')
    else (IMDB_ERROR_NO_RECORDS, set_records db recs, h')).
  { unfold out, deleteRecords. rewrite Ht. cbn [negb].
    replace (findColumnIndex db whereColumn <? 0) with false
      by (symmetry; apply Z.ltb_ge; exact Hw). reflexivity. }
  split; intros Hhit.
  - pose proof (delete_loop_spec db whereIdx whereValue (_records db) h false) as [Hrecs Hdel].
    destruct (delete_loop db whereIdx whereValue (_records db) h false) as [[recs h'] deleted].
    cbn [fst snd] in Hrecs, Hdel. rewrite Hhit in Hdel. cbn [orb] in Hdel.
    rewrite Hout, Hdel. cbn [fst snd].
    split; [reflexivity|]. split.
    + rewrite compactRecords_filter. cbn [set_records _records]. rewrite Hrecs.
      rewrite (filter_map_kept isValid (fun r => isValid r && matches db whereIdx whereValue r)
                 (fun r => mkRecord None (expiryMillis r) false)) by reflexivity.
      apply List.filter_ext. intros r. destruct (isValid r); reflexivity.
    + rewrite compactRecords_eq. cbn. rewrite Ht. repeat split; reflexivity.
  - rewrite Hout, (delete_loop_none db whereIdx whereValue (_records db) h false Hhit).
    rewrite set_records_same. reflexivity.
Qed.

Lemma deleteRecords_removes_matches_witness :
  (deleteRecords (Some "id"%string) (Some (int32Value 2)) Example.db2 Example.two_rows.2).1.1
    = IMDB_OK /\
  _records (deleteRecords (Some "id"%string) (Some (int32Value 2)) Example.db2
              Example.two_rows.2).1.2
    = [mkRecord (Some [int32Value 1; stringValue (Some "a"%string)]) 0 true] /\
  deleteRecords (Some "id"%string) (Some (int32Value 9)) Example.db2 Example.two_rows.2
    = (IMDB_ERROR_NO_RECORDS, Example.db2, Example.two_rows.2).
Proof.
  pose proof (deleteRecords_removes_matches "id" (int32Value 2) Example.db2 Example.two_rows.2)
    as Hhit.
  destruct Hhit as [Hhit _]; [reflexivity | vm_compute; discriminate |].
  destruct Hhit as (Hcode & Hrecs & _); [vm_compute; reflexivity|].
  pose proof (deleteRecords_removes_matches "id" (int32Value 9) Example.db2 Example.two_rows.2)
    as Hmiss.
  destruct Hmiss as [_ Hmiss]; [reflexivity | vm_compute; discriminate |].
  split; [exact Hcode|]. split; [rewrite Hrecs; vm_compute; reflexivity|].
  apply Hmiss. vm_compute. reflexivity.
Defined.

Lemma purge_loop_spec db now recs h :
  (purge_loop db now recs h).1 =
  map (fun r => if isValid r && isRecordExpired now (expiryMillis r)
                then mkRecord None (expiryMillis r) false else r) recs.
Proof.
  revert h. induction recs as [|r recs IH]; intros h; [reflexivity|].
  cbn [purge_loop map].
  destruct (isValid r && isRecordExpired now (expiryMillis r)).
  - destruct (freeRecord db r h) as [r' h'] eqn:Hfree.
    specialize (IH h'). destruct (purge_loop db now recs h') as [rest h2].
    cbn [fst] in *. rewrite IH. f_equal.
    unfold freeRecord in Hfree. unfold invalidate.
    destruct r as [[fs|] e v]; cbn in *; injection Hfree as <- _; reflexivity.
  - specialize (IH h). destruct (purge_loop db now recs h) as [rest h2].
    cbn [fst] in *. rewrite IH. reflexivity.
Qed.

Lemma purge_records db h now :
  _tableExists db = true ->
  (purgeExpiredRecords db h now).1 = set_records db (List.filter (live now) (_records db)).
Proof.
  intros Ht. unfold purgeExpiredRecords. rewrite Ht. cbn [negb].
  pose proof (purge_loop_spec db now (_records db) h) as Hrecs.
  destruct (purge_loop db now (_records db) h) as [recs h']. cbn [fst] in *.
  rewrite compactRecords_eq. cbn [set_records _records _columns _columnCount
                                   _recordCapacity _tableExists].
  f_equal. rewrite Hrecs.
  rewrite (filter_map_kept isValid (fun r => isValid r && isRecordExpired now (expiryMillis r))
             (fun r => mkRecord None (expiryMillis r) false)) by reflexivity.
  apply List.filter_ext. intros r. unfold live. destruct (isValid r); reflexivity.
Qed.

Lemma filter_idem {A} (p : A -> bool) (l : list A) :
  List.filter p (List.filter p l) = List.filter p l.
Proof.
  apply filter_all. intros x Hx. apply List.filter_In in Hx. tauto.
Qed.

(** X7.  On a store with a table, [purgeExpiredRecords] leaves exactly
    the records that are live at the clock of the call, in their order, and
    nothing else of the store changes; afterwards [getRecordCount] is what
    [count] answers, before and after the purge. *)
Theorem purgeExpiredRecords_keeps_live (db : ESP32IMDB) (h : Heap) (now : Z) :
  _tableExists db = true ->
  let db' := (purgeExpiredRecords db h now).1 in
  _records db' = List.filter (live now) (_records db) /\
  _columns db' = _columns db /\ _columnCount db' = _columnCount db /\
  _recordCapacity db' = _recordCapacity db /\ _tableExists db' = true /\
  getRecordCount db' = count db now /\
  count db' now = count db now.
Proof.
  intros Ht db'. unfold db'. rewrite (purge_records db h now Ht).
  cbn [set_records _records _columns _columnCount _recordCapacity _tableExists].
  repeat split; try reflexivity; try exact Ht.
  - unfold getRecordCount, _recordCount, count. rewrite Ht.
    cbn [negb set_records _records]. rewrite count_live_filter. lia.
  - unfold count. cbn [set_records _tableExists _records]. rewrite Ht. cbn [negb].
    rewrite !count_live_filter, filter_idem. reflexivity.
Qed.

Lemma purgeExpiredRecords_keeps_live_witness :
  _records (purgeExpiredRecords Example.db2 Example.heap0 2000).1 =
    [mkRecord (Some [int32Value 1; stringValue (Some "a"%string)]) 0 true] /\
  getRecordCount (purgeExpiredRecords Example.db2 Example.heap0 2000).1 = 1.
Proof.
  pose proof (purgeExpiredRecords_keeps_live Example.db2 Example.heap0 2000 eq_refl)
    as (Hrecs & _ & _ & _ & _ & Hcount & _).
  split; [rewrite Hrecs | rewrite Hcount]; reflexivity.
Defined.

(** The scans run as if the records that are not live were not in the
    array; for the two passes of [selectAll] and [top], while no record
    expires between the readings of the clock. *)
Lemma scans_skip_dead db now recs :
  (forall cnt, count_live now recs cnt = count_live now (List.filter (live now) recs) cnt) /\
  (forall whereIdx whereValue cnt,
     count_matches db now whereIdx whereValue recs cnt =
     count_matches db now whereIdx whereValue (List.filter (live now) recs) cnt) /\
  (forall colIdx whereIdx whereValue res,
     select_loop db now colIdx whereIdx whereValue recs res =
     select_loop db now colIdx whereIdx whereValue (List.filter (live now) recs) res) /\
  (forall millis whereIdx whereValue k k' cells,
     steady millis now recs ->
     selectAll_fill db millis whereIdx whereValue recs k cells =
     selectAll_fill db millis whereIdx whereValue (List.filter (live now) recs) k' cells) /\
  (forall t colIdx st,
     min_loop t now colIdx recs st = min_loop t now colIdx (List.filter (live now) recs) st) /\
  (forall t colIdx st,
     max_loop t now colIdx recs st = max_loop t now colIdx (List.filter (live now) recs) st) /\
  (forall millis returnCount k k' resultIdx cells,
     steady millis now recs ->
     top_fill db millis returnCount recs k resultIdx cells =
     top_fill db millis returnCount (List.filter (live now) recs) k' resultIdx cells).
Proof.
  assert (Hloops :
    (forall cnt, count_live now recs cnt = count_live now (List.filter (live now) recs) cnt) /\
    (forall whereIdx whereValue cnt,
       count_matches db now whereIdx whereValue recs cnt =
       count_matches db now whereIdx whereValue (List.filter (live now) recs) cnt) /\
    (forall colIdx whereIdx whereValue res,
       select_loop db now colIdx whereIdx whereValue recs res =
       select_loop db now colIdx whereIdx whereValue (List.filter (live now) recs) res) /\
    (forall t colIdx st,
       min_loop t now colIdx recs st = min_loop t now colIdx (List.filter (live now) recs) st) /\
    (forall t colIdx st,
       max_loop t now colIdx recs st =
       max_loop t now colIdx (List.filter (live now) recs) st)).
  { induction recs as [|r recs IH]; [repeat split|].
    destruct IH as (I1 & I2 & I3 & I5 & I6).
    cbn [List.filter].
    destruct (live now r) eqn:Hlive.
    - repeat split; intros; simpl; rewrite ?live_skip; fold (live now r); rewrite Hlive;
        rewrite <- ?I1, <- ?I2, <- ?I3, <- ?I5, <- ?I6; reflexivity.
    - repeat split; intros; simpl; rewrite ?live_skip; fold (live now r); rewrite Hlive;
        simpl; auto. }
  destruct Hloops as (L1 & L2 & L3 & L5 & L6).
  split; [exact L1|]. split; [exact L2|]. split; [exact L3|]. split.
  { intros millis whereIdx whereValue k k' cells Hs.
    rewrite !(selectAll_fill_steady db millis now) by (try apply steady_filter; exact Hs).
    rewrite filter_filter_sub; [reflexivity|].
    intros x Hx. apply andb_true_iff in Hx. tauto. }
  split; [exact L5|]. split; [exact L6|].
  intros millis returnCount k k' resultIdx cells Hs.
  rewrite !(top_fill_steady db millis now) by (try apply steady_filter; exact Hs).
  rewrite filter_idem. reflexivity.
Qed.

(** The loops read the columns of the store only. *)
Lemma scans_set_records db recs0 now recs :
  (forall whereIdx whereValue cnt,
     count_matches (set_records db recs0) now whereIdx whereValue recs cnt =
     count_matches db now whereIdx whereValue recs cnt) /\
  (forall colIdx whereIdx whereValue res,
     select_loop (set_records db recs0) now colIdx whereIdx whereValue recs res =
     select_loop db now colIdx whereIdx whereValue recs res) /\
  (forall millis whereIdx whereValue k cells,
     selectAll_fill (set_records db recs0) millis whereIdx whereValue recs k cells =
     selectAll_fill db millis whereIdx whereValue recs k cells) /\
  (forall millis returnCount k resultIdx cells,
     top_fill (set_records db recs0) millis returnCount recs k resultIdx cells =
     top_fill db millis returnCount recs k resultIdx cells).
Proof.
  induction recs as [|r recs (I1 & I2 & I3 & I4)]; [repeat split|].
  repeat split; intros; simpl.
  - rewrite I1. reflexivity.
  - rewrite I2. reflexivity.
  - destruct (live_at millis k r) as [alive k']. rewrite I3. reflexivity.
  - destruct (live_at millis k r) as [alive k']. rewrite !I4. reflexivity.
Qed.

(** X8.  A purge does not show in the answers: at the clock of the purge
    every query gives on the purged store what it gives on the store as it
    was, with or without a table; for [selectAll] and [top], which read the
    clock again for every record, while no record passes between live and
    expired during the call. *)
Theorem purgeExpiredRecords_is_transparent (db : ESP32IMDB) (h : Heap) (now : Z) :
  let db' := (purgeExpiredRecords db h now).1 in
  count db' now = count db now /\
  (forall whereColumn whereValue,
     countWhere whereColumn whereValue db' now = countWhere whereColumn whereValue db now) /\
  (forall column whereColumn whereValue result,
     select column whereColumn whereValue result db' now =
     select column whereColumn whereValue result db now) /\
  (forall whereColumn whereValue results_p resultCount_p hq millis,
     steady millis now (_records db) ->
     selectAll whereColumn whereValue results_p resultCount_p db' hq millis =
     selectAll whereColumn whereValue results_p resultCount_p db hq millis) /\
  (forall column result, min column result db' now = min column result db now) /\
  (forall column result, max column result db' now = max column result db now) /\
  (forall n results_p resultCount_p hq millis,
     steady millis now (_records db) ->
     top n results_p resultCount_p db' hq millis = top n results_p resultCount_p db hq millis).
Proof.
  intros db'. unfold db'. clear db'.
  destruct (_tableExists db) eqn:Ht.
  2:{ unfold purgeExpiredRecords. rewrite Ht. cbn [negb fst]. repeat split; reflexivity. }
  rewrite (purge_records db h now Ht).
  set (kept := List.filter (live now) (_records db)).
  destruct (scans_skip_dead db now (_records db)) as (S1 & S2 & S3 & S4 & S5 & S6 & S7).
  destruct (scans_set_records db kept now kept) as (R2 & R3 & R4 & R7).
  fold kept in S1, S2, S3, S4, S5, S6, S7.
  repeat split; intros.
  - unfold count. cbn [set_records _tableExists _records]. rewrite S1. reflexivity.
  - unfold countWhere. cbn [set_records _tableExists _records].
    destruct whereColumn, whereValue; try reflexivity.
    change (findColumnIndex (mkDB (_columns db) (_columnCount db) kept (_recordCapacity db)
                               (_tableExists db)) s)
      with (findColumnIndex db s).
    fold (set_records db kept). rewrite R2, <- S2. reflexivity.
  - unfold select. cbn [set_records _tableExists _records].
    destruct column as [c|], whereColumn as [w|], whereValue, result; try reflexivity.
    change (findColumnIndex (mkDB (_columns db) (_columnCount db) kept (_recordCapacity db)
                               (_tableExists db)) c)
      with (findColumnIndex db c).
    change (findColumnIndex (mkDB (_columns db) (_columnCount db) kept (_recordCapacity db)
                               (_tableExists db)) w)
      with (findColumnIndex db w).
    fold (set_records db kept). rewrite R3, <- S3. reflexivity.
  - unfold selectAll. cbn [set_records _tableExists _records _columnCount].
    destruct whereColumn as [w|], whereValue as [v|]; try reflexivity.
    change (findColumnIndex (mkDB (_columns db) (_columnCount db) kept (_recordCapacity db)
                               (_tableExists db)) w)
      with (findColumnIndex db w).
    fold (set_records db kept).
    pose proof (selectAll_count_steady (set_records db kept) millis now (findColumnIndex db w)
                  v kept 0 0 (steady_filter _ _ _ _ H)) as Hpurged.
    pose proof (selectAll_count_steady db millis now (findColumnIndex db w)
                  v (_records db) 0 0 H) as Hwas.
    rewrite R2, <- S2 in Hpurged.
    destruct (selectAll_count (set_records db kept) millis _ _ kept 0 0) as [c1 k1].
    destruct (selectAll_count db millis _ _ (_records db) 0 0) as [c2 k2].
    cbn [fst] in Hpurged, Hwas. rewrite Hpurged, Hwas.
    rewrite R4, <- (S4 millis _ _ k2 k1 [] H). reflexivity.
  - unfold min, aggregate. cbn [set_records _tableExists _records].
    destruct column as [c|], result; try reflexivity.
    change (findColumnIndex (mkDB (_columns db) (_columnCount db) kept (_recordCapacity db)
                               (_tableExists db)) c)
      with (findColumnIndex db c).
    change (column_type (mkDB (_columns db) (_columnCount db) kept (_recordCapacity db)
                           (_tableExists db)) (findColumnIndex db c))
      with (column_type db (findColumnIndex db c)).
    rewrite <- S5. reflexivity.
  - unfold max, aggregate. cbn [set_records _tableExists _records].
    destruct column as [c|], result; try reflexivity.
    change (findColumnIndex (mkDB (_columns db) (_columnCount db) kept (_recordCapacity db)
                               (_tableExists db)) c)
      with (findColumnIndex db c).
    change (column_type (mkDB (_columns db) (_columnCount db) kept (_recordCapacity db)
                           (_tableExists db)) (findColumnIndex db c))
      with (column_type db (findColumnIndex db c)).
    rewrite <- S6. reflexivity.
  - unfold top. cbn [set_records _tableExists _records _columnCount].
    fold (set_records db kept).
    pose proof (top_count_steady millis now kept 0 0 (steady_filter _ _ _ _ H)) as Hpurged.
    pose proof (top_count_steady millis now (_records db) 0 0 H) as Hwas.
    rewrite <- S1 in Hpurged.
    destruct (top_count millis kept 0 0) as [c1 k1].
    destruct (top_count millis (_records db) 0 0) as [c2 k2].
    cbn [fst] in Hpurged, Hwas. rewrite Hpurged, Hwas.
    rewrite R7, <- (S7 millis _ k2 k1 0 [] H). reflexivity.
Qed.

(** *** Inserting *)

(** What a call of [insert] that returns IMDB_OK went through. *)
Lemma insert_ok_inv values ttlMillis db h now db' h' :
  insert values ttlMillis db h now = (IMDB_OK, db', h') ->
  exists vals db1 h1 h2 fs,
    values = Some vals /\ _tableExists db = true /\ checkHeapLimit h = true /\
    ttlMillis <= IMDB_MAX_TTL_MS /\
    (if _recordCapacity db <=? _recordCount db then growRecordArray db h else (IMDB_OK, db, h))
      = (IMDB_OK, db1, h1) /\
    malloc (fields_size db1) h1 = (true, h2) /\
    insert_loop db1 vals (Z.to_nat (_columnCount db1)) 0 (map zero_field (columns_of db1)) h2
      = (IMDB_OK, fs, h') /\
    db' = set_records db1
            (_records db1 ++
             [mkRecord (Some fs) (if 0 <? ttlMillis then to_uint32 (now + ttlMillis) else 0) true]).
Proof.
  unfold insert.
  destruct (_tableExists db); [|discriminate]. cbn [negb].
  destruct values as [vals|]; [|discriminate].
  destruct (checkHeapLimit h); [|discriminate]. cbn [negb].
  destruct (Z.ltb_spec IMDB_MAX_TTL_MS ttlMillis) as [|Httl]; [discriminate|].
  destruct (if _recordCapacity db <=? _recordCount db
            then growRecordArray db h else (IMDB_OK, db, h)) as [[grown db1] h1].
  destruct grown; try discriminate.
  destruct (malloc (fields_size db1) h1) as [[|] h2] eqn:Hm; [|discriminate].
  destruct (insert_loop db1 vals (Z.to_nat (_columnCount db1)) 0
              (map zero_field (columns_of db1)) h2) as [[result fs] h3] eqn:Hloop.
  destruct result; try discriminate.
  intros [= <- <-]. exists vals, db1, h1, h2, fs. repeat split; try reflexivity; assumption.
Qed.

Lemma expired_after now ttlMillis d :
  (now + ttlMillis) mod two32 <> 0 ->
  isRecordExpired (to_uint32 (now + d)) (to_uint32 (now + ttlMillis)) = true
  <-> (d - ttlMillis) mod two32 < two31.
Proof.
  intros Hnz. unfold isRecordExpired, to_uint32.
  destruct (Z.eqb_spec ((now + ttlMillis) mod two32) 0) as [|_]; [contradiction|].
  rewrite Zminus_mod_idemp_l, Zminus_mod_idemp_r.
  replace (now + d - (now + ttlMillis)) with (d - ttlMillis) by lia.
  unfold to_int32. rewrite Z.mod_mod by (unfold two32; lia).
  pose proof (Z.mod_pos_bound (d - ttlMillis) two32 ltac:(unfold two32; lia)) as Hb.
  destruct (Z.ltb_spec ((d - ttlMillis) mod two32) two31) as [Hlt|Hge].
  - split; [intros _; exact Hlt | intros _; apply Z.leb_le; lia].
  - split; [intros H; apply Z.leb_le in H; unfold two32, two31 in *; lia | lia].
Qed.

(** X9.  The life of an inserted record.  For a call of [insert] at clock
    [now] that returns IMDB_OK: the TTL was at most [IMDB_MAX_TTL_MS]; the
    record is appended and valid.  With a TTL of 0 it never expires.  With
    a positive TTL whose deadline [now + ttlMillis] is not a multiple of
    [2^32], the record is expired [d] milliseconds later exactly when
    [(d - ttlMillis) mod 2^32 < 2^31]: for a TTL below [2^31] it is live
    until the TTL has passed and expired from then on for [2^31]
    milliseconds; for a TTL above [2^31] (which [IMDB_MAX_TTL_MS] allows)
    it is expired from the start, and [count] has not grown.  When the
    deadline wraps to exactly 0 the record never expires. *)
Theorem insert_ttl_window (values : option (list (option IMDBFieldValue))) (ttlMillis : Z)
    (db : ESP32IMDB) (h : Heap) (now : Z) (db' : ESP32IMDB) (h' : Heap) :
  0 <= ttlMillis ->
  insert values ttlMillis db h now = (IMDB_OK, db', h') ->
  ttlMillis <= IMDB_MAX_TTL_MS /\
  exists r,
    _records db' = _records db ++ [r] /\ isValid r = true /\
    (ttlMillis = 0 -> forall t, isRecordExpired t (expiryMillis r) = false) /\
    ((now + ttlMillis) mod two32 = 0 -> forall t, isRecordExpired t (expiryMillis r) = false) /\
    (0 < ttlMillis -> (now + ttlMillis) mod two32 <> 0 ->
     (forall d, isRecordExpired (to_uint32 (now + d)) (expiryMillis r) = true
                <-> (d - ttlMillis) mod two32 < two31) /\
     (ttlMillis < two31 ->
      (forall d, 0 <= d < ttlMillis ->
                 isRecordExpired (to_uint32 (now + d)) (expiryMillis r) = false) /\
      (forall d, ttlMillis <= d < ttlMillis + two31 ->
                 isRecordExpired (to_uint32 (now + d)) (expiryMillis r) = true)) /\
     (two31 < ttlMillis -> 0 <= now < two32 ->
      live now r = false /\ count db' now = count db now)).
Proof.
  intros Hpos Hins.
  destruct (insert_ok_inv _ _ _ _ _ _ _ Hins)
    as (vals & db1 & h1 & h2 & fs & -> & Ht & _ & Hmax & _ & _ & _ & _).
  destruct (insert_ok_shape _ _ _ _ _ _ _ Hins) as ((Ht' & _) & fs' & Hr & _).
  cbn [set_records _tableExists] in Ht'.
  split; [exact Hmax|].
  exists (mkRecord (Some fs') (if 0 <? ttlMillis then to_uint32 (now + ttlMillis) else 0) true).
  split; [exact Hr|]. split; [reflexivity|]. cbn [expiryMillis].
  split; [intros ->; reflexivity|]. split.
  { intros Hz t. destruct (0 <? ttlMillis); [|reflexivity].
    unfold to_uint32. rewrite Hz. reflexivity. }
  intros Hlt Hnz.
  assert (Hb : (0 <? ttlMillis) = true) by (apply Z.ltb_lt; exact Hlt).
  rewrite Hb in Hr |- *.
  assert (Hwin : forall d, isRecordExpired (to_uint32 (now + d)) (to_uint32 (now + ttlMillis)) = true
                           <-> (d - ttlMillis) mod two32 < two31)
    by (intros d; apply expired_after; exact Hnz).
  split; [exact Hwin|]. split.
  - intros Hsmall. split; intros d Hd.
    + apply not_true_is_false. intros Hexp. apply Hwin in Hexp.
      replace (d - ttlMillis) with (d - ttlMillis + two32 + (-1) * two32) in Hexp by lia.
      rewrite Z.mod_add in Hexp by (unfold two32; lia).
      rewrite Z.mod_small in Hexp; unfold two32, two31 in *; lia.
    + apply Hwin. rewrite Z.mod_small; unfold two32, two31 in *; lia.
  - intros Hbig Hnow.
    assert (Hdead : isRecordExpired now (to_uint32 (now + ttlMillis)) = true).
    { replace now with (to_uint32 (now + 0)) at 1
        by (rewrite Z.add_0_r; apply to_uint32_small; exact Hnow).
      apply Hwin.
      replace (0 - ttlMillis) with (two32 - ttlMillis + (-1) * two32) by lia.
      rewrite Z.mod_add by (unfold two32; lia).
      unfold IMDB_MAX_TTL_MS in Hmax.
      rewrite Z.mod_small; unfold two32, two31 in *; lia. }
    split.
    + unfold live. cbn [isValid expiryMillis]. rewrite Hdead. reflexivity.
    + unfold count. rewrite Ht', Ht. cbn [negb]. rewrite Hr, !count_live_filter.
      rewrite List.filter_app, length_app. cbn [List.filter]. unfold live at 2.
      cbn [isValid expiryMillis]. rewrite Hdead. cbn. lia.
Qed.

Lemma insert_ttl_window_witness :
  (insert (Example.row 3 "c") 2500000000 Example.db2 Example.two_rows.2 1000).1.1 = IMDB_OK /\
  count (insert (Example.row 3 "c") 2500000000 Example.db2 Example.two_rows.2 1000).1.2 1000
    = count Example.db2 1000.
Proof.
  split; [vm_compute; reflexivity|].
  destruct (insert (Example.row 3 "c") 2500000000 Example.db2 Example.two_rows.2 1000)
    as [[result db'] h'] eqn:Hins.
  assert (Hok : result = IMDB_OK)
    by (apply (f_equal (fun x => x.1.1)) in Hins; vm_compute in Hins; congruence).
  subst result.
  destruct (insert_ttl_window (Example.row 3 "c") 2500000000 Example.db2 Example.two_rows.2
              1000 db' h' ltac:(lia) Hins) as (_ & r & _ & _ & _ & _ & Hwin).
  destruct Hwin as (_ & _ & Hbig); [lia | vm_compute; discriminate |].
  destruct Hbig as [_ Hcount]; [unfold two31; lia | unfold two32; lia |].
  exact Hcount.
Defined.

Lemma Example_db2_inserts_only : inserts_only Example.db2.
Proof.
  assert (Hcreated : inserts_only Example.created.1.2).
  { apply (inserts_created Example.schema 2 new_ESP32IMDB Example.heap0
             Example.created.1.2 Example.created.2);
      [reflexivity | reflexivity | lia | simpl; lia | vm_compute; reflexivity]. }
  assert (Hone : inserts_only Example.one_row.1.2).
  { apply (inserts_inserted Example.created.1.2 (Example.row 1 "a") 0 Example.created.2 1000
             Example.one_row.1.2 Example.one_row.2 Hcreated);
      [unfold two32; lia | vm_compute; reflexivity]. }
  apply (inserts_inserted Example.one_row.1.2 (Example.row 2 "b") 100 Example.one_row.2 1000
           Example.db2 Example.two_rows.2 Hone);
    [unfold two32; lia | vm_compute; reflexivity].
Defined.

Lemma growRecordArray_ok db h db' h' :
  growRecordArray db h = (IMDB_OK, db', h') ->
  _recordCapacity db' = _recordCapacity db * 2 /\ _records db' = _records db.
Proof.
  unfold growRecordArray.
  destruct (negb (checkHeapLimit h)); [discriminate|].
  destruct (INT_MAX / 2 <? _recordCapacity db); [discriminate|].
  destruct (realloc _ _ h) as [[|] h1]; [|discriminate].
  intros [= <- _]. split; reflexivity.
Qed.

(** X10.  The record array never overflows: in every store that
    [createTable] and successful [insert]s produce, the number of records is
    at most the capacity of the array, which is at least the 10 slots of
    [createTable]; so the slot [insert] writes is always inside the array. *)
Theorem record_array_never_overflows (db : ESP32IMDB) :
  inserts_only db ->
  0 <= _recordCount db <= _recordCapacity db /\ 10 <= _recordCapacity db.
Proof.
  induction 1 as [cols columnCount db0 h db h' Hnone Hempty Hcount Hlen Hcreate
                 | db values ttlMillis h now db' h' Hdb IH Hnow Hinsert].
  - unfold createTable in Hcreate. rewrite Hnone in Hcreate.
    destruct (Z.eqb_spec columnCount 0); [lia|].
    destruct (negb (checkHeapLimit h)); [discriminate|].
    destruct (malloc _ h) as [[|] h1]; [|discriminate].
    destruct (malloc _ h1) as [[|] h2]; [|discriminate].
    injection Hcreate as <- _. unfold _recordCount. cbn. lia.
  - destruct (insert_ok_inv _ _ _ _ _ _ _ Hinsert)
      as (vals & db1 & h1 & h2 & fs & _ & _ & _ & _ & Hgrow & _ & _ & ->).
    unfold _recordCount in *. cbn [set_records _records _recordCapacity].
    rewrite length_app. cbn [length].
    destruct (Z.leb_spec (_recordCapacity db) (Z.of_nat (length (_records db)))) as [Hfull|Hroom].
    + apply growRecordArray_ok in Hgrow as [-> ->]. lia.
    + injection Hgrow as <- _. lia.
Qed.

Lemma record_array_never_overflows_witness :
  0 <= _recordCount Example.db2 <= _recordCapacity Example.db2.
Proof.
  exact (proj1 (record_array_never_overflows Example.db2 Example_db2_inserts_only)).
Defined.

(** *** Updating *)

Lemma Forall2_same {A} (P : A -> A -> Prop) (l : list A) :
  (forall x, P x x) -> Forall2 P l l.
Proof. intros HP. induction l; constructor; auto. Qed.

Lemma update_loop_frame db now whereIdx whereValue setIdx setValue recs h updated :
  Forall2 (fun r r' =>
             expiryMillis r' = expiryMillis r /\ isValid r' = isValid r /\
             (r' = r \/
              (live now r = true /\ matches db whereIdx whereValue r = true /\
               exists f, r' = set_field r setIdx f)))
          recs (update_loop db now whereIdx whereValue setIdx setValue recs h updated).1.1.2.
Proof.
  revert h updated. induction recs as [|r recs IH]; intros h updated; [constructor|].
  cbn [update_loop]. rewrite live_skip.
  destruct (live now r) eqn:Hlive; cbn [negb].
  - destruct (matches db whereIdx whereValue r) eqn:Hm.
    + destruct (match column_type db setIdx with
                | IMDB_TYPE_STRING =>
                    match get_string (field_or_zero r setIdx) with
                    | Some s => (stringValue None, free (string_size s) h)
                    | None => (field_or_zero r setIdx, h)
                    end
                | _ => (field_or_zero r setIdx, h)
                end) as [cleared h1] eqn:Hclear.
      assert (Hset : forall f,
                expiryMillis (set_field r setIdx f) = expiryMillis r /\
                isValid (set_field r setIdx f) = isValid r /\
                (set_field r setIdx f = r \/
                 (live now r = true /\ matches db whereIdx whereValue r = true /\
                  exists f0, set_field r setIdx f = set_field r setIdx f0))).
      { intros f. split; [reflexivity|]. split; [reflexivity|]. right. eauto. }
      assert (Hsame : Forall2 (fun r0 r' =>
                 expiryMillis r' = expiryMillis r0 /\ isValid r' = isValid r0 /\
                 (r' = r0 \/
                  (live now r0 = true /\ matches db whereIdx whereValue r0 = true /\
                   exists f, r' = set_field r0 setIdx f))) recs recs)
        by (apply Forall2_same; intros x; auto).
      replace (match column_type db setIdx with
               | IMDB_TYPE_STRING =>
                   match get_string (field_or_zero r setIdx) with
                   | Some s => (stringValue None, free (string_size s) h)
                   | None => (field_or_zero r setIdx, h)
                   end
               | _ => (field_or_zero r setIdx, h)
               end) with (cleared, h1)
        by (rewrite <- Hclear; destruct (column_type db setIdx); reflexivity).
      destruct (copyFieldValue cleared setValue (column_type db setIdx) h1) as [[result f] h2].
      specialize (IH h2 true).
      destruct (update_loop db now whereIdx whereValue setIdx setValue recs h2 true)
        as [[[e rest] h'] u].
      destruct result; cbn [fst snd] in *; constructor; auto.
    + specialize (IH h updated).
      destruct (update_loop db now whereIdx whereValue setIdx setValue recs h updated)
        as [[[e rest] h'] u].
      cbn [fst snd] in *. constructor; auto.
  - specialize (IH h updated).
    destruct (update_loop db now whereIdx whereValue setIdx setValue recs h updated)
      as [[[e rest] h'] u].
    cbn [fst snd] in *. constructor; auto.
Qed.

(** X11.  What [update] can touch.  Whatever it returns, [update] leaves
    the columns, the capacity and the number of records as they are, and
    every record keeps its validity and its expiry time: an update does not
    renew a TTL.  A record is either unchanged, or it is live at the clock
    of the call, matches the where clause, and differs in nothing but the
    field of the set-column. *)
Theorem update_frame (whereColumn : string) (whereValue : IMDBFieldValue)
    (setColumn : string) (setValue : IMDBFieldValue) (db : ESP32IMDB) (h : Heap) (now : Z) :
  let db' := (update (Some whereColumn) (Some whereValue) (Some setColumn) (Some setValue)
                     db h now).1.2 in
  _columns db' = _columns db /\ _columnCount db' = _columnCount db /\
  _recordCapacity db' = _recordCapacity db /\ _tableExists db' = _tableExists db /\
  _recordCount db' = _recordCount db /\
  Forall2 (fun r r' =>
             expiryMillis r' = expiryMillis r /\ isValid r' = isValid r /\
             (r' = r \/
              (live now r = true /\
               matches db (findColumnIndex db whereColumn) whereValue r = true /\
               exists f, r' = set_field r (findColumnIndex db setColumn) f)))
          (_records db) (_records db').
Proof.
  cbv zeta.
  assert (Hrefl : Forall2 (fun r r' =>
             expiryMillis r' = expiryMillis r /\ isValid r' = isValid r /\
             (r' = r \/
              (live now r = true /\
               matches db (findColumnIndex db whereColumn) whereValue r = true /\
               exists f, r' = set_field r (findColumnIndex db setColumn) f)))
          (_records db) (_records db))
    by (apply Forall2_same; intros x; auto).
  unfold update. destruct (negb (_tableExists db)); [cbn; repeat split; auto|].
  destruct ((findColumnIndex db whereColumn <? 0) || (findColumnIndex db setColumn <? 0));
    [cbn; repeat split; auto|].
  pose proof (update_loop_frame db now (findColumnIndex db whereColumn) whereValue
                (findColumnIndex db setColumn) setValue (_records db) h false) as Hframe.
  destruct (update_loop db now (findColumnIndex db whereColumn) whereValue
              (findColumnIndex db setColumn) setValue (_records db) h false)
    as [[[e recs] h'] u].
  cbn [fst snd] in Hframe.
  assert (Hlen : length recs = length (_records db))
    by (symmetry; apply (Forall2_length _ _ _ Hframe)).
  destruct e as [result|]; cbn [fst snd set_records _columns _columnCount _recordCapacity
                                  _tableExists _records]; unfold _recordCount;
    cbn [fst snd set_records _records]; rewrite Hlen; repeat split; auto.
Qed.

Lemma update_loop_scalar db now whereIdx whereValue setIdx setValue recs h updated :
  column_type db setIdx <> IMDB_TYPE_STRING ->
  update_loop db now whereIdx whereValue setIdx setValue recs h updated =
  (None,
   map (fun r =>
          if live now r && matches db whereIdx whereValue r
          then set_field r setIdx
                 (copyFieldValue (field_or_zero r setIdx) setValue (column_type db setIdx) h).1.2
          else r) recs,
   h,
   updated || existsb (fun r => live now r && matches db whereIdx whereValue r) recs).
Proof.
  intros Ht. revert updated. induction recs as [|r recs IH]; intros updated.
  - cbn. rewrite orb_false_r. reflexivity.
  - cbn [update_loop map existsb]. rewrite live_skip.
    destruct (live now r); cbn [negb andb orb].
    + destruct (matches db whereIdx whereValue r).
      * destruct (column_type db setIdx) eqn:Hty; try contradiction;
          cbn [copyFieldValue fst snd]; rewrite IH; rewrite ?orb_true_r; reflexivity.
      * rewrite IH. reflexivity.
    + rewrite IH. reflexivity.
Qed.

(** X12.  An [update] that sets a column of a type other than
    IMDB_TYPE_STRING cannot fail once the table and both columns exist: it
    rewrites the set-field of exactly the records that are live at the clock
    of the call and match the where clause (each tested before it is
    rewritten, also when the where-column is the set-column), with the
    value [copyFieldValue] makes of [*setValue]; it returns IMDB_OK when
    there is such a record and IMDB_ERROR_NO_RECORDS otherwise, and it
    leaves the heap alone. *)
Theorem update_scalar_column (whereColumn : string) (whereValue : IMDBFieldValue)
    (setColumn : string) (setValue : IMDBFieldValue) (db : ESP32IMDB) (h : Heap) (now : Z) :
  _tableExists db = true ->
  0 <= findColumnIndex db whereColumn ->
  0 <= findColumnIndex db setColumn ->
  column_type db (findColumnIndex db setColumn) <> IMDB_TYPE_STRING ->
  let whereIdx := findColumnIndex db whereColumn in
  let setIdx := findColumnIndex db setColumn in
  let hit r := live now r && matches db whereIdx whereValue r in
  update (Some whereColumn) (Some whereValue) (Some setColumn) (Some setValue) db h now =
  (if existsb hit (_records db) then IMDB_OK else IMDB_ERROR_NO_RECORDS,
   set_records db
     (map (fun r =>
             if hit r
             then set_field r setIdx
                    (copyFieldValue (field_or_zero r setIdx) setValue (column_type db setIdx) h).1.2
             else r) (_records db)),
   h).
Proof.
  intros Ht Hw Hs Hty whereIdx setIdx hit.
  unfold update. rewrite Ht. cbn [negb].
  replace (findColumnIndex db whereColumn <? 0) with false
    by (symmetry; apply Z.ltb_ge; exact Hw).
  replace (findColumnIndex db setColumn <? 0) with false
    by (symmetry; apply Z.ltb_ge; exact Hs).
  cbn [orb]. rewrite (update_loop_scalar _ _ _ _ _ _ _ _ _ Hty). cbn [orb]. reflexivity.
Qed.

Lemma update_scalar_column_witness :
  _records (update (Some "name"%string) (Some (stringValue (Some "b"%string)))
                   (Some "id"%string) (Some (int32Value 5)) Example.db2 Example.heap0 1000).1.2
  = [mkRecord (Some [int32Value 1; stringValue (Some "a"%string)]) 0 true;
     mkRecord (Some [int32Value 5; stringValue (Some "b"%string)]) 1100 true].
Proof.
  rewrite (update_scalar_column "name" (stringValue (Some "b"%string)) "id" (int32Value 5)
             Example.db2 Example.heap0 1000);
    [reflexivity | reflexivity | vm_compute; discriminate | vm_compute; discriminate
     | vm_compute; discriminate].
Defined.




(** *** Reading back what was written *)

Lemma to_int32_idem v : to_int32 (to_int32 v) = to_int32 v.
Proof.
  rewrite <- (to_int32_to_uint32 (to_int32 v)), to_uint32_to_int32.
  apply to_int32_to_uint32.
Qed.

Lemma to_uint32_idem v : to_uint32 (to_uint32 v) = to_uint32 v.
Proof. unfold to_uint32. apply Z.mod_mod. unfold two32. lia. Qed.

Lemma substring_full (s : string) : String.substring 0 (String.length s) s = s.
Proof. induction s as [|c s IH]; [reflexivity|]. cbn. rewrite IH. reflexivity. Qed.

(** The copy [copyFieldValue] stores equals the value it was made from. *)
Lemma copy_then_compare dest src t h f h' :
  copyFieldValue dest src t h = (IMDB_OK, f, h') ->
  comparable t src ->
  compareValues (Some f) (Some src) t IMDB_OP_EQUAL = true.
Proof.
  destruct t; cbn [copyFieldValue comparable compareValues].
  - intros [= <- _] _. cbn [get_int32].
    replace (to_int32 (get_int32 src)) with (get_int32 src);
      [apply Z.eqb_refl|].
    destruct src; cbn [get_int32]; try reflexivity; symmetry; apply to_int32_idem.
  - intros [= <- _] _. cbn [get_mac].
    replace (mac6 (get_mac src)) with (get_mac src);
      [apply bool_decide_eq_true; reflexivity|].
    destruct src; cbn [get_mac]; symmetry; apply mac6_idem.
  - intros Hcopy (s & Hs & Hlen). rewrite Hs in Hcopy |- *.
    replace (IMDB_MAX_STRING_LENGTH <? strlen s) with false in Hcopy
      by (symmetry; apply Z.ltb_ge; exact Hlen).
    destruct (malloc (strlen s + 1) h) as [[|] h1]; [|discriminate].
    injection Hcopy as <- _. cbn [get_string].
    unfold strcmp_eq, strncpy, strlen. rewrite Nat2Z.id, substring_full.
    rewrite <- (substring_full (c_str s)) at 1. rewrite c_str_substring, substring_full.
    apply String.eqb_refl.
  - intros [= <- _] _. cbn [get_epoch].
    replace (to_uint32 (get_epoch src)) with (get_epoch src);
      [apply Z.eqb_refl|].
    destruct src; cbn [get_epoch]; try reflexivity; symmetry; apply to_uint32_idem.
  - intros [= <- _] _. cbn [get_bool]. apply eqb_reflx.
  - intros [= <- _] Hnan. cbn [get_float].
    replace (to_uint32 (get_float src)) with (get_float src); [exact Hnan|].
    destruct src; cbn [get_float]; try reflexivity; symmetry; apply to_uint32_idem.
Qed.

Lemma insert_loop_before db values k i fs h fs' h' :
  insert_loop db values k i fs h = (IMDB_OK, fs', h') ->
  forall j, (j < i)%nat -> fs' !! j = fs !! j.
Proof.
  revert i fs h. induction k as [|k IH]; intros i fs h; cbn [insert_loop].
  - intros [= <- _] j _. reflexivity.
  - destruct (values !! i) as [[v|]|]; try discriminate.
    destruct (fs !! i) as [dest|]; try discriminate.
    destruct (copyFieldValue dest v (column_type db (Z.of_nat i)) h) as [[result f] h1].
    destruct result; try discriminate.
    intros Hloop j Hj. rewrite (IH _ _ _ Hloop j ltac:(lia)).
    apply list_lookup_insert_ne. lia.
Qed.

Lemma insert_loop_fields db values k i fs h fs' h' :
  insert_loop db values k i fs h = (IMDB_OK, fs', h') ->
  forall j, (i <= j < i + k)%nat ->
    exists v dest hj f hj',
      values !! j = Some (Some v) /\
      copyFieldValue dest v (column_type db (Z.of_nat j)) hj = (IMDB_OK, f, hj') /\
      fs' !! j = Some f.
Proof.
  revert i fs h. induction k as [|k IH]; intros i fs h; cbn [insert_loop].
  - intros _ j Hj. lia.
  - destruct (values !! i) as [[v|]|] eqn:Hv; try discriminate.
    destruct (fs !! i) as [dest|] eqn:Hdest; try discriminate.
    destruct (copyFieldValue dest v (column_type db (Z.of_nat i)) h) as [[result f] h1] eqn:Hcopy.
    destruct result; try discriminate.
    intros Hloop j Hj. destruct (Nat.eq_dec j i) as [->|Hne].
    + exists v, dest, h, f, h1. split; [exact Hv|]. split; [exact Hcopy|].
      rewrite (insert_loop_before _ _ _ _ _ _ _ _ Hloop i ltac:(lia)).
      apply list_lookup_insert_eq. apply lookup_lt_Some in Hdest. exact Hdest.
    + apply (IH _ _ _ Hloop j). lia.
Qed.

(** X14.  A record is found once it is inserted.  After an [insert] with a
    TTL below [2^31] that returns IMDB_OK, at the clock of the call [count]
    has grown by one, and [countWhere] finds at least one record for every
    column and the value inserted for it, provided the value is
    [comparable]: a string longer than 255 characters is stored truncated
    and a NaN equals nothing, itself included, so neither is found. *)
Theorem insert_is_visible (vals : list (option IMDBFieldValue)) (ttlMillis : Z)
    (db : ESP32IMDB) (h : Heap) (now : Z) (db' : ESP32IMDB) (h' : Heap) :
  0 <= now < two32 ->
  0 <= ttlMillis < two31 ->
  insert (Some vals) ttlMillis db h now = (IMDB_OK, db', h') ->
  count db' now = count db now + 1 /\
  getRecordCount db' = getRecordCount db + 1 /\
  (forall columnName v,
     0 <= findColumnIndex db columnName ->
     vals !! Z.to_nat (findColumnIndex db columnName) = Some (Some v) ->
     comparable (column_type db (findColumnIndex db columnName)) v ->
     0 < countWhere (Some columnName) (Some v) db' now).
Proof.
  intros Hnow Httl Hins.
  destruct (insert_ok_inv _ _ _ _ _ _ _ Hins)
    as (vals0 & db1 & h1 & h2 & fs & [= <-] & Ht & _ & _ & Hgrow & _ & Hloop & Hdb').
  assert (Hsame : same_table db db1).
  { destruct (_recordCapacity db <=? _recordCount db).
    - pose proof (growRecordArray_spec db h) as [Hs _]. rewrite Hgrow in Hs. exact Hs.
    - injection Hgrow as <- _. apply same_table_refl. }
  pose proof Hsame as (Ht1 & Hc1 & Hn1 & Hr1).
  set (expiry := if 0 <? ttlMillis then to_uint32 (now + ttlMillis) else 0) in *.
  set (r := mkRecord (Some fs) expiry true) in *.
  assert (Hlive : live now r = true).
  { unfold live. cbn [r isValid expiryMillis andb]. apply negb_true_iff.
    unfold expiry. destruct (Z.ltb_spec 0 ttlMillis) as [Hpos|_]; [|reflexivity].
    destruct (Z.eq_dec ((now + ttlMillis) mod two32) 0) as [Hz|Hnz].
    - unfold to_uint32. rewrite Hz. reflexivity.
    - apply not_true_is_false. intros Hexp.
      replace now with (to_uint32 (now + 0)) in Hexp at 1
        by (rewrite Z.add_0_r; apply to_uint32_small; exact Hnow).
      apply (expired_after now ttlMillis 0 Hnz) in Hexp.
      replace (0 - ttlMillis) with (two32 - ttlMillis + (-1) * two32) in Hexp by lia.
      rewrite Z.mod_add in Hexp by (unfold two32; lia).
      rewrite Z.mod_small in Hexp; unfold two32, two31 in *; lia. }
  assert (Hrecs : _records db' = _records db ++ [r]).
  { rewrite Hdb'. cbn [set_records _records]. rewrite Hr1. reflexivity. }
  assert (Ht' : _tableExists db' = true).
  { rewrite Hdb'. cbn [set_records _tableExists]. congruence. }
  split; [|split].
  - unfold count. rewrite Ht', Ht. cbn [negb]. rewrite Hrecs, !count_live_filter.
    rewrite List.filter_app, length_app. cbn [List.filter]. rewrite Hlive. cbn [length]. lia.
  - unfold getRecordCount, _recordCount. rewrite Hrecs, length_app. cbn [length]. lia.
  - intros columnName v Hidx Hv Hcmp.
    assert (Hsame' : same_table db (set_records db' (_records db))).
    { rewrite Hdb'. repeat split; cbn [set_records _tableExists _columns _columnCount _records];
        assumption. }
    assert (Hcols : columns_of db' = columns_of db).
    { rewrite <- (columns_of_same db _ Hsame'). reflexivity. }
    assert (Hfind : findColumnIndex db' columnName = findColumnIndex db columnName)
      by (unfold findColumnIndex; rewrite Hcols; reflexivity).
    assert (Htype : forall i, column_type db' i = column_type db i)
      by (intros i; unfold column_type; rewrite Hcols; reflexivity).
    set (idx := findColumnIndex db columnName) in *.
    assert (Hrange : (0 <= Z.to_nat idx < 0 + Z.to_nat (_columnCount db1))%nat).
    { split; [lia|]. cbn [Nat.add].
      destruct (findColumnIndex_from_spec 0 (columns_of db) columnName)
        as [[Hk _] | (n & c & Hk & Hn & _)]; fold (findColumnIndex db columnName) in Hk;
        fold idx in Hk; [lia|].
      apply lookup_lt_Some in Hn. unfold columns_of in Hn. rewrite length_take in Hn.
      rewrite Hn1. lia. }
    destruct (insert_loop_fields _ _ _ _ _ _ _ _ Hloop (Z.to_nat idx) Hrange)
      as (v0 & dest & hj & f & hj' & Hv0 & Hcopy & Hf).
    rewrite Hv in Hv0. injection Hv0 as <-.
    rewrite Z2Nat.id in Hcopy by exact Hidx.
    rewrite (column_type_same db db1 Hsame) in Hcopy.
    assert (Hmatch : matches db' idx v r = true).
    { unfold matches, field_at. cbn [r fields]. rewrite Hf, Htype.
      apply (copy_then_compare _ _ _ _ _ _ Hcopy Hcmp). }
    unfold countWhere. rewrite Ht'. cbn [negb]. rewrite Hfind.
    replace (idx <? 0) with false by (symmetry; apply Z.ltb_ge; exact Hidx).
    rewrite count_matches_filter, Hrecs, List.filter_app, length_app.
    cbn [List.filter]. rewrite Hlive, Hmatch. cbn [andb length]. lia.
Qed.

Lemma insert_is_visible_witness :
  0 < countWhere (Some "name"%string) (Some (stringValue (Some "c"%string)))
        (insert (Example.row 3 "c") 50 Example.db2 Example.two_rows.2 1000).1.2 1000.
Proof.
  destruct (insert (Example.row 3 "c") 50 Example.db2 Example.two_rows.2 1000)
    as [[result db'] h'] eqn:Hins.
  assert (Hok : result = IMDB_OK)
    by (apply (f_equal (fun x => x.1.1)) in Hins; vm_compute in Hins; congruence).
  subst result.
  destruct (insert_is_visible [Some (int32Value 3); Some (stringValue (Some "c"%string))] 50
              Example.db2 Example.two_rows.2 1000 db' h'
              ltac:(unfold two32; lia) ltac:(unfold two31; lia) Hins) as (_ & _ & Hfind).
  apply Hfind.
  - vm_compute. discriminate.
  - reflexivity.
  - exists "c"%string. split; [reflexivity | vm_compute; discriminate].
Defined.

(** *** Extrema of an integer column *)

Lemma aggregate_int32 loop init column res db now :
  _tableExists db = true ->
  0 <= findColumnIndex db column ->
  column_type db (findColumnIndex db column) = IMDB_TYPE_INT32 ->
  let st := loop IMDB_TYPE_INT32 now (findColumnIndex db column) (_records db) init in
  aggregate loop init (Some column) (Some res) db now =
  if ext_hasValue st
  then (IMDB_OK,
        Some (mkSelectResult (ext_int st) (macAddress_r res) (stringValue_r res)
                (epochValue_r res) (boolValue_r res) (floatValue_r res) IMDB_TYPE_INT32 true))
  else (IMDB_ERROR_NO_RECORDS, Some (set_hasValue false res)).
Proof.
  intros Ht Hidx Htype st. unfold aggregate. rewrite Ht. cbn [negb].
  destruct (Z.ltb_spec (findColumnIndex db column) 0); [lia|].
  rewrite Htype. cbn [numeric negb]. fold st. destruct (ext_hasValue st); reflexivity.
Qed.

(** X15.  On a column of type IMDB_TYPE_INT32, [min] and [max] return the
    least and the greatest of the values the records live at the clock of
    the call hold in the column, with [hasValue] set and the type of the
    column, so that the minimum is at most the maximum; when no record is
    live both answer IMDB_ERROR_NO_RECORDS with [hasValue] cleared. *)
Theorem int32_extrema (column : string) (res : IMDBSelectResult) (db : ESP32IMDB) (now : Z) :
  _tableExists db = true ->
  0 <= findColumnIndex db column ->
  column_type db (findColumnIndex db column) = IMDB_TYPE_INT32 ->
  let vals := map get_int32 (live_values now (findColumnIndex db column) (_records db)) in
  (vals = [] ->
   min (Some column) (Some res) db now = (IMDB_ERROR_NO_RECORDS, Some (set_hasValue false res)) /\
   max (Some column) (Some res) db now = (IMDB_ERROR_NO_RECORDS, Some (set_hasValue false res))) /\
  (vals <> [] ->
   exists lo hi,
     min (Some column) (Some res) db now = (IMDB_OK, Some lo) /\
     max (Some column) (Some res) db now = (IMDB_OK, Some hi) /\
     hasValue lo = true /\ hasValue hi = true /\
     type_r lo = IMDB_TYPE_INT32 /\ type_r hi = IMDB_TYPE_INT32 /\
     In (int32Value_r lo) vals /\ In (int32Value_r hi) vals /\
     (forall v, In v vals -> int32Value_r lo <= v <= int32Value_r hi) /\
     int32Value_r lo <= int32Value_r hi).
Proof.
  intros Ht Hidx Htype vals.
  pose proof (aggregate_int32 min_loop (mkExtremum false 2147483647 Float32.FLT_MAX)
                column res db now Ht Hidx Htype) as Hmin.
  pose proof (aggregate_int32 max_loop (mkExtremum false (to_int32 2147483648) Float32.neg_FLT_MAX)
                column res db now Ht Hidx Htype) as Hmax.
  cbv zeta in Hmin, Hmax.
  rewrite min_loop_fold in Hmin by discriminate.
  rewrite max_loop_fold in Hmax by discriminate.
  fold vals in Hmin, Hmax. fold (min (Some column) (Some res) db now) in Hmin.
  fold (max (Some column) (Some res) db now) in Hmax.
  split.
  - intros Hnil. rewrite Hnil in Hmin, Hmax. split; [exact Hmin | exact Hmax].
  - intros Hvals.
    pose proof (fold_extremum Z.ltb Z.le
        ltac:(intros x; lia) ltac:(intros x y z; lia)
        ltac:(intros v x H; apply Z.ltb_lt in H; lia)
        ltac:(intros v x H; apply Z.ltb_ge in H; lia)
        vals (mkExtremum false 2147483647 Float32.FLT_MAX) eq_refl Hvals)
      as (Hhas & Hin & Hle).
    pose proof (fold_extremum (fun v x => x <? v) (fun a b => b <= a)
        ltac:(intros x; cbv beta; lia) ltac:(intros x y z; cbv beta; lia)
        ltac:(intros v x H; cbv beta in *; apply Z.ltb_lt in H; lia)
        ltac:(intros v x H; cbv beta in *; apply Z.ltb_ge in H; lia)
        vals (mkExtremum false (to_int32 2147483648) Float32.neg_FLT_MAX) eq_refl Hvals)
      as (Hhas' & Hin' & Hge).
    cbv zeta in Hhas, Hin, Hle, Hhas', Hin', Hge.
    rewrite Hhas in Hmin. rewrite Hhas' in Hmax.
    eexists. eexists. split; [exact Hmin|]. split; [exact Hmax|].
    cbn [hasValue type_r int32Value_r].
    repeat split; try reflexivity; try assumption.
    + apply Hle. assumption.
    + apply Hge. assumption.
    + apply Hle. exact Hin'.
Qed.

Lemma int32_extrema_witness :
  exists lo hi,
    min (Some "id"%string) (Some fresh_result) Example.db2 1000 = (IMDB_OK, Some lo) /\
    max (Some "id"%string) (Some fresh_result) Example.db2 1000 = (IMDB_OK, Some hi) /\
    int32Value_r lo = 1 /\ int32Value_r hi = 2.
Proof.
  pose proof (int32_extrema "id" fresh_result Example.db2 1000) as H.
  destruct H as [_ H]; [reflexivity | vm_compute; discriminate | reflexivity |].
  destruct H as (lo & hi & Hmin & Hmax & _); [vm_compute; discriminate|].
  exists lo, hi. split; [exact Hmin|]. split; [exact Hmax|].
  vm_compute in Hmin, Hmax. injection Hmin as <-. injection Hmax as <-.
  split; reflexivity.
Defined.

(** *** Heap accounting *)

Lemma strings_bytes_nonneg cols fs : 0 <= strings_bytes cols fs.
Proof.
  revert fs. induction cols as [|c cols IH]; intros [|f fs]; cbn [strings_bytes]; try lia.
  specialize (IH fs). unfold cell_bytes, string_size.
  destruct (type c), (get_string f); lia.
Qed.

Lemma size_t_range z : 0 <= size_t z < two32.
Proof. apply to_uint32_range. Qed.

Lemma record_heap_nonneg db r : 0 <= record_heap db r.
Proof.
  unfold record_heap, fields_size. destruct (fields r) as [fs|]; [|lia].
  pose proof (strings_bytes_nonneg (columns_of db) fs).
  pose proof (size_t_range (sizeof_IMDBFieldValue * _columnCount db)). lia.
Qed.

Lemma records_heap_nonneg db recs : 0 <= records_heap db recs.
Proof.
  unfold records_heap. induction recs as [|r recs IH]; cbn [map fold_right]; [lia|].
  pose proof (record_heap_nonneg db r). lia.
Qed.

Lemma records_heap_app db a b :
  records_heap db (a ++ b) = records_heap db a + records_heap db b.
Proof.
  unfold records_heap. induction a as [|r a IH]; cbn [app map fold_right]; lia.
Qed.

Lemma records_heap_one db fs e v :
  records_heap db [mkRecord (Some fs) e v] = fields_size db + strings_bytes (columns_of db) fs.
Proof. unfold records_heap, record_heap. cbn [map fold_right fields]. lia. Qed.

Lemma records_heap_set_records db recs0 recs :
  records_heap (set_records db recs0) recs = records_heap db recs.
Proof. reflexivity. Qed.

Lemma records_heap_split db (p : IMDBRecord -> bool) recs :
  records_heap db recs =
  records_heap db (List.filter p recs) + records_heap db (List.filter (fun r => negb (p r)) recs).
Proof.
  unfold records_heap. induction recs as [|r recs IH]; [reflexivity|].
  cbn [List.filter map fold_right]. destruct (p r); cbn [negb map fold_right]; lia.
Qed.

Lemma size_t_add_l a b : size_t (size_t a + b) = size_t (a + b).
Proof. unfold size_t, to_uint32. apply Zplus_mod_idemp_l. Qed.

Lemma size_t_add_r a b : size_t (a + size_t b) = size_t (a + b).
Proof. unfold size_t, to_uint32. apply Zplus_mod_idemp_r. Qed.

Lemma usage_strings_wf cols fs total :
  wf_fields cols fs ->
  usage_strings cols fs (size_t total) = size_t (total + strings_bytes cols fs).
Proof.
  intros Hwf. revert total. induction Hwf as [|c f cols fs Hf Hwf IH]; intros total.
  - cbn [usage_strings strings_bytes]. rewrite Z.add_0_r. reflexivity.
  - cbn [usage_strings strings_bytes]. unfold cell_bytes.
    destruct (type c) eqn:Hty; try (rewrite IH; f_equal; lia).
    destruct f as [| |[s|]| | |]; cbn [wf_field] in Hf; try contradiction;
      cbn [get_string]; [|rewrite IH; f_equal; lia].
    destruct Hf as [Hs _]. rewrite size_t_add_l, IH. f_equal.
    unfold strlen, string_size. rewrite Hs. lia.
Qed.

Lemma usage_records_wf db recs total :
  Forall (wf_record (columns_of db)) recs ->
  usage_records db recs (size_t total) = size_t (total + records_heap db recs).
Proof.
  intros Hwf. revert total. induction Hwf as [|r recs Hr Hwf IH]; intros total.
  - unfold records_heap. cbn. rewrite Z.add_0_r. reflexivity.
  - destruct Hr as (_ & _ & fs & Hfs & Hwfs).
    unfold records_heap in *. cbn [usage_records map fold_right]. unfold record_heap at 1.
    rewrite Hfs, size_t_add_l, size_t_add_r, (usage_strings_wf _ _ _ Hwfs), IH.
    unfold fields_size.
    replace (total +
             (size_t (sizeof_IMDBFieldValue * _columnCount db)
              + strings_bytes (columns_of db) fs
              + foldr Z.add 0 (map (record_heap db) recs)))
      with (size_t (sizeof_IMDBFieldValue * _columnCount db)
            + (total + strings_bytes (columns_of db) fs
               + foldr Z.add 0 (map (record_heap db) recs))) by lia.
    rewrite size_t_add_l. f_equal. lia.
Qed.

Lemma freeRecord_bytes db r h :
  _columns db <> None ->
  freeBytes (freeRecord db r h).2 = freeBytes h + record_heap db r.
Proof.
  intros Hc. unfold freeRecord, record_heap. destruct (fields r) as [fs|]; cbn [snd]; [|lia].
  destruct (_columns db); [|contradiction]. cbn [free freeBytes].
  destruct (free_strings_bytes (columns_of db) fs h) as (-> & _). lia.
Qed.

Lemma free_records_bytes db recs h :
  _columns db <> None ->
  freeBytes (free_records db recs h) = freeBytes h + records_heap db recs.
Proof.
  intros Hc. unfold records_heap. revert h.
  induction recs as [|r recs IH]; intros h; cbn [free_records map fold_right]; [lia|].
  rewrite IH, (freeRecord_bytes db r h Hc). lia.
Qed.

Lemma wf_table_inv db :
  wf_table db ->
  _tableExists db = true /\ _columns db <> None /\
  Forall (wf_record (columns_of db)) (_records db) /\
  (forall r, In r (_records db) -> isValid r = true).
Proof.
  intros (Ht & cols & Hc & Hn & Hlen & Hrecs).
  rewrite (wf_table_columns db cols Hc Hn).
  split; [exact Ht|]. split; [congruence|]. split; [exact Hrecs|].
  intros r Hr. rewrite Forall_forall in Hrecs.
  apply (Hrecs r). apply list_elem_of_In. exact Hr.
Qed.

(** X16.  [getMemoryUsage] is exact.  For a table of valid records whose
    fields are as [copyFieldValue] wrote them, what [getMemoryUsage] reports
    is, modulo [2^32], the number of bytes [dropTable] gives back to the
    heap: the column array, the record array at its capacity, and for every
    record the field array and the buffer of each string.  [dropTable]
    returns IMDB_OK, leaves the store as the constructor makes it, and
    [getMemoryUsage] then reports 0. *)
Theorem getMemoryUsage_is_what_dropTable_frees (db : ESP32IMDB) (h : Heap) :
  wf_table db ->
  getMemoryUsage db = size_t (table_heap db) /\
  (dropTable db h).1 = (IMDB_OK, new_ESP32IMDB) /\
  freeBytes (dropTable db h).2 = freeBytes h + table_heap db /\
  (table_heap db < two32 -> freeBytes (dropTable db h).2 = freeBytes h + getMemoryUsage db) /\
  getMemoryUsage (dropTable db h).1.2 = 0.
Proof.
  intros Hwf. destruct (wf_table_inv db Hwf) as (Ht & Hc & Hrecs & _).
  assert (Husage : getMemoryUsage db = size_t (table_heap db)).
  { unfold getMemoryUsage, table_heap. destruct (_columns db); [|contradiction].
    rewrite (usage_records_wf db _ _ Hrecs), Z.add_0_l.
    unfold size_t, to_uint32. rewrite (Z.mod_mod (sizeof_IMDBColumn * _columnCount db))
      by (unfold two32; lia).
    reflexivity. }
  assert (Hfree : freeBytes (dropTable db h).2 = freeBytes h + table_heap db).
  { unfold dropTable, table_heap. rewrite Ht. cbn [negb snd free freeBytes].
    rewrite (free_records_bytes db _ h Hc). lia. }
  split; [exact Husage|]. split.
  { unfold dropTable. rewrite Ht. reflexivity. }
  split; [exact Hfree|]. split.
  - intros Hsmall. rewrite Hfree, Husage. f_equal. symmetry. apply to_uint32_small.
    split; [|exact Hsmall]. unfold table_heap.
    pose proof (records_heap_nonneg db (_records db)).
    pose proof (size_t_range (sizeof_IMDBColumn * _columnCount db)).
    pose proof (size_t_range (sizeof_IMDBRecord * _recordCapacity db)). lia.
  - unfold dropTable. rewrite Ht. reflexivity.
Qed.

Lemma getMemoryUsage_is_what_dropTable_frees_witness :
  getMemoryUsage Example.db2 = 72 + 120 + (16 + 2) + (16 + 2) /\
  freeBytes (dropTable Example.db2 Example.two_rows.2).2 = freeBytes Example.heap0.
Proof.
  destruct (getMemoryUsage_is_what_dropTable_frees Example.db2 Example.two_rows.2
              (inserts_only_wf _ Example_db2_inserts_only)) as (Hu & _ & Hf & _).
  split; [rewrite Hu | rewrite Hf]; reflexivity.
Defined.

Lemma insert_loop_ok_bytes db values k i fs h fs' h' :
  insert_loop db values k i fs h = (IMDB_OK, fs', h') ->
  freeBytes h' + strings_bytes (take (i + k) (columns_of db)) fs' =
  freeBytes h + strings_bytes (take i (columns_of db)) fs.
Proof.
  revert i fs h. induction k as [|k IH]; intros i fs h; cbn [insert_loop].
  - intros [= <- <-]. rewrite Nat.add_0_r. reflexivity.
  - destruct (values !! i) as [[v|]|]; try discriminate.
    destruct (fs !! i) as [dest|] eqn:Hdest; try discriminate.
    assert (Hi : (i < length fs)%nat) by (eapply lookup_lt_Some; exact Hdest).
    unfold column_type. rewrite Nat2Z.id.
    destruct (columns_of db !! i) as [c|] eqn:Hc.
    + pose proof (copyFieldValue_bytes dest v (type c) h c eq_refl) as Hcopy.
      destruct (copyFieldValue dest v (type c) h) as [[result f] h1].
      destruct Hcopy as [Hok _]. destruct result; try discriminate.
      intros Hloop. apply IH in Hloop.
      rewrite strings_bytes_insert, Hc in Hloop by exact Hi.
      replace (i + S k)%nat with (S i + k)%nat by lia.
      specialize (Hok eq_refl). lia.
    + rewrite copyFieldValue_untyped. intros Hloop. apply IH in Hloop.
      rewrite strings_bytes_insert, Hc in Hloop by exact Hi.
      replace (i + S k)%nat with (S i + k)%nat by lia. lia.
Qed.

Lemma table_heap_same db db' :
  same_table db db' ->
  table_heap db' - size_t (sizeof_IMDBRecord * _recordCapacity db')
  = table_heap db - size_t (sizeof_IMDBRecord * _recordCapacity db).
Proof.
  intros Hsame. pose proof (columns_of_same db db' Hsame) as Hcols.
  destruct Hsame as (_ & _ & Hn & Hr).
  unfold table_heap, records_heap, record_heap, fields_size. rewrite Hn, Hr, Hcols. lia.
Qed.

(** X17.  [insert] keeps the books of the heap: whatever it returns, the
    bytes free after the call plus the bytes the table then holds are the
    bytes free before it plus the bytes the table held.  A failed [insert]
    leaks nothing, and a successful one takes exactly the growth of the
    record array, the field array and the string buffers of the new
    record. *)
Theorem insert_conserves_heap (values : option (list (option IMDBFieldValue)))
    (ttlMillis : Z) (db : ESP32IMDB) (h : Heap) (now : Z) :
  freeBytes (insert values ttlMillis db h now).2 + table_heap (insert values ttlMillis db h now).1.2
  = freeBytes h + table_heap db.
Proof.
  destruct (IMDBResult_eq_dec (insert values ttlMillis db h now).1.1 IMDB_OK) as [Hok|Hfail].
  - destruct (insert values ttlMillis db h now) as [[result db'] h'] eqn:Hins.
    cbn [fst snd] in *. subst result.
    destruct (insert_ok_inv _ _ _ _ _ _ _ Hins)
      as (vals & db1 & h1 & h2 & fs & _ & _ & _ & _ & Hgrow & Hm & Hloop & ->).
    assert (Hg : same_table db db1 /\
                 freeBytes h1 = freeBytes h + size_t (sizeof_IMDBRecord * _recordCapacity db)
                                - size_t (sizeof_IMDBRecord * _recordCapacity db1)).
    { destruct (_recordCapacity db <=? _recordCount db).
      - pose proof (growRecordArray_spec db h) as Hs. rewrite Hgrow in Hs. exact Hs.
      - injection Hgrow as <- <-. split; [apply same_table_refl | lia]. }
    destruct Hg as [Hsame Hh1].
    pose proof (table_heap_same db db1 Hsame) as Hheap.
    pose proof (malloc_bytes (fields_size db1) h1) as Hh2. rewrite Hm in Hh2.
    cbn [fst snd] in Hh2.
    apply insert_loop_ok_bytes in Hloop. cbn [Nat.add] in Hloop.
    rewrite take_0 in Hloop.
    rewrite take_ge in Hloop by (unfold columns_of; rewrite length_take; lia).
    replace (strings_bytes [] (map zero_field (columns_of db1))) with 0 in Hloop by reflexivity.
    unfold table_heap in *. rewrite records_heap_set_records.
    cbn [set_records _columnCount _recordCapacity _records].
    rewrite records_heap_app, records_heap_one. lia.
  - destruct (insert_core values ttlMillis db h now) as [_ Hcore].
    destruct (Hcore Hfail) as [Hsame Hbytes].
    pose proof (table_heap_same _ _ Hsame). lia.
Qed.

Lemma removal_heap db (hit : IMDBRecord -> bool) recs :
  (forall r, In r recs -> isValid r = true) ->
  records_heap db recs =
  records_heap db (List.filter hit recs)
  + records_heap db (List.filter isValid
                       (map (fun r => if hit r then mkRecord None (expiryMillis r) false else r)
                            recs)).
Proof.
  intros Hvalid. unfold records_heap.
  induction recs as [|r recs IH]; [reflexivity|].
  cbn [List.filter map fold_right].
  rewrite (IH (fun x Hx => Hvalid x (or_intror Hx))).
  destruct (hit r); cbn [isValid map fold_right]; [lia|].
  rewrite (Hvalid r (or_introl eq_refl)). cbn [map fold_right]. lia.
Qed.

Lemma delete_loop_bytes db whereIdx whereValue recs h deleted :
  _columns db <> None ->
  freeBytes (delete_loop db whereIdx whereValue recs h deleted).1.2 =
  freeBytes h
  + records_heap db (List.filter (fun r => isValid r && matches db whereIdx whereValue r) recs).
Proof.
  intros Hc. unfold records_heap. revert h deleted.
  induction recs as [|r recs IH]; intros h deleted; cbn [delete_loop List.filter]; [cbn; lia|].
  destruct (isValid r); cbn [negb andb].
  - destruct (matches db whereIdx whereValue r).
    + pose proof (freeRecord_bytes db r h Hc) as Hfree.
      destruct (freeRecord db r h) as [r' h1]. cbn [snd] in Hfree.
      specialize (IH h1 true).
      destruct (delete_loop db whereIdx whereValue recs h1 true) as [[rest h'] d].
      cbn [fst snd map fold_right] in *. lia.
    + specialize (IH h deleted).
      destruct (delete_loop db whereIdx whereValue recs h deleted) as [[rest h'] d].
      cbn [fst snd] in *. exact IH.
  - specialize (IH h deleted).
    destruct (delete_loop db whereIdx whereValue recs h deleted) as [[rest h'] d].
    cbn [fst snd] in *. exact IH.
Qed.

Lemma purge_loop_bytes db now recs h :
  _columns db <> None ->
  freeBytes (purge_loop db now recs h).2 =
  freeBytes h
  + records_heap db (List.filter (fun r => isValid r && isRecordExpired now (expiryMillis r)) recs).
Proof.
  intros Hc. unfold records_heap. revert h.
  induction recs as [|r recs IH]; intros h; cbn [purge_loop List.filter]; [cbn; lia|].
  destruct (isValid r && isRecordExpired now (expiryMillis r)).
  - pose proof (freeRecord_bytes db r h Hc) as Hfree.
    destruct (freeRecord db r h) as [r' h1]. cbn [snd] in Hfree.
    specialize (IH h1). destruct (purge_loop db now recs h1) as [rest h'].
    cbn [fst snd map fold_right] in *. lia.
  - specialize (IH h). destruct (purge_loop db now recs h) as [rest h'].
    cbn [fst snd] in *. exact IH.
Qed.

(** X18.  Removing records keeps the books of the heap.  On a table of
    valid records, [deleteRecords] and [purgeExpiredRecords] give back to
    the heap exactly what the records they remove held, field arrays and
    string buffers: the bytes free after the call plus the bytes the table
    then holds are the bytes free before it plus the bytes the table held,
    whatever the arguments and the result. *)
Theorem removals_conserve_heap (db : ESP32IMDB) (h : Heap) :
  wf_table db ->
  (forall whereColumn whereValue,
     freeBytes (deleteRecords whereColumn whereValue db h).2
     + table_heap (deleteRecords whereColumn whereValue db h).1.2
     = freeBytes h + table_heap db) /\
  (forall now,
     freeBytes (purgeExpiredRecords db h now).2 + table_heap (purgeExpiredRecords db h now).1
     = freeBytes h + table_heap db).
Proof.
  intros Hwf. destruct (wf_table_inv db Hwf) as (Ht & Hc & _ & Hvalid).
  split.
  - intros whereColumn whereValue. unfold deleteRecords. rewrite Ht. cbn [negb].
    destruct whereColumn as [wc|]; [|reflexivity].
    destruct whereValue as [wv|]; [|reflexivity].
    destruct (findColumnIndex db wc <? 0); [reflexivity|].
    pose proof (delete_loop_spec db (findColumnIndex db wc) wv (_records db) h false)
      as [Hrecs Hdel].
    pose proof (delete_loop_bytes db (findColumnIndex db wc) wv (_records db) h false Hc)
      as Hbytes.
    destruct (delete_loop db (findColumnIndex db wc) wv (_records db) h false)
      as [[recs h'] deleted] eqn:Hloop.
    cbn [fst snd] in Hrecs, Hdel, Hbytes. cbn [orb] in Hdel.
    pose proof (removal_heap db (fun r => isValid r && matches db (findColumnIndex db wc) wv r)
                  (_records db) Hvalid) as Hsplit.
    cbv beta in Hsplit. rewrite <- Hrecs in Hsplit.
    destruct deleted; cbn [fst snd].
    + rewrite compactRecords_eq. unfold table_heap. rewrite !records_heap_set_records.
      cbn [set_records _columnCount _recordCapacity _records]. lia.
    + rewrite (delete_loop_none db (findColumnIndex db wc) wv (_records db) h false
                 (eq_sym Hdel)) in Hloop.
      injection Hloop as <- <-. rewrite set_records_same. reflexivity.
  - intros now. unfold purgeExpiredRecords. rewrite Ht. cbn [negb].
    pose proof (purge_loop_spec db now (_records db) h) as Hrecs.
    pose proof (purge_loop_bytes db now (_records db) h Hc) as Hbytes.
    destruct (purge_loop db now (_records db) h) as [recs h'].
    cbn [fst snd] in *.
    pose proof (removal_heap db (fun r => isValid r && isRecordExpired now (expiryMillis r))
                  (_records db) Hvalid) as Hsplit.
    cbv beta in Hsplit. rewrite <- Hrecs in Hsplit.
    rewrite compactRecords_eq. unfold table_heap. rewrite !records_heap_set_records.
    cbn [set_records _columnCount _recordCapacity _records]. lia.
Qed.

Lemma removals_conserve_heap_witness :
  freeBytes (purgeExpiredRecords Example.db2 Example.two_rows.2 2000).2
  + table_heap (purgeExpiredRecords Example.db2 Example.two_rows.2 2000).1
  = freeBytes Example.two_rows.2 + table_heap Example.db2.
Proof.
  exact (proj2 (removals_conserve_heap Example.db2 Example.two_rows.2
                  (inserts_only_wf _ Example_db2_inserts_only)) 2000).
Defined.

(** *** MAC addresses *)

Lemma hex_char_not_nul (c : ascii) :
  isHexChar (char_code c) = true -> Ascii.eqb c Ascii.zero = false.
Proof.
  intros Hc. destruct (Ascii.eqb_spec c Ascii.zero) as [->|]; [|reflexivity].
  vm_compute in Hc. discriminate.
Qed.

Lemma c_str_cons (c : ascii) (s : string) :
  Ascii.eqb c Ascii.zero = false -> c_str (String c s) = String c (c_str s).
Proof. intros Hc. cbn [c_str]. rewrite Hc. reflexivity. Qed.

Lemma hex_pair_range hi lo : 0 <= hex_pair hi lo < 256.
Proof. unfold hex_pair, to_uint8. apply Z.mod_pos_bound. lia. Qed.

Ltac mac_chars :=
  repeat match goal with
         | H : isHexChar (char_code ?c) = true |- context [c_str (String ?c _)] =>
             rewrite (c_str_cons c _ (hex_char_not_nul c H))
         | |- context [c_str (String ":" _)] => rewrite (c_str_cons ":" _ eq_refl)
         | |- context [c_str (String "-" _)] => rewrite (c_str_cons "-" _ eq_refl)
         end.

(** The octets of a text of twelve hexadecimal digits. *)
Lemma parse_twelve (c0 c1 c2 c3 c4 c5 c6 c7 c8 c9 c10 c11 : ascii) (o0 o1 o2 o3 o4 o5 : Z) :
  isHexChar (char_code c0) = true -> isHexChar (char_code c1) = true ->
  isHexChar (char_code c2) = true -> isHexChar (char_code c3) = true ->
  isHexChar (char_code c4) = true -> isHexChar (char_code c5) = true ->
  isHexChar (char_code c6) = true -> isHexChar (char_code c7) = true ->
  isHexChar (char_code c8) = true -> isHexChar (char_code c9) = true ->
  isHexChar (char_code c10) = true -> isHexChar (char_code c11) = true ->
  parseMacAddress
    (Some (String c0 (String c1 (String c2 (String c3 (String c4 (String c5
          (String c6 (String c7 (String c8 (String c9 (String c10 (String c11
           EmptyString)))))))))))))
    (Some [o0; o1; o2; o3; o4; o5]) =
  (true,
   Some [hex_pair (char_code c0) (char_code c1); hex_pair (char_code c2) (char_code c3);
         hex_pair (char_code c4) (char_code c5); hex_pair (char_code c6) (char_code c7);
         hex_pair (char_code c8) (char_code c9); hex_pair (char_code c10) (char_code c11)]).
Proof.
  intros H0 H1 H2 H3 H4 H5 H6 H7 H8 H9 H10 H11.
  unfold parseMacAddress. mac_chars. cbn [c_str String.length Nat.eqb].
  cbn [seq forallb char_at String.get].
  rewrite H0, H1, H2, H3, H4, H5, H6, H7, H8, H9, H10, H11. reflexivity.
Qed.

(** The octets of a text of six pairs of hexadecimal digits with the
    delimiter [d] between them. *)
Lemma parse_seventeen (d : ascii)
    (c0 c1 c2 c3 c4 c5 c6 c7 c8 c9 c10 c11 : ascii) (o0 o1 o2 o3 o4 o5 : Z) :
  d = ":"%char \/ d = "-"%char ->
  isHexChar (char_code c0) = true -> isHexChar (char_code c1) = true ->
  isHexChar (char_code c2) = true -> isHexChar (char_code c3) = true ->
  isHexChar (char_code c4) = true -> isHexChar (char_code c5) = true ->
  isHexChar (char_code c6) = true -> isHexChar (char_code c7) = true ->
  isHexChar (char_code c8) = true -> isHexChar (char_code c9) = true ->
  isHexChar (char_code c10) = true -> isHexChar (char_code c11) = true ->
  parseMacAddress
    (Some (String c0 (String c1 (String d (String c2 (String c3 (String d
          (String c4 (String c5 (String d (String c6 (String c7 (String d
          (String c8 (String c9 (String d (String c10 (String c11
           EmptyString))))))))))))))))))
    (Some [o0; o1; o2; o3; o4; o5]) =
  (true,
   Some [hex_pair (char_code c0) (char_code c1); hex_pair (char_code c2) (char_code c3);
         hex_pair (char_code c4) (char_code c5); hex_pair (char_code c6) (char_code c7);
         hex_pair (char_code c8) (char_code c9); hex_pair (char_code c10) (char_code c11)]).
Proof.
  intros Hd H0 H1 H2 H3 H4 H5 H6 H7 H8 H9 H10 H11.
  unfold parseMacAddress.
  destruct Hd as [-> | ->]; mac_chars; cbn [c_str String.length Nat.eqb];
    cbn [parse_delimited Nat.mul Nat.add char_at String.get Nat.ltb Nat.leb];
    rewrite H0, H1, H2, H3, H4, H5, H6, H7, H8, H9, H10, H11; reflexivity.
Qed.

Lemma hex_digit_facts n :
  0 <= n < 16 ->
  isHexChar (char_code (hex_digit n)) = true /\ hex_value (char_code (hex_digit n)) = n.
Proof.
  intros Hn.
  assert (Htable : forallb (fun k => isHexChar (char_code (hex_digit (Z.of_nat k)))
                                     && (hex_value (char_code (hex_digit (Z.of_nat k)))
                                         =? Z.of_nat k))
                           (seq 0 16) = true) by reflexivity.
  rewrite forallb_forall in Htable.
  specialize (Htable (Z.to_nat n) ltac:(apply in_seq; lia)).
  rewrite Z2Nat.id in Htable by lia.
  apply andb_true_iff in Htable as [Hhex Hval]. apply Z.eqb_eq in Hval.
  split; assumption.
Qed.

Lemma hex_byte_pair b :
  0 <= b < 256 ->
  let hi := hex_digit (to_uint8 b / 16) in
  let lo := hex_digit (to_uint8 b mod 16) in
  isHexChar (char_code hi) = true /\ isHexChar (char_code lo) = true /\
  hex_pair (char_code hi) (char_code lo) = b.
Proof.
  intros Hb. cbv zeta. unfold to_uint8. rewrite (Z.mod_small b 256) by lia.
  destruct (hex_digit_facts (b / 16)) as [Hhi Hvhi].
  { split; [apply Z.div_pos; lia | apply Z.div_lt_upper_bound; lia]. }
  destruct (hex_digit_facts (b mod 16)) as [Hlo Hvlo].
  { apply Z.mod_pos_bound. lia. }
  split; [exact Hhi|]. split; [exact Hlo|].
  unfold hex_pair, to_uint8. rewrite Hvhi, Hvlo.
  rewrite <- (Z.div_mod b 16) by lia. apply Z.mod_small. lia.
Qed.

(** X19.  Formatting and parsing a MAC address are inverse: for six
    bytes, [formatMacAddress] writes a text of 17 characters that
    [parseMacAddress] accepts, and the bytes it parses from the text are the
    six bytes formatted, whatever [macBytes] held before. *)
Theorem mac_format_then_parse (bytes : list Z) (buffer : string) (macBytes : list Z) :
  length bytes = 6%nat ->
  Forall (fun b => 0 <= b < 256) bytes ->
  length macBytes = 6%nat ->
  exists text,
    formatMacAddress (Some bytes) (Some buffer) = Some text /\
    strlen text = 17 /\
    parseMacAddress (Some text) (Some macBytes) = (true, Some bytes).
Proof.
  intros Hlen Hbytes Hout.
  destruct bytes as [|b0 [|b1 [|b2 [|b3 [|b4 [|b5 [|]]]]]]]; try discriminate Hlen.
  destruct macBytes as [|o0 [|o1 [|o2 [|o3 [|o4 [|o5 [|]]]]]]]; try discriminate Hout.
  repeat match goal with
         | H : Forall _ (_ :: _) |- _ => apply Forall_cons in H as [? H]
         end.
  destruct (hex_byte_pair b0 ltac:(assumption)) as (Ha0 & Hb0 & E0).
  destruct (hex_byte_pair b1 ltac:(assumption)) as (Ha1 & Hb1 & E1).
  destruct (hex_byte_pair b2 ltac:(assumption)) as (Ha2 & Hb2 & E2).
  destruct (hex_byte_pair b3 ltac:(assumption)) as (Ha3 & Hb3 & E3).
  destruct (hex_byte_pair b4 ltac:(assumption)) as (Ha4 & Hb4 & E4).
  destruct (hex_byte_pair b5 ltac:(assumption)) as (Ha5 & Hb5 & E5).
  eexists. split; [reflexivity|].
  cbv beta iota zeta delta [hex_byte nth append].
  split.
  - unfold strlen. mac_chars. reflexivity.
  - rewrite (parse_seventeen ":" _ _ _ _ _ _ _ _ _ _ _ _ o0 o1 o2 o3 o4 o5 (or_introl eq_refl)
               Ha0 Hb0 Ha1 Hb1 Ha2 Hb2 Ha3 Hb3 Ha4 Hb4 Ha5 Hb5).
    rewrite E0, E1, E2, E3, E4, E5. reflexivity.
Qed.

Lemma mac_format_then_parse_witness :
  exists text,
    formatMacAddress (Some [222; 173; 190; 239; 0; 1]) (Some EmptyString) = Some text /\
    text = "de:ad:be:ef:00:01"%string /\
    parseMacAddress (Some text) (Some [0; 0; 0; 0; 0; 0]) = (true, Some [222; 173; 190; 239; 0; 1]).
Proof.
  destruct (mac_format_then_parse [222; 173; 190; 239; 0; 1] EmptyString [0; 0; 0; 0; 0; 0]
              eq_refl ltac:(repeat constructor; lia) eq_refl) as (text & Hf & _ & Hp).
  exists text. split; [exact Hf|]. split; [|exact Hp].
  vm_compute in Hf. injection Hf as <-. reflexivity.
Defined.

(** X20.  [parseMacAddress] reads the same address from the two formats
    it accepts: for twelve hexadecimal digits, the text of the digits alone
    and the text of the six pairs with ':' or with '-' between them are both
    accepted and give the same six octets, each within a byte, whatever
    [macBytes] held before. *)
Theorem parseMacAddress_formats_agree (c0 c1 c2 c3 c4 c5 c6 c7 c8 c9 c10 c11 d : ascii)
    (macBytes : list Z) :
  Forall (fun c => isHexChar (char_code c) = true)
         [c0; c1; c2; c3; c4; c5; c6; c7; c8; c9; c10; c11] ->
  d = ":"%char \/ d = "-"%char ->
  length macBytes = 6%nat ->
  let plain :=
    String c0 (String c1 (String c2 (String c3 (String c4 (String c5
   (String c6 (String c7 (String c8 (String c9 (String c10 (String c11
    EmptyString))))))))))) in
  let delimited :=
    String c0 (String c1 (String d (String c2 (String c3 (String d
   (String c4 (String c5 (String d (String c6 (String c7 (String d
   (String c8 (String c9 (String d (String c10 (String c11
    EmptyString)))))))))))))))) in
  exists octets,
    parseMacAddress (Some plain) (Some macBytes) = (true, Some octets) /\
    parseMacAddress (Some delimited) (Some macBytes) = (true, Some octets) /\
    length octets = 6%nat /\ Forall (fun b => 0 <= b < 256) octets.
Proof.
  intros Hhex Hd Hout plain delimited.
  destruct macBytes as [|o0 [|o1 [|o2 [|o3 [|o4 [|o5 [|]]]]]]]; try discriminate Hout.
  repeat match goal with
         | H : Forall _ (_ :: _) |- _ => apply Forall_cons in H as [? H]
         end.
  eexists. split; [apply parse_twelve; assumption|].
  split; [apply parse_seventeen; assumption|].
  split; [reflexivity|].
  repeat constructor; apply hex_pair_range.
Qed.

Lemma parseMacAddress_formats_agree_witness :
  parseMacAddress (Some "DEADbeef0001"%string) (Some [0; 0; 0; 0; 0; 0])
  = parseMacAddress (Some "DE-AD-be-ef-00-01"%string) (Some [0; 0; 0; 0; 0; 0]).
Proof.
  destruct (parseMacAddress_formats_agree "D" "E" "A" "D" "b" "e" "e" "f" "0" "0" "0" "1" "-"
              [0; 0; 0; 0; 0; 0] ltac:(repeat constructor) (or_intror eq_refl) eq_refl)
    as (octets & -> & -> & _).
  reflexivity.
Defined.

(** X21.  What [parseMacAddress] refuses, and what it has done by then.
    A null argument and a text whose length is neither 12 nor 17 are refused
    with [macBytes] untouched, and so is a text of 12 characters one of which
    is no hexadecimal digit.  A text of 17 characters is checked octet by
    octet, each octet stored before the next is looked at: a text that
    starts with a good octet and a delimiter but goes on with a character
    that is no hexadecimal digit is refused after the first byte of
    [macBytes] has been overwritten. *)
Theorem parseMacAddress_refusals (macStr : string) (macBytes : list Z) :
  parseMacAddress None (Some macBytes) = (false, Some macBytes) /\
  parseMacAddress (Some macStr) None = (false, None) /\
  (strlen macStr <> 12 -> strlen macStr <> 17 ->
   parseMacAddress (Some macStr) (Some macBytes) = (false, Some macBytes)) /\
  (strlen macStr = 12 ->
   (exists i, (i < 12)%nat /\ isHexChar (char_at (c_str macStr) i) = false) ->
   parseMacAddress (Some macStr) (Some macBytes) = (false, Some macBytes)) /\
  (forall c0 c1 d c2 rest,
     isHexChar (char_code c0) = true -> isHexChar (char_code c1) = true ->
     d = ":"%char \/ d = "-"%char ->
     isHexChar (char_code c2) = false -> Ascii.eqb c2 Ascii.zero = false ->
     c_str rest = rest -> String.length rest = 13%nat ->
     macStr = String c0 (String c1 (String d (String c2 rest))) ->
     parseMacAddress (Some macStr) (Some macBytes) =
     (false, Some (<[0%nat := hex_pair (char_code c0) (char_code c1)]> macBytes))).
Proof.
  split; [reflexivity|]. split; [reflexivity|]. split; [|split].
  - intros H12 H17. unfold parseMacAddress. unfold strlen in H12, H17.
    destruct (Nat.eqb_spec (String.length (c_str macStr)) 12) as [E|_]; [rewrite E in H12; lia|].
    destruct (Nat.eqb_spec (String.length (c_str macStr)) 17) as [E|_]; [rewrite E in H17; lia|].
    reflexivity.
  - intros H12 (i & Hi & Hbad). unfold parseMacAddress. unfold strlen in H12.
    replace (String.length (c_str macStr)) with 12%nat by lia.
    cbn [Nat.eqb].
    destruct (forallb (fun i0 => isHexChar (char_at (c_str macStr) i0)) (seq 0 12)) eqn:Hall;
      [|reflexivity].
    rewrite forallb_forall in Hall. rewrite (Hall i) in Hbad; [discriminate|].
    apply in_seq. lia.
  - intros c0 c1 d c2 rest H0 H1 Hd H2 Hnz Hrest Hlen ->.
    unfold parseMacAddress.
    rewrite (c_str_cons c0 _ (hex_char_not_nul c0 H0)).
    rewrite (c_str_cons c1 _ (hex_char_not_nul c1 H1)).
    assert (Hdz : Ascii.eqb d Ascii.zero = false) by (destruct Hd as [-> | ->]; reflexivity).
    rewrite (c_str_cons d _ Hdz), (c_str_cons c2 _ Hnz), Hrest.
    cbn [String.length]. rewrite Hlen. cbn [Nat.eqb].
    cbn [char_at String.get].
    assert (Hdelim : negb (char_code d =? 58) && negb (char_code d =? 45) = false)
      by (destruct Hd as [-> | ->]; reflexivity).
    rewrite Hdelim.
    cbn [parse_delimited Nat.mul Nat.add char_at String.get Nat.ltb Nat.leb].
    rewrite H0, H1, H2, Z.eqb_refl. reflexivity.
Qed.

Lemma parseMacAddress_refusals_witness :
  parseMacAddress (Some "aabbccddeezz"%string) (Some [1; 2; 3; 4; 5; 6])
  = (false, Some [1; 2; 3; 4; 5; 6]) /\
  parseMacAddress (Some "aa:zz:cc:dd:ee:ff"%string) (Some [1; 2; 3; 4; 5; 6])
  = (false, Some [170; 2; 3; 4; 5; 6]).
Proof.
  split.
  - destruct (parseMacAddress_refusals "aabbccddeezz" [1; 2; 3; 4; 5; 6])
      as (_ & _ & _ & H & _).
    apply H; [reflexivity|]. exists 10%nat. split; [lia | reflexivity].
  - destruct (parseMacAddress_refusals "aa:zz:cc:dd:ee:ff" [1; 2; 3; 4; 5; 6])
      as (_ & _ & _ & _ & H).
    apply (H "a" "a" ":" "z" "z:cc:dd:ee:ff"%string)%char; try reflexivity.
    left. reflexivity.
Defined.

(** *** Heap accounting of [update] *)

Lemma strings_bytes_update cols fs (i : nat) c old f :
  cols !! i = Some c -> fs !! i = Some old ->
  strings_bytes cols (<[i := f]> fs) = strings_bytes cols fs - cell_bytes c old + cell_bytes c f.
Proof.
  revert cols fs. induction i as [|i IH]; intros [|c' cols] [|x fs]; try discriminate.
  - intros [= <-] [= <-]. cbn [strings_bytes]. cbn. lia.
  - intros Hc Hf. cbn in Hc, Hf. cbn [strings_bytes].
    change (<[S i := f]> (x :: fs)) with (x :: <[i := f]> fs).
    cbn [strings_bytes]. rewrite (IH _ _ Hc Hf). lia.
Qed.

Lemma copyFieldValue_bytes_any dest src c h :
  cell_bytes c dest = 0 ->
  freeBytes (copyFieldValue dest src (type c) h).2
  + cell_bytes c (copyFieldValue dest src (type c) h).1.2 = freeBytes h.
Proof.
  intros Hdest. unfold copyFieldValue, cell_bytes in *.
  destruct (type c); cbn [fst snd]; try lia.
  destruct (get_string src) as [s|]; cbn [fst snd]; [|lia].
  pose proof (strncpy_size s) as Hsize. cbv zeta in Hsize.
  set (len := if IMDB_MAX_STRING_LENGTH <? strlen s then IMDB_MAX_STRING_LENGTH else strlen s) in *.
  pose proof (malloc_bytes (len + 1) h) as Hm.
  destruct (malloc (len + 1) h) as [[|] h']; cbn [fst snd get_string] in *.
  - rewrite Hsize. lia.
  - lia.
Qed.

Lemma update_loop_bytes db now whereIdx whereValue setIdx setValue c recs h updated :
  0 <= setIdx ->
  columns_of db !! Z.to_nat setIdx = Some c ->
  Forall (wf_record (columns_of db)) recs ->
  freeBytes (update_loop db now whereIdx whereValue setIdx setValue recs h updated).1.2
  + records_heap db (update_loop db now whereIdx whereValue setIdx setValue recs h updated).1.1.2
  = freeBytes h + records_heap db recs.
Proof.
  intros Hidx Hc Hwf. revert h updated.
  induction Hwf as [|r recs Hr Hwf IH]; intros h updated; [reflexivity|].
  assert (Hcons : forall x l, records_heap db (x :: l) = record_heap db x + records_heap db l)
    by reflexivity.
  cbn [update_loop]. rewrite live_skip.
  destruct (live now r); cbn [negb].
  2:{ specialize (IH h updated).
      destruct (update_loop db now whereIdx whereValue setIdx setValue recs h updated)
        as [[[e rest] h'] u].
      cbn [fst snd] in *. rewrite !Hcons. lia. }
  destruct (matches db whereIdx whereValue r).
  2:{ specialize (IH h updated).
      destruct (update_loop db now whereIdx whereValue setIdx setValue recs h updated)
        as [[[e rest] h'] u].
      cbn [fst snd] in *. rewrite !Hcons. lia. }
  destruct Hr as (_ & _ & fs & Hfs & Hwfs).
  pose proof (wf_fields_length _ _ Hwfs) as Hlen.
  assert (Hold : exists old, fs !! Z.to_nat setIdx = Some old).
  { apply lookup_lt_is_Some. rewrite Hlen. apply lookup_lt_Some in Hc. exact Hc. }
  destruct Hold as [old Hold].
  assert (Hfield : field_or_zero r setIdx = old).
  { unfold field_or_zero, field_at. rewrite Hfs, Hold. reflexivity. }
  assert (Htype : column_type db setIdx = type c).
  { unfold column_type. rewrite Hc. reflexivity. }
  rewrite Hfield, Htype.
  assert (Hclear : exists cleared h1,
            match type c with
            | IMDB_TYPE_STRING =>
                match get_string old with
                | Some s => (stringValue None, free (string_size s) h)
                | None => (old, h)
                end
            | _ => (old, h)
            end = (cleared, h1) /\
            freeBytes h1 = freeBytes h + cell_bytes c old /\ cell_bytes c cleared = 0).
  { unfold cell_bytes.
    destruct (type c); try (exists old, h; repeat split; lia).
    destruct (get_string old) as [s|] eqn:Hs.
    - exists (stringValue None), (free (string_size s) h). repeat split.
    - exists old, h. rewrite Hs. repeat split. lia. }
  destruct Hclear as (cleared & h1 & Hclear & Hh1 & Hzero).
  replace (match type c with
           | IMDB_TYPE_STRING =>
               match get_string old with
               | Some s => (stringValue None, free (string_size s) h)
               | None => (old, h)
               end
           | _ => (old, h)
           end) with (cleared, h1)
    by (rewrite <- Hclear; destruct (type c); reflexivity).
  pose proof (copyFieldValue_bytes_any cleared setValue c h1 Hzero) as Hcopy.
  destruct (copyFieldValue cleared setValue (type c) h1) as [[result f] h2].
  cbn [fst snd] in Hcopy.
  assert (Hnew : record_heap db (set_field r setIdx f) + cell_bytes c old
                 = record_heap db r + cell_bytes c f).
  { unfold record_heap, set_field. cbn [fields]. rewrite Hfs. cbn [option_map].
    rewrite (strings_bytes_update _ _ _ c old f Hc Hold). lia. }
  specialize (IH h2 true).
  destruct (update_loop db now whereIdx whereValue setIdx setValue recs h2 true)
    as [[[e rest] h'] u].
  destruct result; cbn [fst snd] in *; rewrite !Hcons; lia.
Qed.

(** X22.  [update] keeps the books of the heap.  On a table of valid
    records whose fields are as [copyFieldValue] wrote them, whatever the
    arguments and whatever it returns, the bytes free after an [update] plus
    the bytes the table then holds are the bytes free before it plus the
    bytes the table held: the buffer of a replaced string is given back, and
    a string that could not be copied leaves a null field and no buffer
    behind. *)
Theorem update_conserves_heap (whereColumn : option string) (whereValue : option IMDBFieldValue)
    (setColumn : option string) (setValue : option IMDBFieldValue)
    (db : ESP32IMDB) (h : Heap) (now : Z) :
  wf_table db ->
  freeBytes (update whereColumn whereValue setColumn setValue db h now).2
  + table_heap (update whereColumn whereValue setColumn setValue db h now).1.2
  = freeBytes h + table_heap db.
Proof.
  intros Hwf. destruct (wf_table_inv db Hwf) as (Ht & _ & Hrecs & _).
  unfold update. rewrite Ht. cbn [negb].
  destruct whereColumn as [wc|]; [|reflexivity].
  destruct whereValue as [wv|]; [|reflexivity].
  destruct setColumn as [sc|]; [|reflexivity].
  destruct setValue as [sv|]; [|reflexivity].
  destruct (findColumnIndex db wc <? 0); [reflexivity|]. cbn [orb].
  destruct (Z.ltb_spec (findColumnIndex db sc) 0) as [|Hidx]; [reflexivity|].
  assert (Hc : exists c, columns_of db !! Z.to_nat (findColumnIndex db sc) = Some c).
  { unfold findColumnIndex in *.
    destruct (findColumnIndex_from_spec 0 (columns_of db) sc)
      as [[Hk _] | (n & c & Hk & Hn & _)]; [lia|].
    exists c. rewrite Hk, Z.add_0_l, Nat2Z.id. exact Hn. }
  destruct Hc as [c Hc].
  pose proof (update_loop_bytes db now (findColumnIndex db wc) wv (findColumnIndex db sc) sv c
                (_records db) h false Hidx Hc Hrecs) as Hbytes.
  destruct (update_loop db now (findColumnIndex db wc) wv (findColumnIndex db sc) sv
              (_records db) h false) as [[[e recs] h'] u].
  cbn [fst snd] in Hbytes.
  destruct e as [result|]; cbn [fst snd]; unfold table_heap;
    rewrite records_heap_set_records;
    cbn [set_records _columnCount _recordCapacity _records]; lia.
Qed.

Lemma update_conserves_heap_witness :
  let out := update (Some "id"%string) (Some (int32Value 1)) (Some "name"%string)
                    (Some (stringValue (Some "longer"%string))) Example.db2
                    Example.two_rows.2 1000 in
  out.1.1 = IMDB_OK /\
  freeBytes out.2 + table_heap out.1.2 = freeBytes Example.two_rows.2 + table_heap Example.db2 /\
  freeBytes out.2 = freeBytes Example.two_rows.2 - 5.
Proof.
  cbv zeta. split; [reflexivity|]. split; [|reflexivity].
  apply update_conserves_heap. exact (inserts_only_wf _ Example_db2_inserts_only).
Defined.

(** *** Snapshots: what a save does to the store and to the file system *)

Lemma fs_write_all_space path chunks fs :
  0 <= space fs ->
  match fs_write_all path chunks fs with
  | Some fs' =>
      Z.of_nat (length (concat chunks)) <= space fs /\ refusals fs' = refusals fs
  | None => space fs < Z.of_nat (length (concat chunks))
  end.
Proof.
  revert fs. induction chunks as [|c chunks IH]; intros fs Hpos; cbn [fs_write_all concat].
  - cbn. split; [lia|reflexivity].
  - unfold fs_write. rewrite length_app.
    destruct (Z.leb_spec (Z.of_nat (length c)) (space fs)) as [Hfit|Hfull]; [|lia].
    specialize (IH (mkFS (<[path := default [] (files fs !! path) ++ c]> (files fs))
                         (space fs - Z.of_nat (length c)) (refusals fs))).
    cbn [space refusals] in IH. specialize (IH ltac:(lia)).
    destruct (fs_write_all path chunks _); [split|]; (lia || tauto).
Qed.

Lemma fs_remove_space fs path : 0 <= space fs -> 0 <= space (fs_remove fs path).
Proof.
  intros Hpos. unfold fs_remove. destruct (files fs !! path); cbn [space]; lia.
Qed.

Lemma fs_remove_refusals fs path : refusals (fs_remove fs path) = refusals fs.
Proof. unfold fs_remove. destruct (files fs !! path); reflexivity. Qed.

Lemma fs_remove_answered fs path :
  fs_remove (answered fs) path = answered (fs_remove fs path).
Proof.
  unfold fs_remove, answered. cbn [files space refusals].
  destruct (files fs !! path); reflexivity.
Qed.

Lemma saveToFile_purges filename db h fs now :
  _tableExists db = true ->
  saveToFile (Some filename) db h fs now =
  let purged := purgeExpiredRecords db h now in
  if 65535 <? _recordCount purged.1 then (IMDB_ERROR_INVALID_OPERATION, purged.1, purged.2, fs)
  else
    let temp := tempFilename filename in
    match fs_open_w fs temp with
    | (false, fs1) => (IMDB_ERROR_FILE_OPEN, purged.1, purged.2, fs1)
    | (true, fs1) =>
        match fs_write_all temp (file_chunks purged.1 now) fs1 with
        | None => (IMDB_ERROR_FILE_WRITE, purged.1, purged.2, fs_remove fs1 temp)
        | Some fs2 =>
            let fs3 :=
              if fs_exists fs2 (c_str filename) then fs_remove fs2 (c_str filename) else fs2 in
            match fs_rename fs3 temp (c_str filename) with
            | (false, fs4) => (IMDB_ERROR_FILE_WRITE, purged.1, purged.2, fs_remove fs4 temp)
            | (true, fs4) => (IMDB_OK, purged.1, purged.2, fs4)
            end
        end
    end.
Proof.
  intros Ht. unfold saveToFile, purgeExpiredRecords. rewrite Ht. cbn [negb].
  destruct (purge_loop db now (_records db) h) as [recs h1]. reflexivity.
Qed.

(** X23.  What [saveToFile] does.  On a store with a table, [saveToFile]
    first does to the store and the heap what [purgeExpiredRecords] does,
    whatever it then returns.  With more than 65535 records left it answers
    IMDB_ERROR_INVALID_OPERATION and leaves the file system alone.
    Otherwise it touches no file but the snapshot and its temporary file.
    When the file system refuses to open the temporary file the answer is
    IMDB_ERROR_FILE_OPEN and no file changes.  When it opens it, no
    temporary file is left behind.  Without room for the bytes of the
    snapshot the answer is IMDB_ERROR_FILE_WRITE and, the temporary name
    being another name than the snapshot's, the snapshot saved before is
    still there, unchanged.  With room, and the rename granted, and the two
    names different, the answer is IMDB_OK and the snapshot holds the bytes
    written.  With room, but the rename refused or the temporary name equal
    to the snapshot's (a name of 255 characters or more), the answer is
    IMDB_ERROR_FILE_WRITE and there is no snapshot any more: the one saved
    before was removed ahead of the rename. *)
Theorem saveToFile_effects (filename : string) (db : ESP32IMDB) (h : Heap) (fs : SPIFFS)
    (now : Z) :
  _tableExists db = true ->
  0 <= space fs ->
  let purged := purgeExpiredRecords db h now in
  let out := saveToFile (Some filename) db h fs now in
  let temp := tempFilename filename in
  let name := c_str filename in
  let bytes := concat (file_chunks purged.1 now) in
  let room := space (fs_remove fs temp) in
  out.1.1.2 = purged.1 /\ out.1.2 = purged.2 /\
  (65535 < _recordCount purged.1 ->
   out.1.1.1 = IMDB_ERROR_INVALID_OPERATION /\ out.2 = fs) /\
  (_recordCount purged.1 <= 65535 ->
   (forall other, other <> temp -> other <> name ->
                  files out.2 !! other = files fs !! other) /\
   (refused fs = true ->
    out.1.1.1 = IMDB_ERROR_FILE_OPEN /\ files out.2 = files fs) /\
   (refused fs = false ->
    files out.2 !! temp = None /\
    (room < Z.of_nat (length bytes) ->
     out.1.1.1 = IMDB_ERROR_FILE_WRITE /\
     (temp <> name -> files out.2 !! name = files fs !! name)) /\
    (Z.of_nat (length bytes) <= room ->
     (temp <> name -> refused (answered fs) = false ->
      out.1.1.1 = IMDB_OK /\ files out.2 !! name = Some bytes) /\
     (temp = name \/ refused (answered fs) = true ->
      out.1.1.1 = IMDB_ERROR_FILE_WRITE /\ files out.2 !! name = None)))).
Proof.
  intros Ht Hroom purged out temp name bytes room.
  unfold out. rewrite (saveToFile_purges filename db h fs now Ht). cbv zeta.
  fold purged temp name.
  destruct (Z.ltb_spec 65535 (_recordCount purged.1)) as [Hmany|Hfew].
  { cbn [fst snd]. repeat split; try reflexivity; lia. }
  unfold fs_open_w. destruct (refused fs) eqn:Hrefused.
  { cbn [fst snd]. split; [reflexivity|]. split; [reflexivity|]. split; [lia|]. intros _.
    split; [reflexivity|]. split; [intros _; split; reflexivity|discriminate]. }
  rewrite fs_remove_answered.
  set (fs1 := mkFS _ _ _).
  assert (Hfs1 : forall other,
            files fs1 !! other = if decide (temp = other) then Some [] else files fs !! other).
  { intros other. unfold fs1. cbn [files answered].
    destruct (decide (temp = other)) as [<- | Hother].
    - apply lookup_insert_eq.
    - rewrite lookup_insert_ne by exact Hother. rewrite fs_remove_lookup.
      destruct (decide (temp = other)); [contradiction | reflexivity]. }
  assert (Hrefs1 : refusals fs1 = tail (refusals fs)).
  { unfold fs1. cbn [refusals answered]. rewrite fs_remove_refusals. reflexivity. }
  assert (Hstale : forall fs', files (fs_remove fs' temp) !! temp = None).
  { intros fs'. rewrite fs_remove_lookup.
    destruct (decide (temp = temp)); [reflexivity | contradiction]. }
  pose proof (fs_write_all_space temp (file_chunks purged.1 now) fs1
                (fs_remove_space fs temp Hroom)) as Hspace.
  change (space fs1) with room in Hspace. fold bytes in Hspace.
  destruct (fs_write_all temp (file_chunks purged.1 now) fs1) as [fs2|] eqn:Hwrite.
  2:{ cbn [fst snd]. split; [reflexivity|]. split; [reflexivity|]. split; [lia|]. intros _.
      split.
      { intros other Ho1 Ho2. rewrite fs_remove_lookup, Hfs1.
        destruct (decide (temp = other)); congruence. }
      split; [discriminate|]. intros _. split; [apply Hstale|].
      split; [|lia]. intros _. split; [reflexivity|]. intros Hne.
      rewrite fs_remove_lookup, Hfs1.
      destruct (decide (temp = name)); [contradiction | reflexivity]. }
  destruct Hspace as [Hfit Hrefs2].
  apply (fs_write_all_content _ _ _ _ []) in Hwrite;
    [|rewrite Hfs1; destruct (decide (temp = temp)); [reflexivity | contradiction]].
  destruct Hwrite as [Htemp Hothers]. cbn [app] in Htemp. fold bytes in Htemp.
  set (fs3 := if fs_exists fs2 name then fs_remove fs2 name else fs2).
  assert (Hfs3 : forall other, other <> name -> files fs3 !! other = files fs2 !! other).
  { intros other Ho. unfold fs3. destruct (fs_exists fs2 name); [|reflexivity].
    rewrite fs_remove_lookup. destruct (decide (name = other)); congruence. }
  assert (Hname3 : files fs3 !! name = None).
  { unfold fs3, fs_exists.
    destruct (bool_decide (is_Some (files fs2 !! name))) eqn:Hex.
    - rewrite fs_remove_lookup. destruct (decide (name = name)); [reflexivity | contradiction].
    - apply bool_decide_eq_false in Hex.
      destruct (files fs2 !! name) eqn:E; [exfalso; apply Hex; eauto | reflexivity]. }
  assert (Hrefs3 : refused fs3 = refused (answered fs)).
  { unfold refused, fs3. cbn [answered refusals].
    destruct (fs_exists fs2 name); rewrite ?fs_remove_refusals, Hrefs2, Hrefs1; reflexivity. }
  assert (Hleft : forall other, other <> temp -> other <> name ->
                    files (fs_remove (answered fs3) temp) !! other = files fs !! other).
  { intros other Ho1 Ho2. rewrite fs_remove_lookup.
    destruct (decide (temp = other)); [congruence|]. cbn [answered files].
    rewrite (Hfs3 other Ho2), (Hothers other Ho1), Hfs1.
    destruct (decide (temp = other)); congruence. }
  destruct (decide (temp = name)) as [Heq | Hne].
  - assert (Hren : fs_rename fs3 temp name = (false, answered fs3)).
    { unfold fs_rename. rewrite Heq, Hname3. reflexivity. }
    rewrite Hren. cbn [fst snd].
    split; [reflexivity|]. split; [reflexivity|]. split; [lia|]. intros _.
    split; [exact Hleft|]. split; [discriminate|]. intros _.
    split; [apply Hstale|]. split; [lia|]. intros _.
    split; [contradiction|]. intros _. split; [reflexivity|].
    rewrite <- Heq. apply Hstale.
  - unfold fs_rename. rewrite (Hfs3 temp Hne), Htemp, Hrefs3.
    destruct (refused (answered fs)) eqn:Hsecond; cbn [fst snd].
    + split; [reflexivity|]. split; [reflexivity|]. split; [lia|]. intros _.
      split; [exact Hleft|]. split; [discriminate|]. intros _.
      split; [apply Hstale|]. split; [lia|]. intros _.
      split; [discriminate|]. intros _. split; [reflexivity|].
      rewrite fs_remove_lookup. destruct (decide (temp = name)); [reflexivity|].
      exact Hname3.
    + split; [reflexivity|]. split; [reflexivity|]. split; [lia|]. intros _.
      cbn [files]. split.
      { intros other Ho1 Ho2. rewrite lookup_insert_ne by congruence.
        rewrite lookup_delete_ne by congruence.
        rewrite (Hfs3 other Ho2), (Hothers other Ho1), Hfs1.
        destruct (decide (temp = other)); congruence. }
      split; [discriminate|]. intros _. split.
      { rewrite lookup_insert_ne by (intros E; apply Hne; symmetry; exact E).
        apply lookup_delete_eq. }
      split; [lia|]. intros _. split.
      * intros _ _. split; [reflexivity|]. apply lookup_insert_eq.
      * intros [E | E]; [contradiction | discriminate].
Qed.

Lemma saveToFile_effects_witness :
  let old := <["/db"%string := [1; 2; 3]]> ∅ in
  (saveToFile (Some "/db"%string) Example.db2 Example.heap0 (mkFS old 10 []) 1000).1.1.1
    = IMDB_ERROR_FILE_WRITE /\
  files (saveToFile (Some "/db"%string) Example.db2 Example.heap0 (mkFS old 10 []) 1000).2
    !! "/db"%string = Some [1; 2; 3] /\
  (saveToFile (Some "/db"%string) Example.db2 Example.heap0 (mkFS old 1000 [true]) 1000).1.1.1
    = IMDB_ERROR_FILE_OPEN /\
  (saveToFile (Some "/db"%string) Example.db2 Example.heap0
              (mkFS old 1000 [false; true]) 1000).1.1.1
    = IMDB_ERROR_FILE_WRITE /\
  files (saveToFile (Some "/db"%string) Example.db2 Example.heap0
                    (mkFS old 1000 [false; true]) 1000).2 !! "/db"%string = None.
Proof.
  cbv zeta.
  destruct (saveToFile_effects "/db" Example.db2 Example.heap0
              (mkFS (<["/db"%string := [1; 2; 3]]> ∅) 10 []) 1000 eq_refl)
    as (_ & _ & _ & Hfull); [cbn; lia|].
  destruct Hfull as (_ & _ & Hfull); [vm_compute; discriminate|].
  destruct Hfull as (_ & Hfull & _); [reflexivity|].
  destruct Hfull as [Hcode Hkept]; [vm_compute; reflexivity|].
  destruct (saveToFile_effects "/db" Example.db2 Example.heap0
              (mkFS (<["/db"%string := [1; 2; 3]]> ∅) 1000 [true]) 1000 eq_refl)
    as (_ & _ & _ & Hshut); [cbn; lia|].
  destruct Hshut as (_ & Hshut & _); [vm_compute; discriminate|].
  destruct Hshut as [Hopen _]; [reflexivity|].
  destruct (saveToFile_effects "/db" Example.db2 Example.heap0
              (mkFS (<["/db"%string := [1; 2; 3]]> ∅) 1000 [false; true]) 1000 eq_refl)
    as (_ & _ & _ & Hstuck); [cbn; lia|].
  destruct Hstuck as (_ & _ & Hstuck); [vm_compute; discriminate|].
  destruct Hstuck as (_ & _ & Hstuck); [reflexivity|].
  destruct Hstuck as [_ Hstuck]; [vm_compute; discriminate|].
  destruct Hstuck as [Hrename Hlost]; [right; reflexivity|].
  split; [exact Hcode|]. split.
  { change (c_str "/db") with "/db"%string in Hkept. rewrite Hkept.
    - apply lookup_insert_eq.
    - vm_compute. discriminate. }
  split; [exact Hopen|]. split; [exact Hrename|exact Hlost].
Defined.


(** *** Snapshots: a load that fails *)

Lemma string_of_bytes_length bs : String.length (string_of_bytes bs) = length bs.
Proof.
  unfold string_of_bytes. induction bs as [|b bs IH]; [reflexivity|].
  cbn [map string_of_list_ascii String.length length]. rewrite IH. reflexivity.
Qed.

Lemma file_read_length n data bs rest :
  file_read n data = Some (bs, rest) -> 0 <= n -> Z.of_nat (length bs) = n.
Proof.
  unfold file_read. destruct (Z.leb_spec n (Z.of_nat (length data))); [|discriminate].
  intros [= <- _] Hn. rewrite length_take. lia.
Qed.

(** The field loop of [loadFromFile] holds, in string buffers of the fields
    it has read, exactly what it took from the heap. *)
Lemma read_fields_bytes cols data h :
  match read_fields cols data h with
  | inl (fs, h') => freeBytes h' + strings_bytes cols fs = freeBytes h
  | inr (fs, _, h') => freeBytes h' + strings_bytes cols fs = freeBytes h
  end.
Proof.
  revert data h. induction cols as [|c cols IH]; intros data h; [cbn; lia|].
  cbn [read_fields].
  assert (Hscalar : forall (one : option (IMDBFieldValue * list Z)),
            type c <> IMDB_TYPE_STRING ->
            match
              match one with
              | None => inl ([], h)
              | Some (f, rest) =>
                  match read_fields cols rest h with
                  | inl (fs, h2) => inl (f :: fs, h2)
                  | inr (fs, rest', h2) => inr (f :: fs, rest', h2)
                  end
              end
            with
            | inl (fs, h') => freeBytes h' + strings_bytes (c :: cols) fs = freeBytes h
            | inr (fs, _, h') => freeBytes h' + strings_bytes (c :: cols) fs = freeBytes h
            end).
  { intros [[f rest]|] Hty; [|cbn; lia].
    specialize (IH rest h).
    destruct (read_fields cols rest h) as [[fs h2]|[[fs rest'] h2]];
      cbn [strings_bytes]; unfold cell_bytes; destruct (type c); try contradiction; lia. }
  destruct (type c) eqn:Hty; try (apply Hscalar; discriminate).
  clear Hscalar.
  destruct (file_read 1 data) as [[lenByte data1]|]; [|cbn; lia].
  destruct (IMDB_MAX_STRING_LENGTH <? le_value lenByte); [cbn; lia|].
  destruct (Z.ltb_spec 0 (le_value lenByte)) as [Hpos|_].
  - pose proof (malloc_bytes (le_value lenByte + 1) h) as Hm.
    destruct (malloc (le_value lenByte + 1) h) as [[|] h1]; cbn [fst snd] in Hm;
      [|cbn; lia].
    destruct (file_read (le_value lenByte) data1) as [[bs rest]|] eqn:Hread;
      [|cbn; lia].
    apply file_read_length in Hread; [|lia].
    specialize (IH rest h1).
    destruct (read_fields cols rest h1) as [[fs h2]|[[fs rest'] h2]];
      cbn [strings_bytes]; unfold cell_bytes, string_size; rewrite Hty; cbn [get_string];
      rewrite string_of_bytes_length; lia.
  - specialize (IH data1 h).
    destruct (read_fields cols data1 h) as [[fs h2]|[[fs rest'] h2]];
      cbn [strings_bytes]; unfold cell_bytes; rewrite Hty; cbn [get_string]; lia.
Qed.

Lemma load_abort_clean result db h :
  _columns db <> None ->
  _tableExists (load_abort result db h).1.2 = false /\
  _records (load_abort result db h).1.2 = [] /\
  _columns (load_abort result db h).1.2 = None /\
  freeBytes (load_abort result db h).2 = freeBytes h + table_heap db.
Proof.
  intros Hc. unfold load_abort, table_heap. cbn [fst snd free freeBytes _tableExists _records
                                                  _columns].
  rewrite (free_records_bytes db _ h Hc). repeat split; try reflexivity. lia.
Qed.

Lemma load_records_failure k saveMillis now data db h :
  _columns db <> None ->
  (load_records k saveMillis now data db h).1.1 <> IMDB_OK ->
  _tableExists (load_records k saveMillis now data db h).1.2 = false /\
  _records (load_records k saveMillis now data db h).1.2 = [] /\
  _columns (load_records k saveMillis now data db h).1.2 = None /\
  freeBytes (load_records k saveMillis now data db h).2 = freeBytes h + table_heap db.
Proof.
  intros Hc. revert data db h Hc. induction k as [|k IH]; intros data db h Hc.
  - cbn. congruence.
  - cbn [load_records].
    destruct (file_read 1 data) as [[validByte data1]|]; [|intros _; apply load_abort_clean, Hc].
    destruct (file_read 4 data1) as [[expiryBytes data2]|];
      [|intros _; apply load_abort_clean, Hc].
    destruct (negb (checkHeapLimit h)); [intros _; apply load_abort_clean, Hc|].
    pose proof (malloc_bytes (fields_size db) h) as Hm.
    destruct (malloc (fields_size db) h) as [[|] h1]; cbn [fst snd] in Hm.
    2:{ intros _. destruct (load_abort_clean IMDB_ERROR_OUT_OF_MEMORY db h1 Hc)
          as (H1 & H2 & H3 & H4).
        repeat split; try assumption. lia. }
    pose proof (read_fields_bytes (columns_of db) data2 h1) as Hread.
    destruct (read_fields (columns_of db) data2 h1) as [[fs h2]|[[fs rest] h2]].
    + intros _.
      destruct (load_abort_clean IMDB_ERROR_FILE_READ db
                  (free (fields_size db) (free_strings (columns_of db) fs h2)) Hc)
        as (H1 & H2 & H3 & H4).
      repeat split; try assumption. rewrite H4. cbn [free freeBytes].
      destruct (free_strings_bytes (columns_of db) fs h2) as (-> & _). lia.
    + intros Hfail.
      match type of Hfail with
      | context [load_records k saveMillis now rest ?d h2] =>
          destruct (IH rest d h2 Hc Hfail) as (H1 & H2 & H3 & H4)
      end.
      repeat split; try assumption. rewrite H4.
      unfold table_heap. rewrite records_heap_set_records.
      cbn [set_records _columnCount _recordCapacity _records].
      rewrite records_heap_app, records_heap_one. lia.
Qed.

(** X24.  A load that fails leaves nothing behind.  When [loadFromFile]
    into a store without table returns anything but IMDB_OK, whatever the
    file holds and wherever the load stopped, the store still has no table
    and the heap has as many free bytes as before the call: the column
    array, the record array, the field arrays and the string buffers of the
    records already read have all been given back. *)
Theorem loadFromFile_failure_is_clean (filename : option string) (db : ESP32IMDB) (h : Heap)
    (fs : SPIFFS) (now : Z) (result : IMDBResult) (db' : ESP32IMDB) (h' : Heap) :
  _tableExists db = false ->
  loadFromFile filename db h fs now = Some (result, db', h') ->
  result <> IMDB_OK ->
  _tableExists db' = false /\ freeBytes h' = freeBytes h /\
  (forall t, count db' t = 0).
Proof.
  intros Ht Hload Hfail.
  assert (Hmain : _tableExists db' = false /\ freeBytes h' = freeBytes h).
  { unfold loadFromFile in Hload.
    destruct filename as [filename|]; [|injection Hload as <- <- <-; auto].
    rewrite Ht in Hload.
    destruct (files fs !! c_str filename) as [data|]; [|injection Hload as <- <- <-; auto].
    destruct (file_read 4 data) as [[m data1]|]; [|injection Hload as <- <- <-; auto].
    destruct (negb (bool_decide (m = magic))); [injection Hload as <- <- <-; auto|].
    destruct (file_read 1 data1) as [[version data2]|]; [|injection Hload as <- <- <-; auto].
    destruct (negb (le_value version =? 1)); [injection Hload as <- <- <-; auto|].
    destruct (file_read 1 data2) as [[cc data3]|]; [|injection Hload as <- <- <-; auto].
    destruct (file_read 2 data3) as [[rc data4]|]; [|injection Hload as <- <- <-; auto].
    destruct (file_read 4 data4) as [[sm data5]|]; [|injection Hload as <- <- <-; auto].
    destruct (negb (checkHeapLimit h)); [injection Hload as <- <- <-; auto|].
    pose proof (malloc_bytes (size_t (sizeof_IMDBColumn * le_value cc)) h) as Hm1.
    destruct (malloc (size_t (sizeof_IMDBColumn * le_value cc)) h) as [[|] h1];
      cbn [fst snd] in Hm1; [|injection Hload as <- <- <-; auto].
    destruct (read_schema (Z.to_nat (le_value cc)) data5) as [[[cols data6]|]|];
      [| discriminate | injection Hload as <- <- <-; cbn [free freeBytes _tableExists];
                        split; [reflexivity | lia]].
    destruct (negb (checkHeapLimit h1));
      [injection Hload as <- <- <-; cbn [free freeBytes _tableExists];
       split; [reflexivity | lia]|].
    set (capacity := if 10 <? le_value rc then le_value rc else 10) in *.
    pose proof (malloc_bytes (size_t (sizeof_IMDBRecord * capacity)) h1) as Hm2.
    destruct (malloc (size_t (sizeof_IMDBRecord * capacity)) h1) as [[|] h2];
      cbn [fst snd] in Hm2;
      [|injection Hload as <- <- <-; cbn [free freeBytes _tableExists];
        split; [reflexivity | lia]].
    injection Hload as Hload.
    pose proof (load_records_failure (Z.to_nat (le_value rc)) (le_value sm) now data6
                  (mkDB (Some cols) (le_value cc) [] capacity true) h2) as Hrec.
    rewrite Hload in Hrec. cbn [fst snd] in Hrec.
    destruct Hrec as (H1 & _ & _ & H4); [discriminate | exact Hfail |].
    split; [exact H1|]. rewrite H4. unfold table_heap, records_heap.
    cbn [_columnCount _recordCapacity _records map fold_right]. lia. }
  destruct Hmain as [Hnone Hbytes]. split; [exact Hnone|]. split; [exact Hbytes|].
  intros t. unfold count. rewrite Hnone. reflexivity.
Qed.

Lemma loadFromFile_failure_is_clean_witness :
  let truncated :=
    mkFS (<["/db"%string := [73; 77; 68; 66; 1; 1; 1; 0; 0; 0; 0; 0]
                             ++ replicate 32 0 ++ [2; 1; 0; 0; 0; 0; 3; 97]]> ∅) 100 [] in
  exists db' h',
    loadFromFile (Some "/db"%string) new_ESP32IMDB Example.heap0 truncated 5
      = Some (IMDB_ERROR_FILE_READ, db', h') /\
    requests h' = 4%nat /\ freeBytes h' = freeBytes Example.heap0.
Proof.
  cbv zeta.
  destruct (loadFromFile (Some "/db"%string) new_ESP32IMDB Example.heap0
              (mkFS (<["/db"%string := [73; 77; 68; 66; 1; 1; 1; 0; 0; 0; 0; 0]
                                       ++ replicate 32 0 ++ [2; 1; 0; 0; 0; 0; 3; 97]]> ∅) 100 [])
              5) as [[[result db'] h']|] eqn:Hload.
  - assert (Hr : result = IMDB_ERROR_FILE_READ /\ requests h' = 4%nat).
    { vm_compute in Hload. injection Hload as <- _ <-. split; reflexivity. }
    destruct Hr as [-> Hreq]. exists db', h'. split; [reflexivity|]. split; [exact Hreq|].
    pose proof (loadFromFile_failure_is_clean _ _ _ _ _ _ _ _
                  (eq_refl : _tableExists new_ESP32IMDB = false) Hload ltac:(discriminate))
      as (_ & Hbytes & _).
    exact Hbytes.
  - vm_compute in Hload. discriminate.
Defined.

(** *** Creating a table *)

(** X25.  What [createTable] leaves.  When it returns IMDB_OK the store
    had no table, it now has one with the first [columnCount] columns
    passed, no record and room for 10, and the heap has lost exactly what
    the table holds.  When it returns anything else there is a table after
    the call only if there was one before, the records are as they were and
    the heap has as many free bytes as before.  But when the column array
    was allocated and the record array refused, [_columnCount] and
    [_recordCapacity] stay set, so that [getMemoryUsage] reports
    [36 * columnCount + 120] bytes for a store that holds none. *)
Theorem createTable_outcomes (columns : option (list IMDBColumn)) (columnCount : Z)
    (db : ESP32IMDB) (h : Heap) :
  let out := createTable columns columnCount db h in
  (out.1.1 = IMDB_OK ->
   exists cols,
     columns = Some cols /\ _tableExists db = false /\
     out.1.2 = mkDB (Some (take (Z.to_nat columnCount) cols)) columnCount [] 10 true /\
     freeBytes out.2 + table_heap out.1.2 = freeBytes h) /\
  (out.1.1 <> IMDB_OK ->
   _tableExists out.1.2 = _tableExists db /\ _records out.1.2 = _records db /\
   freeBytes out.2 = freeBytes h) /\
  (forall cols h1 h2,
     columns = Some cols -> _tableExists db = false -> 0 < columnCount <= 255 ->
     checkHeapLimit h = true ->
     malloc (size_t (sizeof_IMDBColumn * columnCount)) h = (true, h1) ->
     malloc (size_t (sizeof_IMDBRecord * 10)) h1 = (false, h2) ->
     out.1.1 = IMDB_ERROR_OUT_OF_MEMORY /\ _tableExists out.1.2 = false /\
     _columns out.1.2 = None /\ freeBytes out.2 = freeBytes h /\
     getMemoryUsage out.1.2 = 36 * columnCount + 120).
Proof.
  cbv zeta. unfold createTable.
  destruct (_tableExists db) eqn:Ht.
  { cbn [fst snd]. split; [discriminate|]. split; [auto|]. intros; discriminate. }
  destruct columns as [cols|].
  2:{ cbn [fst snd]. split; [discriminate|]. split; [auto|]. intros; discriminate. }
  destruct (Z.eqb_spec columnCount 0) as [Hz|Hnz].
  { cbn [fst snd]. split; [discriminate|]. split; [auto|]. intros; lia. }
  destruct (checkHeapLimit h) eqn:Hheap; cbn [negb].
  2:{ cbn [fst snd]. split; [discriminate|]. split; [auto|]. intros; discriminate. }
  pose proof (malloc_bytes (size_t (sizeof_IMDBColumn * columnCount)) h) as Hm1.
  destruct (malloc (size_t (sizeof_IMDBColumn * columnCount)) h) as [[|] h1] eqn:Hmalloc1;
    cbn [fst snd] in Hm1.
  2:{ cbn [fst snd _tableExists _records]. split; [discriminate|]. split; [auto|].
      intros; discriminate. }
  pose proof (malloc_bytes (size_t (sizeof_IMDBRecord * 10)) h1) as Hm2.
  destruct (malloc (size_t (sizeof_IMDBRecord * 10)) h1) as [[|] h2] eqn:Hmalloc2;
    cbn [fst snd] in Hm2.
  - cbn [fst snd]. split; [|split; [congruence|]].
    + intros _. exists cols. repeat split.
      unfold table_heap, records_heap. cbn [_columnCount _recordCapacity _records map fold_right].
      lia.
    + intros cols0 h1' h2' _ _ _ _ [= <-]. congruence.
  - cbn [fst snd _tableExists _records free freeBytes _columns]. split; [discriminate|].
    split; [repeat split; lia|].
    intros cols0 h1' h2' _ _ Hcc _ _ _.
    repeat split; try lia.
    unfold getMemoryUsage. cbn [_columnCount _recordCapacity _columns].
    unfold size_t, to_uint32, sizeof_IMDBColumn, sizeof_IMDBRecord, two32.
    rewrite Z.add_0_l.
    rewrite (Z.mod_small (36 * columnCount)) by lia.
    rewrite (Z.mod_small (36 * columnCount)) by lia.
    rewrite (Z.mod_small (12 * 10)) by lia.
    rewrite Z.mod_small by lia. lia.
Qed.

Lemma createTable_outcomes_witness :
  let h := mkHeap 100000 0 [false; true] in
  (createTable (Some Example.schema) 2 new_ESP32IMDB h).1.1 = IMDB_ERROR_OUT_OF_MEMORY /\
  freeBytes (createTable (Some Example.schema) 2 new_ESP32IMDB h).2 = freeBytes h /\
  getMemoryUsage (createTable (Some Example.schema) 2 new_ESP32IMDB h).1.2 = 192.
Proof.
  cbv zeta.
  destruct (createTable_outcomes (Some Example.schema) 2 new_ESP32IMDB
              (mkHeap 100000 0 [false; true])) as (_ & _ & H).
  destruct (H Example.schema (mkHeap 99928 1 [true]) (mkHeap 99928 2 [])
              eq_refl eq_refl ltac:(lia) eq_refl eq_refl eq_refl) as (Hr & _ & _ & Hb & Hu).
  split; [exact Hr|]. split; [exact Hb | exact Hu].
Defined.

(** *** Reading back a stored field *)

(** X26.  A field reads back as it was written: when [copyFieldValue]
    stores a value of a column of type [t] and returns IMDB_OK,
    [getFieldValue] on the stored field sets [hasValue], the type [t], and
    the member of that type to the value given, for a string to its first
    255 characters. *)
Theorem copy_then_read (dest src : IMDBFieldValue) (t : IMDBDataType) (h : Heap)
    (f : IMDBFieldValue) (h' : Heap) (res : IMDBSelectResult) :
  copyFieldValue dest src t h = (IMDB_OK, f, h') ->
  let out := getFieldValue (Some f) t res in
  hasValue out = true /\ type_r out = t /\
  match t with
  | IMDB_TYPE_INT32 => int32Value_r out = get_int32 src
  | IMDB_TYPE_MAC => macAddress_r out = get_mac src
  | IMDB_TYPE_STRING =>
      exists s, get_string src = Some s /\
                stringValue_r out = strncpy s (Z.min (strlen s) IMDB_MAX_STRING_LENGTH) /\
                strlen (stringValue_r out) = Z.min (strlen s) IMDB_MAX_STRING_LENGTH
  | IMDB_TYPE_EPOCH => epochValue_r out = get_epoch src
  | IMDB_TYPE_BOOL => boolValue_r out = get_bool src
  | IMDB_TYPE_FLOAT => floatValue_r out = get_float src
  end.
Proof.
  destruct t; cbn [copyFieldValue].
  - intros [= <- _]. cbn. repeat split.
    destruct src; cbn [get_int32]; try reflexivity; apply to_int32_idem.
  - intros [= <- _]. cbn [getFieldValue hasValue type_r macAddress_r get_mac]. repeat split.
    destruct src; cbn [get_mac]; apply mac6_idem.
  - destruct (get_string src) as [s|] eqn:Hs; [|discriminate].
    set (len := if IMDB_MAX_STRING_LENGTH <? strlen s then IMDB_MAX_STRING_LENGTH
                else strlen s).
    assert (Hlen : len = Z.min (strlen s) IMDB_MAX_STRING_LENGTH).
    { unfold len. destruct (Z.ltb_spec IMDB_MAX_STRING_LENGTH (strlen s)); lia. }
    destruct (malloc (len + 1) h) as [[|] h1]; [|discriminate].
    intros [= <- _]. cbn [getFieldValue get_string hasValue type_r stringValue_r].
    split; [reflexivity|]. split; [reflexivity|]. exists s. split; [reflexivity|].
    assert (Hcopy : strlen (strncpy s len) = len).
    { unfold strlen, strncpy. rewrite c_str_substring, substring_length.
      - rewrite Z2Nat.id; [reflexivity|]. unfold strlen in Hlen. unfold IMDB_MAX_STRING_LENGTH in *.
        lia.
      - unfold strlen, IMDB_MAX_STRING_LENGTH in Hlen. lia. }
    assert (Hagain : strncpy (strncpy s len) (Z.min (strlen (strncpy s len))
                                                    IMDB_MAX_STRING_LENGTH)
                     = strncpy s len).
    { rewrite Hcopy. replace (Z.min len IMDB_MAX_STRING_LENGTH) with len by lia.
      unfold strlen, strncpy in Hcopy |- *. rewrite c_str_substring in Hcopy |- *.
      set (x := String.substring 0 (Z.to_nat len) (c_str s)) in *.
      replace (Z.to_nat len) with (String.length x) by lia.
      apply substring_full. }
    rewrite Hagain, <- Hlen. split; [reflexivity | exact Hcopy].
  - intros [= <- _]. cbn. repeat split.
    destruct src; cbn [get_epoch]; try reflexivity; apply to_uint32_idem.
  - intros [= <- _]. cbn. repeat split.
  - intros [= <- _]. cbn. repeat split.
    destruct src; cbn [get_float]; try reflexivity; apply to_uint32_idem.
Qed.

Lemma copy_then_read_witness :
  stringValue_r
    (getFieldValue
       (Some (copyFieldValue (stringValue None) (stringValue (Some "abc"%string))
                IMDB_TYPE_STRING Example.heap0).1.2)
       IMDB_TYPE_STRING fresh_result)
  = "abc"%string.
Proof.
  destruct (copyFieldValue (stringValue None) (stringValue (Some "abc"%string))
              IMDB_TYPE_STRING Example.heap0) as [[result f] h'] eqn:Hcopy.
  assert (result = IMDB_OK)
    by (apply (f_equal (fun x => x.1.1)) in Hcopy; vm_compute in Hcopy; congruence).
  subst result.
  destruct (copy_then_read _ _ _ _ _ _ fresh_result Hcopy) as (_ & _ & s & Hs & Hout & _).
  cbn [fst snd]. rewrite Hout. injection Hs as <-. reflexivity.
Defined.

(** *** Result codes *)

Lemma insert_loop_codes db values k i fs h :
  In (insert_loop db values k i fs h).1.1
     [IMDB_OK; IMDB_ERROR_INVALID_VALUE; IMDB_ERROR_OUT_OF_MEMORY].
Proof.
  revert i fs h. induction k as [|k IH]; intros i fs h; cbn [insert_loop]; [cbn; auto|].
  destruct (values !! i) as [[v|]|]; [|cbn; auto..].
  destruct (fs !! i) as [dest|]; [|cbn; auto].
  unfold copyFieldValue.
  destruct (column_type db (Z.of_nat i)); try apply IH.
  destruct (get_string v); [|cbn; auto].
  destruct (malloc _ h) as [[|] h1]; [apply IH | cbn; auto].
Qed.

Lemma update_loop_codes db now whereIdx whereValue setIdx setValue recs h updated result :
  (update_loop db now whereIdx whereValue setIdx setValue recs h updated).1.1.1 = Some result ->
  In result [IMDB_ERROR_INVALID_VALUE; IMDB_ERROR_OUT_OF_MEMORY].
Proof.
  revert h updated. induction recs as [|r recs IH]; intros h updated; cbn [update_loop];
    [discriminate|].
  destruct (negb (isValid r) || isRecordExpired now (expiryMillis r)).
  { specialize (IH h updated).
    destruct (update_loop db now whereIdx whereValue setIdx setValue recs h updated)
      as [[[e rest] h'] u]. exact IH. }
  destruct (matches db whereIdx whereValue r).
  2:{ specialize (IH h updated).
      destruct (update_loop db now whereIdx whereValue setIdx setValue recs h updated)
        as [[[e rest] h'] u]. exact IH. }
  assert (Hcopy : forall c0 h0,
            In (copyFieldValue c0 setValue (column_type db setIdx) h0).1.1
               [IMDB_OK; IMDB_ERROR_INVALID_VALUE; IMDB_ERROR_OUT_OF_MEMORY]).
  { intros c0 h0. unfold copyFieldValue. destruct (column_type db setIdx); cbn; auto.
    destruct (get_string setValue); cbn; auto.
    destruct (malloc _ h0) as [[|] ?]; cbn; auto. }
  destruct (match column_type db setIdx with
            | IMDB_TYPE_STRING =>
                match get_string (field_or_zero r setIdx) with
                | Some s => (stringValue None, free (string_size s) h)
                | None => (field_or_zero r setIdx, h)
                end
            | _ => (field_or_zero r setIdx, h)
            end) as [cleared h1] eqn:Hclear.
  replace (match column_type db setIdx with
           | IMDB_TYPE_STRING =>
               match get_string (field_or_zero r setIdx) with
               | Some s => (stringValue None, free (string_size s) h)
               | None => (field_or_zero r setIdx, h)
               end
           | _ => (field_or_zero r setIdx, h)
           end) with (cleared, h1)
    by (rewrite <- Hclear; destruct (column_type db setIdx); reflexivity).
  specialize (Hcopy cleared h1).
  destruct (copyFieldValue cleared setValue (column_type db setIdx) h1) as [[code f] h2].
  cbn [fst] in Hcopy.
  destruct code;
    try (cbn [fst]; intros [= <-]; cbn in Hcopy |- *; intuition congruence).
  specialize (IH h2 true).
  destruct (update_loop db now whereIdx whereValue setIdx setValue recs h2 true)
    as [[[e rest] h'] u]. exact IH.
Qed.

Lemma math_loop_codes db now whereIdx whereValue setIdx operation operand recs updated result :
  (math_loop db now whereIdx whereValue setIdx operation operand recs updated).1.1 = Some result ->
  result = IMDB_ERROR_INVALID_OPERATION.
Proof.
  revert updated. induction recs as [|r recs IH]; intros updated; cbn [math_loop];
    [discriminate|].
  destruct (negb (isValid r) || isRecordExpired now (expiryMillis r)).
  { specialize (IH updated).
    destruct (math_loop db now whereIdx whereValue setIdx operation operand recs updated)
      as [[e rest] u]. exact IH. }
  destruct (matches db whereIdx whereValue r).
  2:{ specialize (IH updated).
      destruct (math_loop db now whereIdx whereValue setIdx operation operand recs updated)
        as [[e rest] u]. exact IH. }
  destruct (apply_math (column_type db setIdx) (field_or_zero r setIdx) operation operand)
    as [code|f] eqn:Hmath.
  - cbn [fst]. intros [= <-]. unfold apply_math in Hmath.
    destruct (column_type db setIdx), operation; try discriminate;
      destruct (operand =? 0); congruence.
  - specialize (IH true).
    destruct (math_loop db now whereIdx whereValue setIdx operation operand recs true)
      as [[e rest] u]. exact IH.
Qed.

Lemma load_records_codes k saveMillis now data db h :
  In (load_records k saveMillis now data db h).1.1
     [IMDB_OK; IMDB_ERROR_FILE_READ; IMDB_ERROR_HEAP_LIMIT; IMDB_ERROR_OUT_OF_MEMORY].
Proof.
  revert data db h. induction k as [|k IH]; intros data db h; cbn [load_records]; [cbn; auto|].
  destruct (file_read 1 data) as [[validByte data1]|]; [|cbn; auto].
  destruct (file_read 4 data1) as [[expiryBytes data2]|]; [|cbn; auto].
  destruct (negb (checkHeapLimit h)); [cbn; auto|].
  destruct (malloc (fields_size db) h) as [[|] h1]; [|cbn; auto].
  destruct (read_fields (columns_of db) data2 h1) as [[fs h2]|[[fs rest] h2]]; [cbn; auto|].
  apply IH.
Qed.

(** X27.  The result codes of the operations.  Each operation returns
    one of the codes listed for it, whatever its arguments and the state of
    the store, the heap and the file system; no operation returns
    IMDB_ERROR_COLUMN_COUNT_MISMATCH or IMDB_ERROR_INVALID_MAC_FORMAT.
    ([selectAll] and [top] are taken at every sequence of clock readings.) *)
Theorem result_codes (db : ESP32IMDB) (h : Heap) (now : Z) :
  (forall columns columnCount,
     In (createTable columns columnCount db h).1.1
        [IMDB_OK; IMDB_ERROR_TABLE_EXISTS; IMDB_ERROR_INVALID_VALUE; IMDB_ERROR_HEAP_LIMIT;
         IMDB_ERROR_OUT_OF_MEMORY]) /\
  In (dropTable db h).1.1 [IMDB_OK; IMDB_ERROR_NO_TABLE] /\
  (forall values ttlMillis,
     In (insert values ttlMillis db h now).1.1
        [IMDB_OK; IMDB_ERROR_NO_TABLE; IMDB_ERROR_INVALID_VALUE; IMDB_ERROR_HEAP_LIMIT;
         IMDB_ERROR_OUT_OF_MEMORY]) /\
  (forall whereColumn whereValue setColumn setValue,
     In (update whereColumn whereValue setColumn setValue db h now).1.1
        [IMDB_OK; IMDB_ERROR_NO_TABLE; IMDB_ERROR_INVALID_VALUE; IMDB_ERROR_COLUMN_NOT_FOUND;
         IMDB_ERROR_NO_RECORDS; IMDB_ERROR_OUT_OF_MEMORY]) /\
  (forall whereColumn whereValue setColumn operation operand,
     In (updateWithMath whereColumn whereValue setColumn operation operand db now).1
        [IMDB_OK; IMDB_ERROR_NO_TABLE; IMDB_ERROR_INVALID_VALUE; IMDB_ERROR_COLUMN_NOT_FOUND;
         IMDB_ERROR_INVALID_TYPE; IMDB_ERROR_INVALID_OPERATION; IMDB_ERROR_NO_RECORDS]) /\
  (forall whereColumn whereValue,
     In (deleteRecords whereColumn whereValue db h).1.1
        [IMDB_OK; IMDB_ERROR_NO_TABLE; IMDB_ERROR_INVALID_VALUE; IMDB_ERROR_COLUMN_NOT_FOUND;
         IMDB_ERROR_NO_RECORDS]) /\
  (forall column whereColumn whereValue result,
     In (select column whereColumn whereValue result db now).1
        [IMDB_OK; IMDB_ERROR_NO_TABLE; IMDB_ERROR_INVALID_VALUE; IMDB_ERROR_COLUMN_NOT_FOUND;
         IMDB_ERROR_NO_RECORDS]) /\
  (forall whereColumn whereValue results_p resultCount_p millis,
     In (selectAll whereColumn whereValue results_p resultCount_p db h millis).1.1
        [IMDB_OK; IMDB_ERROR_NO_TABLE; IMDB_ERROR_INVALID_VALUE; IMDB_ERROR_COLUMN_NOT_FOUND;
         IMDB_ERROR_NO_RECORDS; IMDB_ERROR_OUT_OF_MEMORY]) /\
  (forall column result,
     In (min column result db now).1
        [IMDB_OK; IMDB_ERROR_NO_TABLE; IMDB_ERROR_INVALID_VALUE; IMDB_ERROR_COLUMN_NOT_FOUND;
         IMDB_ERROR_INVALID_TYPE; IMDB_ERROR_NO_RECORDS] /\
     In (max column result db now).1
        [IMDB_OK; IMDB_ERROR_NO_TABLE; IMDB_ERROR_INVALID_VALUE; IMDB_ERROR_COLUMN_NOT_FOUND;
         IMDB_ERROR_INVALID_TYPE; IMDB_ERROR_NO_RECORDS]) /\
  (forall n results_p resultCount_p millis,
     In (top n results_p resultCount_p db h millis).1.1
        [IMDB_OK; IMDB_ERROR_NO_TABLE; IMDB_ERROR_INVALID_VALUE; IMDB_ERROR_NO_RECORDS;
         IMDB_ERROR_OUT_OF_MEMORY]) /\
  (forall filename fs,
     In (saveToFile filename db h fs now).1.1.1
        [IMDB_OK; IMDB_ERROR_NO_TABLE; IMDB_ERROR_INVALID_VALUE; IMDB_ERROR_INVALID_OPERATION;
         IMDB_ERROR_FILE_OPEN; IMDB_ERROR_FILE_WRITE]) /\
  (forall filename fs out,
     loadFromFile filename db h fs now = Some out ->
     In out.1.1
        [IMDB_OK; IMDB_ERROR_INVALID_VALUE; IMDB_ERROR_TABLE_EXISTS; IMDB_ERROR_FILE_OPEN;
         IMDB_ERROR_CORRUPT_FILE; IMDB_ERROR_HEAP_LIMIT; IMDB_ERROR_OUT_OF_MEMORY;
         IMDB_ERROR_FILE_READ]).
Proof.
  repeat apply conj.
  - intros. unfold createTable. repeat case_match; simplify_eq; cbn; auto 10.
  - unfold dropTable. repeat case_match; simplify_eq; cbn; auto 10.
  - intros. unfold insert.
    destruct (negb (_tableExists db)); [cbn; auto|].
    destruct values as [vals|]; [|cbn; auto].
    destruct (negb (checkHeapLimit h)); [cbn; auto|].
    destruct (IMDB_MAX_TTL_MS <? ttlMillis); [cbn; auto|].
    assert (Hgrow : In (if _recordCapacity db <=? _recordCount db
                        then growRecordArray db h else (IMDB_OK, db, h)).1.1
                       [IMDB_OK; IMDB_ERROR_HEAP_LIMIT; IMDB_ERROR_OUT_OF_MEMORY]).
    { destruct (_recordCapacity db <=? _recordCount db); [|cbn; auto].
      unfold growRecordArray. repeat case_match; simplify_eq; cbn; auto 10. }
    destruct (if _recordCapacity db <=? _recordCount db
              then growRecordArray db h else (IMDB_OK, db, h)) as [[grown db1] h1].
    cbn [fst] in Hgrow.
    destruct grown; try (cbn in Hgrow |- *; intuition congruence).
    destruct (malloc (fields_size db1) h1) as [[|] h2]; [|cbn; auto 10].
    pose proof (insert_loop_codes db1 vals (Z.to_nat (_columnCount db1)) 0
                  (map zero_field (columns_of db1)) h2) as Hloop.
    destruct (insert_loop db1 vals (Z.to_nat (_columnCount db1)) 0
                (map zero_field (columns_of db1)) h2) as [[code fs] h3].
    cbn [fst] in Hloop. destruct code; cbn in Hloop |- *; intuition congruence.
  - intros. unfold update.
    destruct (negb (_tableExists db)); [cbn; auto|].
    destruct whereColumn, whereValue, setColumn, setValue; try (cbn; auto; fail).
    destruct ((findColumnIndex db s <? 0) || (findColumnIndex db s0 <? 0)); [cbn; auto 10|].
    pose proof (update_loop_codes db now (findColumnIndex db s) i (findColumnIndex db s0) i0
                  (_records db) h false) as Hloop.
    destruct (update_loop db now (findColumnIndex db s) i (findColumnIndex db s0) i0
                (_records db) h false) as [[[e recs] h'] u].
    cbn [fst] in Hloop. destruct e as [code|].
    + specialize (Hloop code eq_refl). cbn in Hloop |- *. intuition congruence.
    + destruct u; cbn; auto 10.
  - intros. unfold updateWithMath.
    destruct (negb (_tableExists db)); [cbn; auto|].
    destruct whereColumn, whereValue, setColumn; try (cbn; auto; fail).
    destruct ((findColumnIndex db s <? 0) || (findColumnIndex db s0 <? 0)); [cbn; auto 10|].
    destruct (negb (numeric (column_type db (findColumnIndex db s0)))); [cbn; auto 10|].
    pose proof (math_loop_codes db now (findColumnIndex db s) i (findColumnIndex db s0)
                  operation operand (_records db) false) as Hloop.
    destruct (math_loop db now (findColumnIndex db s) i (findColumnIndex db s0)
                operation operand (_records db) false) as [[e recs] u].
    cbn [fst] in Hloop. destruct e as [code|].
    + rewrite (Hloop code eq_refl). cbn. auto 10.
    + destruct u; cbn; auto 10.
  - intros. unfold deleteRecords.
    destruct (negb (_tableExists db)); [cbn; auto|].
    destruct whereColumn, whereValue; try (cbn; auto; fail).
    destruct (findColumnIndex db s <? 0); [cbn; auto 10|].
    destruct (delete_loop db (findColumnIndex db s) i (_records db) h false) as [[recs h'] d].
    destruct d; cbn; auto 10.
  - intros. unfold select.
    destruct (negb (_tableExists db)); [cbn; auto|].
    destruct column, whereColumn, whereValue, result; try (cbn; auto; fail).
    destruct ((findColumnIndex db s <? 0) || (findColumnIndex db s0 <? 0)); [cbn; auto 10|].
    rewrite select_loop_find. repeat case_match; simplify_eq; cbn; auto 10.
  - intros. unfold selectAll. repeat case_match; simplify_eq; cbn; auto 10.
  - intros. unfold min, max, aggregate. split; repeat case_match; simplify_eq; cbn; auto 10.
  - intros. unfold top. repeat case_match; simplify_eq; cbn; auto 10.
  - intros. unfold saveToFile.
    destruct (negb (_tableExists db)); [cbn; auto|].
    destruct filename; [|cbn; auto].
    destruct (purge_loop db now (_records db) h) as [recs h1].
    repeat case_match; simplify_eq; cbn; auto 10.
  - intros filename fs out Hload. unfold loadFromFile in Hload.
    repeat case_match; try discriminate; try (injection Hload as <-; cbn; auto 10; fail).
    all: injection Hload as <-.
    all: match goal with
         | |- In (load_records ?k ?s ?n ?d ?b ?h0).1.1 _ =>
             pose proof (load_records_codes k s n d b h0) as Hloop
         end.
    all: cbn in Hloop |- *; intuition congruence.
Qed.

(** X28.  [resultToString] names every result code in its own words: two
    different codes never get the same text. *)
Theorem resultToString_injective (a b : IMDBResult) :
  resultToString a = resultToString b -> a = b.
Proof.
  destruct a, b; intros H; try reflexivity; discriminate H.
Qed.

Lemma resultToString_injective_witness :
  resultToString IMDB_ERROR_NO_RECORDS = "No records found"%string /\
  IMDB_ERROR_NO_RECORDS = IMDB_ERROR_NO_RECORDS.
Proof.
  split; [reflexivity|].
  apply (resultToString_injective IMDB_ERROR_NO_RECORDS IMDB_ERROR_NO_RECORDS). reflexivity.
Defined.

(** *** Snapshots: the heap a load takes *)

Lemma load_records_ok_bytes k saveMillis now data db h :
  (load_records k saveMillis now data db h).1.1 = IMDB_OK ->
  freeBytes (load_records k saveMillis now data db h).2
  + table_heap (load_records k saveMillis now data db h).1.2
  = freeBytes h + table_heap db /\
  _tableExists (load_records k saveMillis now data db h).1.2 = _tableExists db.
Proof.
  revert data db h. induction k as [|k IH]; intros data db h.
  - cbn. auto.
  - cbn [load_records].
    destruct (file_read 1 data) as [[validByte data1]|]; [|discriminate].
    destruct (file_read 4 data1) as [[expiryBytes data2]|]; [|discriminate].
    destruct (negb (checkHeapLimit h)); [discriminate|].
    pose proof (malloc_bytes (fields_size db) h) as Hm.
    destruct (malloc (fields_size db) h) as [[|] h1]; cbn [fst snd] in Hm; [|discriminate].
    pose proof (read_fields_bytes (columns_of db) data2 h1) as Hread.
    destruct (read_fields (columns_of db) data2 h1) as [[fs h2]|[[fs rest] h2]];
      [discriminate|].
    intros Hok.
    match type of Hok with
    | context [load_records k saveMillis now rest ?d h2] =>
        destruct (IH rest d h2 Hok) as [Hbytes Htable]
    end.
    split; [|exact Htable]. rewrite Hbytes.
    unfold table_heap. rewrite records_heap_set_records.
    cbn [set_records _columnCount _recordCapacity _records].
    rewrite records_heap_app, records_heap_one. lia.
Qed.

(** X29.  A load takes from the heap what the table holds.  When
    [loadFromFile] into a store without table returns IMDB_OK, the store has
    a table, and the free bytes of the heap have gone down by exactly the
    bytes the loaded table holds, the ones a later [dropTable] gives back:
    the column array, the record array, and the field array and string
    buffers of every record. *)
Theorem loadFromFile_takes_the_table_heap (filename : option string) (db : ESP32IMDB)
    (h : Heap) (fs : SPIFFS) (now : Z) (db' : ESP32IMDB) (h' : Heap) :
  _tableExists db = false ->
  loadFromFile filename db h fs now = Some (IMDB_OK, db', h') ->
  _tableExists db' = true /\
  freeBytes h' + table_heap db' = freeBytes h.
Proof.
  intros Ht Hload. unfold loadFromFile in Hload.
  destruct filename as [filename|]; [|discriminate].
  rewrite Ht in Hload.
  destruct (files fs !! c_str filename) as [data|]; [|discriminate].
  destruct (file_read 4 data) as [[m data1]|]; [|discriminate].
  destruct (negb (bool_decide (m = magic))); [discriminate|].
  destruct (file_read 1 data1) as [[version data2]|]; [|discriminate].
  destruct (negb (le_value version =? 1)); [discriminate|].
  destruct (file_read 1 data2) as [[cc data3]|]; [|discriminate].
  destruct (file_read 2 data3) as [[rc data4]|]; [|discriminate].
  destruct (file_read 4 data4) as [[sm data5]|]; [|discriminate].
  destruct (negb (checkHeapLimit h)); [discriminate|].
  pose proof (malloc_bytes (size_t (sizeof_IMDBColumn * le_value cc)) h) as Hm1.
  destruct (malloc (size_t (sizeof_IMDBColumn * le_value cc)) h) as [[|] h1];
    cbn [fst snd] in Hm1; [|discriminate].
  destruct (read_schema (Z.to_nat (le_value cc)) data5) as [[[cols data6]|]|];
    [| discriminate | discriminate].
  destruct (negb (checkHeapLimit h1)); [discriminate|].
  set (capacity := if 10 <? le_value rc then le_value rc else 10) in *.
  pose proof (malloc_bytes (size_t (sizeof_IMDBRecord * capacity)) h1) as Hm2.
  destruct (malloc (size_t (sizeof_IMDBRecord * capacity)) h1) as [[|] h2];
    cbn [fst snd] in Hm2; [|discriminate].
  injection Hload as Hload.
  pose proof (load_records_ok_bytes (Z.to_nat (le_value rc)) (le_value sm) now data6
                (mkDB (Some cols) (le_value cc) [] capacity true) h2) as Hrec.
  rewrite Hload in Hrec. cbn [fst snd] in Hrec.
  destruct (Hrec eq_refl) as [Hbytes Htable].
  split; [exact Htable|]. rewrite Hbytes. unfold table_heap at 1, records_heap.
  cbn [_columnCount _recordCapacity _records map fold_right]. lia.
Qed.

Lemma loadFromFile_takes_the_table_heap_witness :
  exists db' h',
    loadFromFile (Some "/db"%string) new_ESP32IMDB Example.heap0
      (saveToFile (Some "/db"%string) Example.db2 Example.heap0 Example.flash 1000).2 1050
      = Some (IMDB_OK, db', h') /\
    freeBytes h' + table_heap db' = freeBytes Example.heap0.
Proof.
  assert (Hload : exists db' h',
            loadFromFile (Some "/db"%string) new_ESP32IMDB Example.heap0
              (saveToFile (Some "/db"%string) Example.db2 Example.heap0 Example.flash 1000).2
              1050 = Some (IMDB_OK, db', h'))
    by (eexists; eexists; vm_compute; reflexivity).
  destruct Hload as (db' & h' & Hload). exists db', h'. split; [exact Hload|].
  exact (proj2 (loadFromFile_takes_the_table_heap _ _ _ _ _ _ _
                  (eq_refl : _tableExists new_ESP32IMDB = false) Hload)).
Defined.

(** *** Deleting is thorough *)

(** X30.  [deleteRecords] leaves no match behind.  After a call that
    returns IMDB_OK, no record of the store matches the where clause any
    more: at every clock [countWhere] on the same clause answers 0 and
    [select] does not answer IMDB_OK, and a second [deleteRecords] with the
    same clause answers IMDB_ERROR_NO_RECORDS and changes nothing. *)
Theorem deleteRecords_is_thorough (whereColumn : string) (whereValue : IMDBFieldValue)
    (db : ESP32IMDB) (h : Heap) (db' : ESP32IMDB) (h' : Heap) :
  deleteRecords (Some whereColumn) (Some whereValue) db h = (IMDB_OK, db', h') ->
  (forall now, countWhere (Some whereColumn) (Some whereValue) db' now = 0) /\
  (forall column res now,
     (select (Some column) (Some whereColumn) (Some whereValue) (Some res) db' now).1
     <> IMDB_OK) /\
  (forall h2,
     deleteRecords (Some whereColumn) (Some whereValue) db' h2
     = (IMDB_ERROR_NO_RECORDS, db', h2)).
Proof.
  unfold deleteRecords at 1.
  destruct (_tableExists db) eqn:Ht; [|discriminate]. cbn [negb].
  destruct (Z.ltb_spec (findColumnIndex db whereColumn) 0) as [|Hidx]; [discriminate|].
  pose proof (delete_loop_spec db (findColumnIndex db whereColumn) whereValue (_records db)
                h false) as [Hrecs _].
  destruct (delete_loop db (findColumnIndex db whereColumn) whereValue (_records db) h false)
    as [[recs h1] deleted].
  cbn [fst snd] in Hrecs. destruct deleted; [|discriminate].
  intros [= <- _]. rewrite compactRecords_eq.
  change (_records (set_records db recs)) with recs.
  set (kept := List.filter isValid recs).
  change (set_records (set_records db recs) kept)
    with (mkDB (_columns db) (_columnCount db) kept (_recordCapacity db) (_tableExists db)).
  set (db' := mkDB (_columns db) (_columnCount db) kept (_recordCapacity db) (_tableExists db)).
  assert (Hfind : findColumnIndex db' whereColumn = findColumnIndex db whereColumn)
    by reflexivity.
  assert (Hnone : forall r, In r kept ->
                    matches db' (findColumnIndex db whereColumn) whereValue r = false).
  { intros r Hr. change (matches db' (findColumnIndex db whereColumn) whereValue r)
      with (matches db (findColumnIndex db whereColumn) whereValue r).
    unfold kept in Hr. rewrite Hrecs in Hr.
    rewrite (filter_map_kept isValid
               (fun r => isValid r && matches db (findColumnIndex db whereColumn) whereValue r)
               (fun r => mkRecord None (expiryMillis r) false)) in Hr by reflexivity.
    apply List.filter_In in Hr as [_ Hr].
    destruct (isValid r); [|discriminate].
    cbn [andb negb] in Hr. apply negb_true_iff in Hr. exact Hr. }
  assert (Ht' : _tableExists db' = true) by exact Ht.
  split; [|split].
  - intros now. unfold countWhere. rewrite Ht', Hfind. cbn [negb].
    replace (findColumnIndex db whereColumn <? 0) with false by (symmetry; apply Z.ltb_ge; lia).
    rewrite count_matches_filter, filter_none; [reflexivity|].
    intros r Hr. rewrite (Hnone r Hr). apply andb_false_r.
  - intros column res now. unfold select. rewrite Ht', Hfind. cbn [negb].
    destruct (findColumnIndex db' column <? 0); [discriminate|].
    replace (findColumnIndex db whereColumn <? 0) with false by (symmetry; apply Z.ltb_ge; lia).
    cbn [orb]. rewrite select_loop_find.
    destruct (List.find _ (_records db')) as [r|] eqn:Hf; [|discriminate].
    apply List.find_some in Hf as [Hr Hm]. cbn [db' _records] in Hr.
    rewrite (Hnone r Hr), andb_false_r in Hm. discriminate.
  - intros h2. unfold deleteRecords. rewrite Ht', Hfind. cbn [negb].
    replace (findColumnIndex db whereColumn <? 0) with false by (symmetry; apply Z.ltb_ge; lia).
    rewrite delete_loop_none.
    + rewrite set_records_same. reflexivity.
    + apply not_true_is_false. intros Hex. apply existsb_exists in Hex as (r & Hr & Hm).
      cbn [db' _records] in Hr. rewrite (Hnone r Hr), andb_false_r in Hm. discriminate.
Qed.

Lemma deleteRecords_is_thorough_witness :
  countWhere (Some "id"%string) (Some (int32Value 2))
    (deleteRecords (Some "id"%string) (Some (int32Value 2)) Example.db2 Example.two_rows.2).1.2
    1000 = 0.
Proof.
  destruct (deleteRecords (Some "id"%string) (Some (int32Value 2)) Example.db2
              Example.two_rows.2) as [[result db'] h'] eqn:Hdel.
  assert (result = IMDB_OK)
    by (apply (f_equal (fun x => x.1.1)) in Hdel; vm_compute in Hdel; congruence).
  subst result.
  exact (proj1 (deleteRecords_is_thorough _ _ _ _ _ _ Hdel) 1000).
Defined.
